(** * MLS-MPM simulator: the grid transfer passes and the gather kernel's
      force fields of [mlsMpmSimulator.js], embedded in Rocq.

    Floating-point values are modelled in exact arithmetic: rationals ([Q])
    wherever the kernels use field operations only, reals ([R]) where the
    kernel takes a vector length.  The 32-bit integers of the cell buffer are
    [Z] with the two's-complement wrap-around of [atomicAdd] written out.
    A division whose divisor is zero has no finite result; kernels that
    divide by a value they do not test return [None] there. *)

From Stdlib Require Import ZArith QArith Qround Qminmax Qabs Reals Psatz Lia List Bool
  FunctionalExtensionality.
Import ListNotations.

Open Scope Q_scope.

(** ** TSL scalar primitives *)

Module Tsl.

(** [int(x)] on a float: the value is clamped to the i32 range and rounded
    toward zero. *)
Definition INT32_MIN : Z := (- 2 ^ 31)%Z.
Definition INT32_MAX : Z := (2 ^ 31 - 1)%Z.

Definition Qtrunc (q : Q) : Z := Z.quot (Qnum q) (Zpos (Qden q)).

Definition int (f : Q) : Z := Z.max INT32_MIN (Z.min INT32_MAX (Qtrunc f)).

(** [float(i)] on an integer. *)
Definition float (i : Z) : Q := inject_Z i.

(** [x.fract()] is [x - floor(x)]. *)
Definition fract (x : Q) : Q := x - inject_Z (Qfloor x).

(** [mix(a, b, t)] is the linear blend [a*(1-t) + b*t]. *)
Definition mix (a b t : Q) : Q := a * (1 - t) + b * t.

(** [clamp(x, lo, hi)] is [min(max(x, lo), hi)]. *)
Definition clamp (x lo hi : Q) : Q := Qmin (Qmax x lo) hi.

(** A float division; it has a finite result only for a non-zero divisor. *)
Definition fdiv (a b : Q) : option Q :=
  if Qeq_bool b 0 then None else Some (a / b).

(** Two's-complement wrap-around of a 32-bit signed integer. *)
Definition wrap32 (z : Z) : Z := ((z + 2 ^ 31) mod 2 ^ 32 - 2 ^ 31)%Z.

(** [atomicAdd(cell, delta)] on an i32 field: the new content of the field. *)
Definition atomicAdd (old delta : Z) : Z := wrap32 (old + delta).

End Tsl.

(** ** Vectors and matrices *)

Record vec3 : Type := mkVec3 { vx : Q; vy : Q; vz : Q }.
Record vec4 : Type := mkVec4 { v4x : Q; v4y : Q; v4z : Q; v4w : Q }.
Record ivec3 : Type := mkIvec3 { ix : Z; iy : Z; iz : Z }.

(** A [mat3] is stored by columns, as in WGSL. *)
Record mat3 : Type := mkMat3 { col0 : vec3; col1 : vec3; col2 : vec3 }.

Module Vec.

Definition splat (s : Q) : vec3 := mkVec3 s s s.
Definition add (a b : vec3) : vec3 := mkVec3 (vx a + vx b) (vy a + vy b) (vz a + vz b).
Definition sub (a b : vec3) : vec3 := mkVec3 (vx a - vx b) (vy a - vy b) (vz a - vz b).
Definition mul (a b : vec3) : vec3 := mkVec3 (vx a * vx b) (vy a * vy b) (vz a * vz b).
Definition scale (s : Q) (a : vec3) : vec3 := mkVec3 (s * vx a) (s * vy a) (s * vz a).
Definition map (f : Q -> Q) (a : vec3) : vec3 := mkVec3 (f (vx a)) (f (vy a)) (f (vz a)).

(** [ivec3(v)] and [vec3(iv)] conversions. *)
Definition to_ivec3 (a : vec3) : ivec3 := mkIvec3 (Tsl.int (vx a)) (Tsl.int (vy a)) (Tsl.int (vz a)).
Definition of_ivec3 (a : ivec3) : vec3 := mkVec3 (Tsl.float (ix a)) (Tsl.float (iy a)) (Tsl.float (iz a)).

Definition mzero : mat3 := mkMat3 (splat 0) (splat 0) (splat 0).
Definition madd (a b : mat3) : mat3 :=
  mkMat3 (add (col0 a) (col0 b)) (add (col1 a) (col1 b)) (add (col2 a) (col2 b)).
Definition mscale (s : Q) (a : mat3) : mat3 :=
  mkMat3 (scale s (col0 a)) (scale s (col1 a)) (scale s (col2 a)).
Definition transpose (a : mat3) : mat3 :=
  mkMat3 (mkVec3 (vx (col0 a)) (vx (col1 a)) (vx (col2 a)))
         (mkVec3 (vy (col0 a)) (vy (col1 a)) (vy (col2 a)))
         (mkVec3 (vz (col0 a)) (vz (col1 a)) (vz (col2 a))).
(** Matrix times column vector. *)
Definition mulv (a : mat3) (v : vec3) : vec3 :=
  add (add (scale (vx v) (col0 a)) (scale (vy v) (col1 a))) (scale (vz v) (col2 a)).

End Vec.

(** ** Fixed-point codec (lines 279-284) *)

Definition fixedPointMultiplier : Q := 10000000.

Definition encodeFixedPoint (f32 : Q) : Z := Tsl.int (f32 * fixedPointMultiplier).

Definition decodeFixedPoint (i32 : Z) : Q := Tsl.float i32 / fixedPointMultiplier.

(** The encoder as the specification words it: [round(f * K)], rounding to
    the nearest integer. *)
Definition spec_round (q : Q) : Z := Qfloor (q + 0.5).
Definition spec_encode (f : Q) : Z := spec_round (f * fixedPointMultiplier).

(** ** Quadratic B-spline stencil (lines 307-312, shared by the three
       particle kernels) *)

Definition cellDiffOf (particlePosition : vec3) : vec3 :=
  Vec.sub (Vec.map Tsl.fract particlePosition) (Vec.splat 0.5).

Definition w0 (cellDiff : vec3) : vec3 :=
  Vec.mul (Vec.scale 0.5 (Vec.sub (Vec.splat 0.5) cellDiff)) (Vec.sub (Vec.splat 0.5) cellDiff).
Definition w1 (cellDiff : vec3) : vec3 :=
  Vec.sub (Vec.splat 0.75) (Vec.mul cellDiff cellDiff).
Definition w2 (cellDiff : vec3) : vec3 :=
  Vec.mul (Vec.scale 0.5 (Vec.add (Vec.splat 0.5) cellDiff)) (Vec.add (Vec.splat 0.5) cellDiff).

Definition weightsOf (cellDiff : vec3) : list vec3 := [w0 cellDiff; w1 cellDiff; w2 cellDiff].

Definition element (weights : list vec3) (g : Z) : vec3 :=
  nth (Z.to_nat g) weights (Vec.splat 0).

(** The three nested [Loop]s over [gx], [gy], [gz] in [0, 3), in loop order. *)
Definition stencil : list ivec3 :=
  flat_map (fun gx => flat_map (fun gy => List.map (fun gz => mkIvec3 gx gy gz)
    [0; 1; 2]%Z) [0; 1; 2]%Z) [0; 1; 2]%Z.

Definition weightAt (weights : list vec3) (g : ivec3) : Q :=
  vx (element weights (ix g)) * vy (element weights (iy g)) * vz (element weights (iz g)).

Definition Qsum (l : list Q) : Q := fold_right Qplus 0 l.

(** ** Buffers and uniforms *)

(** One element of [cellBuffer]: four i32 accumulators (lines 132-137). *)
Record Cell : Type := mkCell { cell_x : Z; cell_y : Z; cell_z : Z; cell_mass : Z }.

(** One element of [particleBuffer] (lines 78-86). *)
Record Particle : Type := mkParticle {
  position : vec3;
  density : Q;
  velocity : vec3;
  mass : Q;
  C : mat3;
  direction : vec3;
  color : vec3
}.

(** The uniforms read by the grid passes. *)
Record Uniforms : Type := mkUniforms {
  gridSize : ivec3;
  numParticles : Z;
  dt : Q;
  stiffness : Q;
  restDensity : Q;
  dynamicViscosity : Q
}.

(** The storage buffers.  A buffer is a total map from element index to
    content; only indices inside the allocation are meaningful. *)
Record State : Type := mkState {
  cellBuffer : Z -> Cell;
  cellBufferF : Z -> vec4;
  particleBuffer : Z -> Particle
}.

Definition upd {A : Type} (f : Z -> A) (i : Z) (v : A) : Z -> A :=
  fun j => if (j =? i)%Z then v else f j.

Definition zeroCell : Cell := mkCell 0 0 0 0.
Definition zeroVec4 : vec4 := mkVec4 0 0 0 0.

(** [cellCount] (line 131). *)
Definition cellCount (u : Uniforms) : Z :=
  (ix (gridSize u) * iy (gridSize u) * iz (gridSize u))%Z.

(** ** Kernel dispatch

    A compute node of [count] elements runs in workgroups of 64 invocations,
    so the kernel body is invoked for every [instanceIndex] below [count]
    rounded up to a multiple of 64; each body starts with its own range
    test.  The invocations of one pass are run here one after the other in
    index order: the passes whose invocations share cells combine their
    writes with [atomicAdd] only. *)

Definition Kernel : Type := Z -> State -> option State.

Definition workgroupSize : Z := 64.

Definition dispatchSize (count : Z) : Z :=
  (workgroupSize * ((count + workgroupSize - 1) / workgroupSize))%Z.

Fixpoint dispatch_from (n : nat) (instanceIndex : Z) (k : Kernel) (s : State)
  : option State :=
  match n with
  | O => Some s
  | S n' =>
      match k instanceIndex s with
      | Some s' => dispatch_from n' (instanceIndex + 1)%Z k s'
      | None => None
      end
  end.

Definition dispatch (count : Z) (k : Kernel) (s : State) : option State :=
  dispatch_from (Z.to_nat (dispatchSize count)) 0 k s.

(** ** ClearGrid (lines 262-277) *)

Definition clearGrid (u : Uniforms) : Kernel := fun instanceIndex s =>
  if (instanceIndex >=? cellCount u)%Z then Some s
  else Some (mkState (upd (cellBuffer s) instanceIndex zeroCell)
                     (upd (cellBufferF s) instanceIndex zeroVec4)
                     (particleBuffer s)).

(** ** Cell addressing (lines 286-293); i32 arithmetic wraps. *)

Definition imul (a b : Z) : Z := Tsl.wrap32 (a * b).
Definition iadd (a b : Z) : Z := Tsl.wrap32 (a + b).
Definition isub (a b : Z) : Z := Tsl.wrap32 (a - b).

Definition getCellPtr (u : Uniforms) (ipos : ivec3) : Z :=
  iadd (iadd (imul (imul (ix ipos) (iy (gridSize u))) (iz (gridSize u)))
             (imul (iy ipos) (iz (gridSize u))))
       (iz ipos).

(** The stencil cell of loop indices [g] for a particle, with its weight and
    its offset [cellDist] from the particle (lines 318-320). *)
Definition baseCell (particlePosition : vec3) : ivec3 :=
  let i := Vec.to_ivec3 particlePosition in
  mkIvec3 (isub (ix i) 1) (isub (iy i) 1) (isub (iz i) 1).

Definition cellXOf (particlePosition : vec3) (g : ivec3) : ivec3 :=
  let b := baseCell particlePosition in
  mkIvec3 (iadd (ix b) (ix g)) (iadd (iy b) (iy g)) (iadd (iz b) (iz g)).

Definition weightOf (particlePosition : vec3) (g : ivec3) : Q :=
  weightAt (weightsOf (cellDiffOf particlePosition)) g.

Definition cellDistOf (particlePosition : vec3) (g : ivec3) : vec3 :=
  Vec.sub (Vec.add (Vec.of_ivec3 (cellXOf particlePosition g)) (Vec.splat 0.5))
          particlePosition.

(** ** Scatter-1: [p2g1] (lines 295-333) *)

(** What one loop iteration adds to its cell, before encoding. *)
Record Contribution : Type := mkContribution {
  cellPtr : Z;
  velContrib : vec3;
  massContrib : Q
}.

Definition p2g1Contribution (u : Uniforms) (p : Particle) (g : ivec3) : Contribution :=
  let weight := weightOf (position p) g in
  let cellDist := cellDistOf (position p) g in
  let Qv := Vec.mulv (C p) cellDist in
  mkContribution (getCellPtr u (cellXOf (position p) g))
                 (Vec.scale weight (Vec.add (velocity p) Qv))
                 weight.

Definition p2g1Contributions (u : Uniforms) (p : Particle) : list Contribution :=
  List.map (p2g1Contribution u p) stencil.

(** The four [atomicAdd]s of one iteration (lines 326-329). *)
Definition scatter1 (cb : Z -> Cell) (c : Contribution) : Z -> Cell :=
  let cell := cb (cellPtr c) in
  upd cb (cellPtr c)
    (mkCell (Tsl.atomicAdd (cell_x cell) (encodeFixedPoint (vx (velContrib c))))
            (Tsl.atomicAdd (cell_y cell) (encodeFixedPoint (vy (velContrib c))))
            (Tsl.atomicAdd (cell_z cell) (encodeFixedPoint (vz (velContrib c))))
            (Tsl.atomicAdd (cell_mass cell) (encodeFixedPoint (massContrib c)))).

Definition p2g1 (u : Uniforms) : Kernel := fun instanceIndex s =>
  if (instanceIndex >=? numParticles u)%Z then Some s
  else
    let p := particleBuffer s instanceIndex in
    Some (mkState (fold_left scatter1 (p2g1Contributions u p) (cellBuffer s))
                  (cellBufferF s)
                  (particleBuffer s)).

(** ** Scatter-2: [p2g2] (lines 336-392) *)

(** The density re-gathered from the scattered mass (lines 354-364). *)
Definition gatherDensity (u : Uniforms) (cb : Z -> Cell) (particlePosition : vec3) : Q :=
  fold_left
    (fun density g =>
       density
       + decodeFixedPoint (cell_mass (cb (getCellPtr u (cellXOf particlePosition g))))
         * weightOf particlePosition g)
    stencil 0.

Definition pressureOf (u : Uniforms) (ratio : Q) : Q :=
  Qmax 0 ((ratio ^ 5 - 1) * stiffness u).

Definition stressOf (u : Uniforms) (pressure : Q) (dudv : mat3) : mat3 :=
  let stress := mkMat3 (mkVec3 (- pressure) 0 0) (mkVec3 0 (- pressure) 0)
                       (mkVec3 0 0 (- pressure)) in
  let strain := Vec.madd dudv (Vec.transpose dudv) in
  Vec.madd stress (Vec.mscale (dynamicViscosity u) strain).

(** The three [atomicAdd]s of one iteration (lines 385-388). *)
Definition scatter2 (cb : Z -> Cell) (m : Z * vec3) : Z -> Cell :=
  let cell := cb (fst m) in
  upd cb (fst m)
    (mkCell (Tsl.atomicAdd (cell_x cell) (encodeFixedPoint (vx (snd m))))
            (Tsl.atomicAdd (cell_y cell) (encodeFixedPoint (vy (snd m))))
            (Tsl.atomicAdd (cell_z cell) (encodeFixedPoint (vz (snd m))))
            (cell_mass cell)).

Definition p2g2Momentum (u : Uniforms) (eq16Term0 : mat3) (particlePosition : vec3)
  (g : ivec3) : Z * vec3 :=
  (getCellPtr u (cellXOf particlePosition g),
   Vec.mulv (Vec.mscale (weightOf particlePosition g) eq16Term0)
            (cellDistOf particlePosition g)).

Definition setDensity (p : Particle) (d : Q) : Particle :=
  mkParticle (position p) d (velocity p) (mass p) (C p) (direction p) (color p).

(** [volume = 1 / density] and [density / restDensity] are plain float
    divisions in the kernel: it does not test either divisor. *)
Definition p2g2 (u : Uniforms) : Kernel := fun instanceIndex s =>
  if (instanceIndex >=? numParticles u)%Z then Some s
  else
    let p := particleBuffer s instanceIndex in
    let density' := gatherDensity u (cellBuffer s) (position p) in
    let p' := setDensity p (Tsl.mix (density p) density' 0.05) in
    match Tsl.fdiv 1 density', Tsl.fdiv density' (restDensity u) with
    | Some volume, Some ratio =>
        let stress := stressOf u (pressureOf u ratio) (C p) in
        let eq16Term0 := Vec.mscale (dt u) (Vec.mscale (volume * -4) stress) in
        Some (mkState
                (fold_left scatter2
                   (List.map (p2g2Momentum u eq16Term0 (position p)) stencil)
                   (cellBuffer s))
                (cellBufferF s)
                (upd (particleBuffer s) instanceIndex p'))
    | _, _ => None
    end.

(** ** GridUpdate: [updateGrid] (lines 395-429) *)

(** Lines 413-426: the cell coordinates recovered from the index, and the
    velocity components zeroed next to the grid boundary. *)
Definition cellCoordX (u : Uniforms) (instanceIndex : Z) : Z :=
  Z.quot (Z.quot instanceIndex (iz (gridSize u))) (iy (gridSize u)).
Definition cellCoordY (u : Uniforms) (instanceIndex : Z) : Z :=
  Z.rem (Z.quot instanceIndex (iz (gridSize u))) (iy (gridSize u)).
Definition cellCoordZ (u : Uniforms) (instanceIndex : Z) : Z :=
  Z.rem instanceIndex (iz (gridSize u)).

Definition atBoundary (c size : Z) : bool :=
  (c <? 2)%Z || (c >? isub size 2)%Z.

(** The test of line 407. *)
Definition massIsEmpty (cell : Cell) : bool :=
  Qle_bool (decodeFixedPoint (cell_mass cell)) 0.

(** The body after the early returns; its divisions are by [mass]. *)
Definition resolveCell (u : Uniforms) (instanceIndex : Z) (cell : Cell) : option vec4 :=
  let mass := decodeFixedPoint (cell_mass cell) in
  match Tsl.fdiv (decodeFixedPoint (cell_x cell)) mass,
        Tsl.fdiv (decodeFixedPoint (cell_y cell)) mass,
        Tsl.fdiv (decodeFixedPoint (cell_z cell)) mass with
  | Some vx0, Some vy0, Some vz0 =>
      let vx1 := if atBoundary (cellCoordX u instanceIndex) (ix (gridSize u)) then 0 else vx0 in
      let vy1 := if atBoundary (cellCoordY u instanceIndex) (iy (gridSize u)) then 0 else vy0 in
      let vz1 := if atBoundary (cellCoordZ u instanceIndex) (iz (gridSize u)) then 0 else vz0 in
      Some (mkVec4 vx1 vy1 vz1 mass)
  | _, _, _ => None
  end.

Definition updateGrid (u : Uniforms) : Kernel := fun instanceIndex s =>
  if (instanceIndex >=? cellCount u)%Z then Some s
  else
    let cell := cellBuffer s instanceIndex in
    if massIsEmpty cell then Some s
    else
      match resolveCell u instanceIndex cell with
      | Some v => Some (mkState (cellBuffer s) (upd (cellBufferF s) instanceIndex v)
                                (particleBuffer s))
      | None => None
      end.

(** ** The grid passes of one step, in the order of [update] (line 2538) *)

Definition bind {A B : Type} (m : option A) (f : A -> option B) : option B :=
  match m with Some a => f a | None => None end.

Notation "x <- m ;; k" := (bind m (fun x => k))
  (at level 61, m at next level, right associativity).

Definition isSome {A : Type} (m : option A) : bool :=
  match m with Some _ => true | None => false end.

Definition scatterPasses (u : Uniforms) (s : State) : option State :=
  s1 <- dispatch (numParticles u) (p2g1 u) s ;;
  dispatch (numParticles u) (p2g2 u) s1.

Definition gridPasses (u : Uniforms) (s : State) : option State :=
  s0 <- dispatch (cellCount u) (clearGrid u) s ;;
  s2 <- scatterPasses u s0 ;;
  dispatch (cellCount u) (updateGrid u) s2.

(** ** Closed forms of the passes

    What a whole dispatch leaves in the buffers, cell by cell; the theorems
    below prove the dispatches equal to these. *)

Definition inRange (count j : Z) : bool := (0 <=? j)%Z && (j <? count)%Z.

(** The invocations [start, start + n) of a dispatch. *)
Definition inSpan (start : Z) (n : nat) (j : Z) : bool :=
  (start <=? j)%Z && (j <? start + Z.of_nat n)%Z.

Definition clearedState (u : Uniforms) (s : State) : State :=
  mkState (fun j => if inRange (cellCount u) j then zeroCell else cellBuffer s j)
          (fun j => if inRange (cellCount u) j then zeroVec4 else cellBufferF s j)
          (particleBuffer s).

Definition resolvedCell (u : Uniforms) (s : State) (j : Z) : vec4 :=
  if inRange (cellCount u) j && negb (massIsEmpty (cellBuffer s j)) then
    match resolveCell u j (cellBuffer s j) with
    | Some v => v
    | None => cellBufferF s j
    end
  else cellBufferF s j.

Definition resolvedState (u : Uniforms) (s : State) : State :=
  mkState (cellBuffer s) (resolvedCell u s) (particleBuffer s).

(** The encoded mass one particle adds to cell [j], and the exact sum of
    what the invocations of [p2g1] add to it over a dispatch (before any
    32-bit wrap-around). *)
Definition Zsum (l : list Z) : Z := fold_right Z.add 0%Z l.

Definition massAdded (u : Uniforms) (p : Particle) (j : Z) : Z :=
  Zsum (List.map (fun c => if (cellPtr c =? j)%Z
                           then encodeFixedPoint (massContrib c) else 0%Z)
                 (p2g1Contributions u p)).

Fixpoint massFrom (u : Uniforms) (pb : Z -> Particle) (n : nat) (instanceIndex j : Z) : Z :=
  match n with
  | O => 0%Z
  | S n' =>
      ((if (instanceIndex >=? numParticles u)%Z then 0
        else massAdded u (pb instanceIndex) j)
       + massFrom u pb n' (instanceIndex + 1) j)%Z
  end.

Definition massTotal (u : Uniforms) (pb : Z -> Particle) (j : Z) : Z :=
  massFrom u pb (Z.to_nat (dispatchSize (numParticles u))) 0 j.

(** An integer that is a 32-bit value. *)
Definition wrapped (z : Z) : Prop := Tsl.wrap32 z = z.

(** What Scatter-2 leaves untouched: the resolved buffer, every cell's
    mass accumulator and every particle's position. *)
Definition sameForDensity (s s' : State) : Prop :=
  cellBufferF s' = cellBufferF s /\
  (forall j, cell_mass (cellBuffer s' j) = cell_mass (cellBuffer s j)) /\
  (forall i, position (particleBuffer s' i) = position (particleBuffer s i)).

(** The density an invocation of [p2g2] re-gathers for its particle. *)
Definition densityOf (u : Uniforms) (s : State) (i : Z) : Q :=
  gatherDensity u (cellBuffer s) (position (particleBuffer s i)).

(** A position inside the box [[2, gridSize - 2]] to which [g2p] clamps
    every particle (line 1516). *)
Definition inGrid (u : Uniforms) (pos : vec3) : Prop :=
  (2 <= vx pos /\ vx pos <= inject_Z (ix (gridSize u) - 2)) /\
  (2 <= vy pos /\ vy pos <= inject_Z (iy (gridSize u) - 2)) /\
  (2 <= vz pos /\ vz pos <= inject_Z (iz (gridSize u) - 2)).

(** The cells "within 2 cells of the grid boundary" on an axis of [size]
    cells, as the specification words it: the two cell layers at either end. *)
Definition withinTwoCells (c size : Z) : bool :=
  (c <? 2)%Z || (c >=? size - 2)%Z.

(** ** A concrete step

    The grid of the simulator, the default parameters of [conf.js]
    ([dt = 1/60 * 6 * 1]), and one particle moving along [x] next to the
    upper [x] boundary. *)
Definition simulatorGrid : ivec3 := mkIvec3 128 64 64.

Definition exampleUniforms : Uniforms := mkUniforms simulatorGrid 1 0.1 3 1 0.1.

Definition exampleParticle : Particle :=
  mkParticle (mkVec3 125.5 32.5 32.5) 1 (mkVec3 1 0 0) 1 Vec.mzero
             (Vec.splat 0) (Vec.splat 1).

Definition exampleState : State :=
  mkState (fun _ => zeroCell) (fun _ => zeroVec4) (fun _ => exampleParticle).

(** 510 particles at rest at the centre of one cell. *)
Definition crowdedUniforms : Uniforms := mkUniforms simulatorGrid 510 0.1 3 1 0.1.

Definition crowdedParticle : Particle :=
  mkParticle (mkVec3 32.5 32.5 32.5) 1 (Vec.splat 0) 1 Vec.mzero
             (Vec.splat 0) (Vec.splat 1).

Definition crowdedState : State :=
  mkState (fun _ => zeroCell) (fun _ => zeroVec4) (fun _ => crowdedParticle).

(** The buffers after ClearGrid and the two scatter passes. *)
Definition scattered (u : Uniforms) (s : State) : State :=
  match scatterPasses u (clearedState u s) with
  | Some s2 => s2
  | None => s
  end.

(** ** Gather kernel [g2p]: boost easing (lines 747-755, 1370-1381) *)

Definition COLOR_SPHERES_BOOST_DURATION : Q := 1.4.

(** [update] sets the boost-time uniform to the time remaining
    (lines 2428-2430). *)
Definition remainingBoost (elapsedSinceStart : Q) : Q :=
  Qmax 0 (COLOR_SPHERES_BOOST_DURATION - elapsedSinceStart).

Definition boostProgressOf (boostTime boostDuration : Q) : Q :=
  Tsl.clamp (boostTime / boostDuration) 0 1.

Definition easedProgressOf (boostProgress : Q) : Q :=
  boostProgress * boostProgress * (3 - boostProgress * 2).

Definition boostMultiplierOf (easedProgress : Q) : Q := Tsl.mix 1 20 easedProgress.

Definition dampingFactorOf (easedProgress : Q) : Q :=
  let boostDamping := 0.7 in
  let normalDamping := 0.98 in
  Tsl.mix normalDamping boostDamping easedProgress.

(** Strength multiplier and velocity damping as functions of the remaining
    boost time [t]. *)
Definition multiplier (boostDuration t : Q) : Q :=
  boostMultiplierOf (easedProgressOf (boostProgressOf t boostDuration)).

Definition damping (boostDuration t : Q) : Q :=
  dampingFactorOf (easedProgressOf (boostProgressOf t boostDuration)).

(** ** Gather kernel [g2p]: edge hiding (lines 441-442, 1485-1487) *)

Definition Qltb (a b : Q) : bool := negb (Qle_bool b a).

Definition particleIndexPercent (instanceIndex numParticles : Z) : Q :=
  Tsl.float instanceIndex / Tsl.float numParticles * 100.

Definition shouldHide (hidePercentage : Q) (numParticles instanceIndex : Z) : bool :=
  Qltb 0 hidePercentage
  && Qltb (particleIndexPercent instanceIndex numParticles) hidePercentage.

(** The hash of the particle index in the edge-hiding block. *)
Definition edgeHash (instanceIndex : Z) : Q := Tsl.float instanceIndex * 12.9898.

Definition useLeftEdge (instanceIndex : Z) : bool :=
  Qltb (Tsl.fract (edgeHash instanceIndex)) 0.5.

(** The active particles are the indices below [numParticles]. *)
Definition activeParticles (numParticles : Z) : list Z :=
  List.map Z.of_nat (seq 0 (Z.to_nat numParticles)).

Definition hiddenParticles (hidePercentage : Q) (numParticles : Z) : list Z :=
  filter (shouldHide hidePercentage numParticles) (activeParticles numParticles).

(** ** Gather kernel [g2p]: sphere containment and position integration
       (lines 438, 514-529, 1515-1516), over the reals *)

Module Sphere.

Local Open Scope R_scope.

Record vec3R : Type := mkVec3R { rx : R; ry : R; rz : R }.

Definition zero : vec3R := mkVec3R 0 0 0.
Definition add (a b : vec3R) : vec3R := mkVec3R (rx a + rx b) (ry a + ry b) (rz a + rz b).
Definition sub (a b : vec3R) : vec3R := mkVec3R (rx a - rx b) (ry a - ry b) (rz a - rz b).
Definition scale (s : R) (a : vec3R) : vec3R := mkVec3R (s * rx a) (s * ry a) (s * rz a).
Definition negate (a : vec3R) : vec3R := mkVec3R (- rx a) (- ry a) (- rz a).
Definition length (a : vec3R) : R := sqrt (rx a * rx a + ry a * ry a + rz a * rz a).
Definition normalize (a : vec3R) : vec3R := scale (/ length a) a.
Definition clampR (x lo hi : R) : R := Rmin (Rmax x lo) hi.
Definition clampV (a lo hi : vec3R) : vec3R :=
  mkVec3R (clampR (rx a) (rx lo) (rx hi)) (clampR (ry a) (ry lo) (ry hi))
          (clampR (rz a) (rz lo) (rz hi)).

Record SphereUniforms : Type := mkSphereUniforms {
  gridSizeR : ivec3;
  dtR : R;
  sphereContainmentMode : Z;
  sphereRadius : R;
  sphereCenterX : R;
  sphereCenterY : R;
  sphereCenterZ : R
}.

(** [dt] as [update] computes it (lines 2524-2528). *)
Definition updateDt (interval speed : R) (frontGravityMode : Z) : R :=
  let interval' := Rmin interval (1 / 60) in
  let effectiveSpeed := if (frontGravityMode =? 1)%Z then 4 else speed in
  interval' * 6 * effectiveSpeed.

Definition sphereCenterOf (u : SphereUniforms) : vec3R :=
  mkVec3R (sphereCenterX u) (sphereCenterY u) (sphereCenterZ u).

Definition distToCenterOf (u : SphereUniforms) (particlePosition : vec3R) : R :=
  length (sub particlePosition (sphereCenterOf u)).

(** Lines 514-529. *)
Definition sphereContainment (u : SphereUniforms) (shouldHide : bool)
  (particlePosition particleVelocity : vec3R) : vec3R :=
  if (sphereContainmentMode u =? 1)%Z && negb shouldHide then
    let toCenter := sub particlePosition (sphereCenterOf u) in
    let distToCenter := length toCenter in
    if Rlt_dec (sphereRadius u) distToCenter then
      let towardCenter := negate (normalize toCenter) in
      let excessDistance := distToCenter - sphereRadius u in
      let containmentStrength := excessDistance * 0.3 in
      add particleVelocity (scale (dtR u) (scale containmentStrength towardCenter))
    else particleVelocity
  else particleVelocity.

(** Lines 1515-1516. *)
Definition boxMin : vec3R := mkVec3R 2 2 2.

Definition boxMax (u : SphereUniforms) : vec3R :=
  mkVec3R (IZR (isub (ix (gridSizeR u)) 2)) (IZR (isub (iy (gridSizeR u)) 2))
          (IZR (isub (iz (gridSizeR u)) 2)).

Definition integrate (u : SphereUniforms) (particlePosition particleVelocity : vec3R)
  : vec3R :=
  clampV (add particlePosition (scale (dtR u) particleVelocity)) boxMin (boxMax u).

(** A point of the box to which positions are clamped. *)
Definition inBox (u : SphereUniforms) (a : vec3R) : Prop :=
  (rx boxMin <= rx a <= rx (boxMax u)) /\
  (ry boxMin <= ry a <= ry (boxMax u)) /\
  (rz boxMin <= rz a <= rz (boxMax u)).

(** The position written back by one invocation of [g2p].  The velocity
    starts from zero (line 438); [others] stands for the sum of every other
    contribution the kernel adds to it before the position is integrated
    (centre gravity, noise, the velocity interpolated from the grid, the
    pointer force). *)
Definition g2pPosition (u : SphereUniforms) (shouldHide : bool) (others : vec3R)
  (particlePosition : vec3R) : vec3R :=
  let particleVelocity := sphereContainment u shouldHide particlePosition zero in
  integrate u particlePosition (add particleVelocity others).

(** The positions of a particle over successive steps, [others n] being
    what the rest of the kernel contributes to its velocity in step [n]. *)
Fixpoint trajectory (u : SphereUniforms) (others : nat -> vec3R) (n : nat) (p : vec3R)
  : vec3R :=
  match n with
  | O => p
  | S n' => g2pPosition u false (others n') (trajectory u others n' p)
  end.

(** No competing force: in every step the rest of the velocity is zero or
    points from the particle to the sphere centre (the particle's own inward
    momentum coming back from the grid), and does not carry the particle
    past the centre within the step. *)
Definition noCompetingForce (u : SphereUniforms) (others : nat -> vec3R) (p0 : vec3R)
  : Prop :=
  forall n, exists k,
    0 <= k /\ 0.3 * (dtR u * dtR u) + dtR u * k <= 1 /\
    others n = scale (- k) (sub (trajectory u others n p0) (sphereCenterOf u)).

(** The containment sphere of the simulator (lines 233-238), with
    [dt = 1/60 * 6 * 1]. *)
Definition simulatorSphere : SphereUniforms :=
  mkSphereUniforms simulatorGrid (updateDt (1 / 60) 1 0) 1 25 64 32 32.

End Sphere.
(** * Further parts of the simulator

    The definitions below embed code that the theorems of the second half of
    the development are about: the list of atomic additions of a whole
    Scatter-1 pass, the gather loop and the write-back of [g2p], the
    point-in-polygon test, the mode switch of [toggleGridMode], the image
    grid of [loadImageAndSetupGrid] and the derived parameters of
    [conf.js]. *)

From Stdlib Require Import Permutation.

(** ** Scatter-1 as one list of atomic additions

    The contributions of the invocations [instanceIndex, instanceIndex + n)
    of [p2g1], in invocation order and, within an invocation, in loop
    order. *)
Fixpoint contributionsFrom (u : Uniforms) (pb : Z -> Particle) (n : nat)
  (instanceIndex : Z) : list Contribution :=
  match n with
  | O => []
  | S n' =>
      (if (instanceIndex >=? numParticles u)%Z then []
       else p2g1Contributions u (pb instanceIndex))
      ++ contributionsFrom u pb n' (instanceIndex + 1)
  end.

Definition allContributions (u : Uniforms) (pb : Z -> Particle) : list Contribution :=
  contributionsFrom u pb (Z.to_nat (dispatchSize (numParticles u))) 0.

(** Componentwise equality of vectors and matrices of rationals. *)
Definition veq (a b : vec3) : Prop := vx a == vx b /\ vy a == vy b /\ vz a == vz b.
Definition meq (a b : mat3) : Prop :=
  veq (col0 a) (col0 b) /\ veq (col1 a) (col1 b) /\ veq (col2 a) (col2 b).

(** The sum of a list of vectors. *)
Definition Vsum (l : list vec3) : vec3 := fold_right Vec.add (Vec.splat 0) l.

(** A particle that differs from another in its density only. *)
Definition sameButDensity (p p' : Particle) : Prop :=
  position p' = position p /\ velocity p' = velocity p /\ mass p' = mass p /\
  C p' = C p /\ direction p' = direction p /\ color p' = color p.

(** ** Gather kernel [g2p]: the velocity and the affine matrix gathered
       from the grid (lines 1322-1352 and 1362) *)

Definition xyz (v : vec4) : vec3 := mkVec3 (v4x v) (v4y v) (v4z v).

(** One iteration of the innermost loop: [B] and [particleVelocity] after
    it. *)
Definition gatherStep (u : Uniforms) (cbF : Z -> vec4) (particlePosition : vec3)
  (acc : mat3 * vec3) (g : ivec3) : mat3 * vec3 :=
  let weight := weightOf particlePosition g in
  let cellX := cellXOf particlePosition g in
  let cellDist := cellDistOf particlePosition g in
  let weightedVelocity := Vec.scale weight (xyz (cbF (getCellPtr u cellX))) in
  let term := mkMat3 (Vec.scale (vx cellDist) weightedVelocity)
                     (Vec.scale (vy cellDist) weightedVelocity)
                     (Vec.scale (vz cellDist) weightedVelocity) in
  (Vec.madd (fst acc) term, Vec.add (snd acc) weightedVelocity).

(** The loops run when the particle is neither in grid mode nor hidden;
    [B] starts from zero, the velocity from what the force blocks before the
    loop have left in it. *)
Definition gatherGrid (u : Uniforms) (gridMode : Z) (shouldHide : bool) (cbF : Z -> vec4)
  (particlePosition particleVelocity : vec3) : mat3 * vec3 :=
  if (gridMode =? 0)%Z && negb shouldHide
  then fold_left (gatherStep u cbF particlePosition) stencil (Vec.mzero, particleVelocity)
  else (Vec.mzero, particleVelocity).

(** The matrix stored in the particle's [C] (line 1362). *)
Definition affineC (B : mat3) : mat3 := Vec.mscale 4 B.

(** ** Gather kernel [g2p]: position integration, wall spring and write-back
       (lines 1362 and 1515-1533), over the rationals *)

Definition clampVec (a lo hi : vec3) : vec3 :=
  mkVec3 (Tsl.clamp (vx a) (vx lo) (vx hi)) (Tsl.clamp (vy a) (vy lo) (vy hi))
         (Tsl.clamp (vz a) (vz lo) (vz hi)).

(** [gridSize.sub(2)] is an integer subtraction, converted for the clamp. *)
Definition boxMaxOf (u : Uniforms) : vec3 :=
  Vec.of_ivec3 (mkIvec3 (isub (ix (gridSize u)) 2) (isub (iy (gridSize u)) 2)
                        (isub (iz (gridSize u)) 2)).

(** Lines 1515-1516. *)
Definition integratePosition (u : Uniforms) (particlePosition particleVelocity : vec3)
  : vec3 :=
  clampVec (Vec.add particlePosition (Vec.scale (dt u) particleVelocity))
           (Vec.splat 2) (boxMaxOf u).

(** Lines 1518-1527. *)
Definition wallStiffness : Q := 0.3.
Definition wallMin : vec3 := Vec.splat 3.
Definition wallMax (u : Uniforms) : vec3 := Vec.sub (Vec.of_ivec3 (gridSize u)) (Vec.splat 3).

(** [xN]: where the particle would be three steps ahead. *)
Definition lookAhead (u : Uniforms) (particlePosition particleVelocity : vec3) : vec3 :=
  Vec.add particlePosition (Vec.scale 3 (Vec.scale (dt u) particleVelocity)).

(** The two [If]s of one axis, in their order. *)
Definition wallAxis (xN lo hi v : Q) : Q :=
  let v1 := if Qltb xN lo then v + (lo - xN) * wallStiffness else v in
  if Qltb hi xN then v1 + (hi - xN) * wallStiffness else v1.

Definition wallSpring (u : Uniforms) (particlePosition particleVelocity : vec3) : vec3 :=
  let xN := lookAhead u particlePosition particleVelocity in
  mkVec3 (wallAxis (vx xN) (vx wallMin) (vx (wallMax u)) (vx particleVelocity))
         (wallAxis (vy xN) (vy wallMin) (vy (wallMax u)) (vy particleVelocity))
         (wallAxis (vz xN) (vz wallMin) (vz (wallMax u)) (vz particleVelocity)).

(** What an invocation writes back to its particle: [C] from the gathered
    matrix [B], the integrated and clamped position, the velocity after the
    wall spring, and the smoothed direction. *)
Definition writeBack (u : Uniforms) (p : Particle) (B : mat3) (particleVelocity : vec3)
  : Particle :=
  let position' := integratePosition u (position p) particleVelocity in
  let velocity' := wallSpring u position' particleVelocity in
  mkParticle position' (density p) velocity' (mass p) (affineC B)
    (mkVec3 (Tsl.mix (vx (direction p)) (vx velocity') 0.1)
            (Tsl.mix (vy (direction p)) (vy velocity') 0.1)
            (Tsl.mix (vz (direction p)) (vz velocity') 0.1))
    (color p).

(** How far a coordinate lies beyond the walls [lo <= hi] of its axis. *)
Definition penetration (lo hi x : Q) : Q := Qmax 0 (Qmax (lo - x) (x - hi)).

(** ** The time step of [update] (lines 2524-2528), over the rationals *)

Definition stepDt (interval speed : Q) (frontGravityMode : Z) : Q :=
  let interval' := Qmin interval (1 / 60) in
  let effectiveSpeed := if (frontGravityMode =? 1)%Z then 4 else speed in
  interval' * 6 * effectiveSpeed.

(** ** Derived parameters of [conf.js]: [updateParams] (lines 41-46) *)

Module Conf.

Definition level (particles : Q) : Q := Qmax (particles / 8192) 1.

Definition restDensity (particles density : Q) : Q := 0.25 * level particles * density.

End Conf.

(** ** Mode selection: the uniforms set by [toggleGridMode] (lines 1776-1813) *)

Module Mode.

(** The mode uniforms; each holds 0 or 1. *)
Record Flags : Type := mkFlags {
  gridMode : Z;
  frontGravityMode : Z;
  cylinderMode : Z;
  sphereContainmentMode : Z;
  polygonContainmentMode : Z;
  colorSpheresMode : Z;
  populationSegmentPinkMode : Z;
  populationSegmentPurpleMode : Z;
  populationSegmentCyanMode : Z;
  populationSegmentTealMode : Z;
  populationSegmentDarkBlueMode : Z;
  populationSegmentDarkPurpleMode : Z;
  populationSegmentDarkRedMode : Z;
  populationSegmentOrangeMode : Z;
  populationSegmentLightGreenMode : Z;
  twoColorSphereMode : Z
}.

(** [enabled ? 1 : 0]. *)
Definition flag (enabled : bool) : Z := if enabled then 1%Z else 0%Z.

(** [mode] is a JavaScript number; [===] compares its value. *)
Definition toggleGridMode (mode : Q) : Flags :=
  let enabled := (Qltb 0 mode && Qltb mode 3) || Qeq_bool mode 7 in
  let frontGravityEnabled := Qeq_bool mode 3 || Qeq_bool mode 4 in
  let cylinderEnabled := Qeq_bool mode 4 in
  let sphereContainmentEnabled := Qeq_bool mode 5 in
  let polygonContainmentEnabled := Qeq_bool mode 8 in
  let colorSpheresEnabled := Qeq_bool mode 6 in
  let populationSegmentPinkEnabled := Qeq_bool mode 9 in
  let populationSegmentPurpleEnabled := Qeq_bool mode 10 in
  let populationSegmentCyanEnabled := Qeq_bool mode 11 in
  let populationSegmentTealEnabled := Qeq_bool mode 12 in
  let populationSegmentDarkBlueEnabled := Qeq_bool mode 13 in
  let populationSegmentDarkPurpleEnabled := Qeq_bool mode 14 in
  let populationSegmentDarkRedEnabled := Qeq_bool mode 15 in
  let populationSegmentOrangeEnabled := Qeq_bool mode 16 in
  let populationSegmentLightGreenEnabled := Qeq_bool mode 17 in
  let twoColorSphereEnabled := Qeq_bool mode 18 in
  mkFlags (flag enabled) (flag frontGravityEnabled) (flag cylinderEnabled)
    (flag sphereContainmentEnabled) (flag polygonContainmentEnabled)
    (flag colorSpheresEnabled) (flag populationSegmentPinkEnabled)
    (flag populationSegmentPurpleEnabled) (flag populationSegmentCyanEnabled)
    (flag populationSegmentTealEnabled) (flag populationSegmentDarkBlueEnabled)
    (flag populationSegmentDarkPurpleEnabled) (flag populationSegmentDarkRedEnabled)
    (flag populationSegmentOrangeEnabled) (flag populationSegmentLightGreenEnabled)
    (flag twoColorSphereEnabled).

(** The mode uniforms that select a force field of [g2p] on their own;
    [cylinderMode] only adds to front gravity. *)
Definition primary (f : Flags) : list Z :=
  [gridMode f; frontGravityMode f; sphereContainmentMode f; polygonContainmentMode f;
   colorSpheresMode f; populationSegmentPinkMode f; populationSegmentPurpleMode f;
   populationSegmentCyanMode f; populationSegmentTealMode f;
   populationSegmentDarkBlueMode f; populationSegmentDarkPurpleMode f;
   populationSegmentDarkRedMode f; populationSegmentOrangeMode f;
   populationSegmentLightGreenMode f; twoColorSphereMode f].

End Mode.

(** ** The image grid of [loadImageAndSetupGrid] (lines 1565-1632) *)

Module ImageGrid.

(** [Math.floor(Math.sqrt(q))] for [q >= 0]: the integer square root of the
    integer part of [q]. *)
Definition floorSqrt (q : Q) : Z := Z.sqrt (Qfloor q).

Definition aspectRatio (imgWidth imgHeight : Z) : Q :=
  inject_Z imgWidth / inject_Z imgHeight.

(** The test [gridWidth / gridHeight < aspectRatio].  A division by zero
    gives an infinity or NaN, of which only -Infinity is below the ratio. *)
Definition widthLags (gridWidth gridHeight : Z) (aspectRatio : Q) : bool :=
  if (gridHeight =? 0)%Z then (gridWidth <? 0)%Z
  else Qltb (inject_Z gridWidth / inject_Z gridHeight) aspectRatio.

(** The [while] loop of lines 1574-1581; [fuel] bounds its iterations. *)
Fixpoint grow (fuel : nat) (numParticles : Z) (aspectRatio : Q) (gridWidth gridHeight : Z)
  : option (Z * Z) :=
  if (gridWidth * gridHeight <? numParticles)%Z then
    match fuel with
    | O => None
    | S fuel' =>
        if widthLags gridWidth gridHeight aspectRatio
        then grow fuel' numParticles aspectRatio (gridWidth + 1) gridHeight
        else grow fuel' numParticles aspectRatio gridWidth (gridHeight + 1)
    end
  else Some (gridWidth, gridHeight).

(** Lines 1566-1581: [(gridWidth, gridHeight)]. *)
Definition initialHeight (numParticles imgWidth imgHeight : Z) : Z :=
  floorSqrt (inject_Z numParticles / aspectRatio imgWidth imgHeight).

Definition initialWidth (numParticles imgWidth imgHeight : Z) : Z :=
  Qfloor (inject_Z (initialHeight numParticles imgWidth imgHeight)
          * aspectRatio imgWidth imgHeight).

Definition gridDimensions (fuel : nat) (numParticles imgWidth imgHeight : Z)
  : option (Z * Z) :=
  grow fuel numParticles (aspectRatio imgWidth imgHeight)
       (initialWidth numParticles imgWidth imgHeight)
       (initialHeight numParticles imgWidth imgHeight).

(** Lines 1592-1603. *)
Definition availableWidth : Q := 120.
Definition availableHeight : Q := 60.

Definition equalSpacing (gridWidth gridHeight : Z) : Q :=
  Qmin (availableWidth / inject_Z gridWidth) (availableHeight / inject_Z gridHeight).

Definition gridStartX (gridWidth gridHeight : Z) : Q :=
  (128 - inject_Z gridWidth * equalSpacing gridWidth gridHeight) / 2.

Definition gridStartY (gridWidth gridHeight : Z) : Q :=
  (64 - inject_Z gridHeight * equalSpacing gridWidth gridHeight) / 2.

Definition zPos : Q := 32.

(** The body of the loop over the particles (lines 1606-1627), for a grid
    at least one column wide. *)
Definition gridXOf (gridWidth i : Z) : Z := Z.rem i gridWidth.

Definition gridYOf (gridWidth i : Z) : Z := Qfloor (inject_Z i / inject_Z gridWidth).

Definition targetAt (gridWidth gridHeight i : Z) : vec3 :=
  mkVec3 (gridStartX gridWidth gridHeight
          + inject_Z (gridXOf gridWidth i) * equalSpacing gridWidth gridHeight)
         (gridStartY gridWidth gridHeight
          + inject_Z (gridYOf gridWidth i) * equalSpacing gridWidth gridHeight)
         zPos.

(** [None] where the loop [continue]s past a particle. *)
Definition targetOf (gridWidth gridHeight i : Z) : option vec3 :=
  if (gridYOf gridWidth i >=? gridHeight)%Z then None
  else Some (targetAt gridWidth gridHeight i).

Definition normalized (gridCoord gridCount : Z) : Q :=
  if (gridCount >? 1)%Z then inject_Z gridCoord / inject_Z (gridCount - 1) else 0.

Definition imgCoord (gridCoord gridCount imgSize : Z) : Z :=
  Qfloor ((1 - normalized gridCoord gridCount) * inject_Z (imgSize - 1)).

Definition pixelIndexOf (gridWidth gridHeight imgWidth imgHeight i : Z) : Z :=
  ((imgCoord (gridYOf gridWidth i) gridHeight imgHeight * imgWidth
    + imgCoord (gridXOf gridWidth i) gridWidth imgWidth) * 4)%Z.

(** [gridTargetPositions] after the loop. *)
Definition gridTargetPositions (numParticles gridWidth gridHeight : Z) : list vec3 :=
  flat_map (fun i => match targetOf gridWidth gridHeight i with
                     | Some t => [t]
                     | None => []
                     end)
           (activeParticles numParticles).

(** How many iterations the loop can still take from a state in which it
    goes on. *)
Definition potential (numParticles gridWidth gridHeight : Z) : Z :=
  if (gridHeight =? 0)%Z then numParticles + 1
  else if (gridWidth =? 0)%Z then numParticles
  else numParticles + 1 - (gridWidth + gridHeight).

End ImageGrid.

(** ** Gather kernel [g2p]: the point-in-polygon test of the polygon
       containment (lines 553-623) *)

Module Polygon.

Record vec2 : Type := mkVec2 { px : Q; py : Q }.

(** The chain of [select]s that reads [polygonVertices[i]]: an index that
    is none of 0 .. 14 reads element 15. *)
Definition vertexAt (polygonVertices : Z -> vec2) (i : Z) : vec2 :=
  if (0 <=? i)%Z && (i <=? 14)%Z then polygonVertices i else polygonVertices 15%Z.

(** [j], the next vertex, wrapping around. *)
Definition nextIndex (vertexCount i : Z) : Z :=
  if (i =? isub vertexCount 1)%Z then 0%Z else iadd i 1.

(** [above0] and [above1]: whether a vertex is above the ray. *)
Definition above (polygonVertices : Z -> vec2) (p : vec2) (i : Z) : bool :=
  Qltb (py p) (py (vertexAt polygonVertices i)).

(** One iteration of the loop over the edges: [inside] after it.  The
    kernel does not test the divisor of [t]. *)
Definition crossingStep (polygonVertices : Z -> vec2) (vertexCount : Z) (p : vec2)
  (inside i : Z) : option Z :=
  let j := nextIndex vertexCount i in
  let v0 := vertexAt polygonVertices i in
  let v1 := vertexAt polygonVertices j in
  let crosses := xorb (above polygonVertices p i) (above polygonVertices p j) in
  if crosses then
    match Tsl.fdiv (py p - py v0) (py v1 - py v0) with
    | Some t =>
        let xIntersect := px v0 + (px v1 - px v0) * t in
        Some (if Qltb (px p) xIntersect then Z.rem (iadd inside 1) 2 else inside)
    | None => None
    end
  else Some inside.

(** The iterations [i, i + n) of the loop. *)
Fixpoint crossingLoop (polygonVertices : Z -> vec2) (vertexCount : Z) (p : vec2)
  (n : nat) (i inside : Z) : option Z :=
  match n with
  | O => Some inside
  | S n' =>
      match crossingStep polygonVertices vertexCount p inside i with
      | Some inside' => crossingLoop polygonVertices vertexCount p n' (i + 1) inside'
      | None => None
      end
  end.

(** [inside] after the loop: 0 = outside, 1 = inside. *)
Definition insideTest (polygonVertices : Z -> vec2) (vertexCount : Z) (p : vec2)
  : option Z :=
  crossingLoop polygonVertices vertexCount p (Z.to_nat vertexCount) 0 0.

(** 1 for [true], 0 for [false]. *)
Definition bit (b : bool) : Z := if b then 1%Z else 0%Z.

End Polygon.

(** The vertex uniforms holding an axis-parallel rectangle: its corners in
    slots 0 to 3 (the other slots are not read for a vertex count of 4). *)
Definition rectangleVertices (x0 y0 x1 y1 : Q) (i : Z) : Polygon.vec2 :=
  if (i =? 0)%Z then Polygon.mkVec2 x0 y0
  else if (i =? 1)%Z then Polygon.mkVec2 x1 y0
  else if (i =? 2)%Z then Polygon.mkVec2 x1 y1
  else Polygon.mkVec2 x0 y1.

(** The values of the counter of a loop from 0 up to, not including, [stop]. *)
Definition loopRange (stop : Z) : list Z := List.map Z.of_nat (seq 0 (Z.to_nat stop)).

(** ** Gather kernel [g2p]: the searches for a nearest element, over the
       reals

    The push toward the nearest polygon edge (lines 626-695) and the choice
    of the colour sphere of a particle (lines 699-739). *)

Module Nearest.

Import Sphere.
Local Open Scope R_scope.

Record vec2R : Type := mkVec2R { qx : R; qy : R }.

Definition add2 (a b : vec2R) : vec2R := mkVec2R (qx a + qx b) (qy a + qy b).
Definition sub2 (a b : vec2R) : vec2R := mkVec2R (qx a - qx b) (qy a - qy b).
Definition scale2 (s : R) (a : vec2R) : vec2R := mkVec2R (s * qx a) (s * qy a).
Definition dot2 (a b : vec2R) : R := qx a * qx b + qy a * qy b.
Definition length2 (a : vec2R) : R := sqrt (qx a * qx a + qy a * qy a).

(** The chain of [select]s over the 16 vertex uniforms. *)
Definition vertexAt (polygonVertices : Z -> vec2R) (i : Z) : vec2R :=
  if (0 <=? i)%Z && (i <=? 14)%Z then polygonVertices i else polygonVertices 15%Z.

(** Lines 674-681: the point of the edge from [v0] to [v1] closest to [p];
    [edge.length().pow(2)] is the square of a length. *)
Definition closestOnEdge (v0 v1 p : vec2R) : vec2R :=
  let edge := sub2 v1 v0 in
  let toP := sub2 p v0 in
  let edgeLenSq := length2 edge * length2 edge in
  let t := if Rlt_dec edgeLenSq 0.0001 then 0
           else clampR (dot2 toP edge / edgeLenSq) 0 1 in
  add2 v0 (scale2 t edge).

(** One iteration of the loop over the edges: [(minDist, nearestPoint)]
    after it. *)
Definition nearestStep (polygonVertices : Z -> vec2R) (vertexCount : Z) (p : vec2R)
  (acc : R * vec2R) (i : Z) : R * vec2R :=
  let j := Polygon.nextIndex vertexCount i in
  let closest := closestOnEdge (vertexAt polygonVertices i) (vertexAt polygonVertices j) p in
  let dist := length2 (sub2 p closest) in
  if Rlt_dec dist (fst acc) then (dist, closest) else acc.

Definition nearestOnPolygon (polygonVertices : Z -> vec2R) (vertexCount : Z) (p : vec2R)
  : R * vec2R :=
  fold_left (nearestStep polygonVertices vertexCount p) (loopRange vertexCount)
            (9999, mkVec2R 0 0).

(** A point of the edge that leaves vertex [i]. *)
Definition edgePoint (polygonVertices : Z -> vec2R) (vertexCount i : Z) (s : R) : vec2R :=
  add2 (vertexAt polygonVertices i)
       (scale2 s (sub2 (vertexAt polygonVertices (Polygon.nextIndex vertexCount i))
                       (vertexAt polygonVertices i))).

(** Lines 703-739: the chain of [select]s over the first ten palette or
    sphere uniforms. *)
Definition selectTen (uniforms : Z -> vec3R) (i : Z) : vec3R :=
  if (0 <=? i)%Z && (i <=? 8)%Z then uniforms i else uniforms 9%Z.

(** One iteration of the loop over the ten unique colours:
    [(minDist, closestColorIndex)] after it. *)
Definition closestStep (paletteColors : Z -> vec3R) (particleColor : vec3R)
  (acc : R * Z) (i : Z) : R * Z :=
  let paletteColor := selectTen paletteColors i in
  let colorDiff := sub particleColor paletteColor in
  let dist := length colorDiff in
  if Rlt_dec dist (fst acc) then (dist, i) else acc.

Definition closestColorIndex (paletteColors : Z -> vec3R) (particleColor : vec3R) : Z :=
  snd (fold_left (closestStep paletteColors particleColor) (loopRange 10) (999, 0%Z)).

(** Ten palette uniforms that differ in their red component. *)
Definition rampPalette (i : Z) : vec3R := mkVec3R (IZR i) 0 0.

(** A triangle in the first three vertex uniforms. *)
Definition exampleTriangle (i : Z) : vec2R :=
  if (i =? 0)%Z then mkVec2R 0 0
  else if (i =? 1)%Z then mkVec2R 10 0
  else mkVec2R 0 10.

Definition targetSphere (colorSpherePositions paletteColors : Z -> vec3R)
  (particleColor : vec3R) : vec3R :=
  selectTen colorSpherePositions (closestColorIndex paletteColors particleColor).

End Nearest.

(** ** Recolouring on the host: [findMostSimilarPaletteColor]
       (lines 2196-2214), over the reals *)

Module Recolor.

Import Sphere.
Local Open Scope R_scope.

Definition distance (targetColor paletteColor : vec3R) : R :=
  let dr := rx targetColor - rx paletteColor in
  let dg := ry targetColor - ry paletteColor in
  let db := rz targetColor - rz paletteColor in
  sqrt (dr * dr + dg * dg + db * db).

(** [distance < minDistance], [None] standing for [Infinity]. *)
Definition below (distance : R) (minDistance : option R) : bool :=
  match minDistance with
  | None => true
  | Some m => if Rlt_dec distance m then true else false
  end.

(** The [for ... of] loop: [mostSimilar] after it. *)
Fixpoint findLoop (targetColor : vec3R) (paletteRGB : list vec3R)
  (minDistance : option R) (mostSimilar : vec3R) : vec3R :=
  match paletteRGB with
  | [] => mostSimilar
  | paletteColor :: rest =>
      let distance := distance targetColor paletteColor in
      if below distance minDistance
      then findLoop targetColor rest (Some distance) paletteColor
      else findLoop targetColor rest minDistance mostSimilar
  end.

(** [paletteRGB[0]] is [undefined] for an empty palette. *)
Definition findMostSimilarPaletteColor (paletteRGB : list vec3R) (targetColor : vec3R)
  : option vec3R :=
  match paletteRGB with
  | [] => None
  | first :: _ => Some (findLoop targetColor paletteRGB None first)
  end.

End Recolor.

(** ** The initial particles ([init], lines 114-128) *)

Module Init.

(** The position computed from three draws [r] of [Math.random()]: the
    point [r * 2 - 1] of the cube [[-1, 1)], scaled by 0.8, moved to
    [[0.1, 0.9)] and multiplied by the grid size.  The loop draws again until
    the point lies in the unit ball. *)
Definition axisPosition (r gridSize : Q) : Q := ((r * 2 - 1) * 0.8 + 1) / 2 * gridSize.

Definition initialPosition (u : Uniforms) (r : vec3) : vec3 :=
  mkVec3 (axisPosition (vx r) (Tsl.float (ix (gridSize u))))
         (axisPosition (vy r) (Tsl.float (iy (gridSize u))))
         (axisPosition (vz r) (Tsl.float (iz (gridSize u)))).

Definition initialMass (r : Q) : Q := 1 - r * 0.002.

End Init.

(** The particle after [n] steps: in step [k] the gather kernel writes it
    back with the matrix [B k] and the velocity [vel k] it has accumulated
    (the grid passes in between change its density only). *)
Fixpoint particleAfter (u : Uniforms) (B : nat -> mat3) (vel : nat -> vec3) (n : nat)
  (p : Particle) : Particle :=
  match n with
  | O => p
  | S n' => writeBack u (particleAfter u B vel n' p) (B n') (vel n')
  end.

(** ** Gather kernel [g2p]: the target of a particle in grid mode
       (lines 446-462), before the noise is added *)

Module GridMode.

Record GridUniforms : Type := mkGridUniforms {
  gridWidth : Z;
  gridStartX : Q;
  gridStartY : Q;
  gridSpacingX : Q;
  gridSpacingY : Q;
  gridZ : Q;
  gridRandomOffset : Q
}.

(** [int(...)] of an unsigned value keeps its 32 bits. *)
Definition gridXOf (g : GridUniforms) (instanceIndex : Z) : Z :=
  Z.rem (Tsl.wrap32 instanceIndex) (Tsl.wrap32 (gridWidth g)).

Definition gridYOf (g : GridUniforms) (instanceIndex : Z) : Z :=
  Z.quot (Tsl.wrap32 instanceIndex) (Tsl.wrap32 (gridWidth g)).

Definition hash (g : GridUniforms) (instanceIndex : Z) : Q :=
  Tsl.float instanceIndex * 12.9898 + Tsl.float (gridXOf g instanceIndex) * 78.233
  + Tsl.float (gridYOf g instanceIndex) * 37.719.

Definition randomX (g : GridUniforms) (instanceIndex : Z) : Q :=
  Tsl.fract (hash g instanceIndex) * 2 - 1.

Definition randomY (g : GridUniforms) (instanceIndex : Z) : Q :=
  Tsl.fract (hash g instanceIndex * 43758.5453) * 2 - 1.

Definition offsetX (g : GridUniforms) (instanceIndex : Z) : Q :=
  randomX g instanceIndex * gridSpacingX g * gridRandomOffset g.

Definition offsetY (g : GridUniforms) (instanceIndex : Z) : Q :=
  randomY g instanceIndex * gridSpacingY g * gridRandomOffset g.

Definition targetX (g : GridUniforms) (instanceIndex : Z) : Q :=
  gridStartX g + Tsl.float (gridXOf g instanceIndex) * gridSpacingX g + offsetX g instanceIndex.

Definition targetY (g : GridUniforms) (instanceIndex : Z) : Q :=
  gridStartY g + Tsl.float (gridYOf g instanceIndex) * gridSpacingY g + offsetY g instanceIndex.

Definition targetPos (g : GridUniforms) (instanceIndex : Z) : vec3 :=
  mkVec3 (targetX g instanceIndex) (targetY g instanceIndex) (gridZ g).

(** The uniforms as [loadImageAndSetupGrid] sets them (lines 1637-1642),
    [gridZ] and [gridRandomOffset] being set at their declaration. *)
Definition uniformsOf (gridWidth gridHeight : Z) (gridRandomOffset : Q) : GridUniforms :=
  mkGridUniforms gridWidth
    (ImageGrid.gridStartX gridWidth gridHeight) (ImageGrid.gridStartY gridWidth gridHeight)
    (ImageGrid.equalSpacing gridWidth gridHeight) (ImageGrid.equalSpacing gridWidth gridHeight)
    32 gridRandomOffset.

End GridMode.

(** * Theorems *)

(** ** Fixed-point codec *)

Lemma Qtrunc_nonneg (q : Q) : 0 <= q ->
  inject_Z (Tsl.Qtrunc q) <= q /\ q < inject_Z (Tsl.Qtrunc q) + 1.
Proof.
  destruct q as [n d]. unfold Tsl.Qtrunc, Qle, Qlt; simpl. intros H.
  assert (Hn : (0 <= n)%Z) by lia.
  pose proof (Z.quot_rem' n (Zpos d)) as E.
  pose proof (Z.rem_bound_pos n (Zpos d) Hn ltac:(lia)) as B.
  split; nia.
Qed.

Lemma Qtrunc_nonpos (q : Q) : q <= 0 ->
  inject_Z (Tsl.Qtrunc q) - 1 < q /\ q <= inject_Z (Tsl.Qtrunc q).
Proof.
  destruct q as [n d]. unfold Tsl.Qtrunc, Qle, Qlt; simpl. intros H.
  assert (Hn : (n <= 0)%Z) by lia.
  pose proof (Z.quot_rem' n (Zpos d)) as E.
  pose proof (Z.rem_bound_pos_neg n (Zpos d) ltac:(lia) Hn) as B.
  split; nia.
Qed.

Lemma Qtrunc_sign_nonneg (q : Q) : 0 <= q -> (0 <= Tsl.Qtrunc q)%Z.
Proof.
  destruct q as [n d]. unfold Tsl.Qtrunc, Qle; simpl. intros H.
  apply Z.quot_pos; lia.
Qed.

Lemma Qtrunc_sign_nonpos (q : Q) : q <= 0 -> (Tsl.Qtrunc q <= 0)%Z.
Proof.
  intros H. destruct (Qtrunc_nonpos q H) as [H2 _].
  destruct (Z_le_gt_dec (Tsl.Qtrunc q) 0) as [L | G]; [exact L | exfalso].
  assert (H1 : inject_Z 1 <= inject_Z (Tsl.Qtrunc q)) by (rewrite <- Zle_Qle; lia).
  change (inject_Z 1) with 1 in H1. lra.
Qed.

(** Within the i32 range [int] is plain truncation. *)
Lemma int_in_range (x : Q) :
  inject_Z Tsl.INT32_MIN <= x -> x <= inject_Z Tsl.INT32_MAX ->
  Tsl.int x = Tsl.Qtrunc x.
Proof.
  intros Hlo Hhi. unfold Tsl.int.
  destruct (Qlt_le_dec x 0) as [Hneg | Hpos].
  - pose proof (Qtrunc_nonpos x (Qlt_le_weak _ _ Hneg)) as [H1 H2].
    pose proof (Qtrunc_sign_nonpos x (Qlt_le_weak _ _ Hneg)) as Hs.
    assert (Hm : (Tsl.INT32_MIN <= Tsl.Qtrunc x)%Z).
    { rewrite Zle_Qle. lra. }
    unfold Tsl.INT32_MAX, Tsl.INT32_MIN in *. lia.
  - pose proof (Qtrunc_nonneg x Hpos) as [H1 H2].
    pose proof (Qtrunc_sign_nonneg x Hpos) as Hs.
    assert (Hm : (Tsl.Qtrunc x <= Tsl.INT32_MAX)%Z).
    { rewrite Zle_Qle. lra. }
    unfold Tsl.INT32_MAX, Tsl.INT32_MIN in *. lia.
Qed.

Lemma int_nonneg (x : Q) : 0 <= x -> (0 <= Tsl.int x)%Z.
Proof.
  intros H. pose proof (Qtrunc_sign_nonneg x H). unfold Tsl.int, Tsl.INT32_MAX, Tsl.INT32_MIN. lia.
Qed.

Lemma int_le_max (x : Q) : (Tsl.int x <= Tsl.INT32_MAX)%Z.
Proof. unfold Tsl.int, Tsl.INT32_MAX, Tsl.INT32_MIN. lia. Qed.

Lemma encodeFixedPoint_nonneg (f : Q) : 0 <= f -> (0 <= encodeFixedPoint f)%Z.
Proof.
  intros H. apply int_nonneg. apply Qmult_le_0_compat; [exact H | discriminate].
Qed.

(** The error of the encoder, measured in fixed-point units, is below one
    unit and never away from zero. *)
Lemma encode_error (f : Q) :
  inject_Z Tsl.INT32_MIN <= f * fixedPointMultiplier ->
  f * fixedPointMultiplier <= inject_Z Tsl.INT32_MAX ->
  Qabs (inject_Z (encodeFixedPoint f)) <= Qabs (f * fixedPointMultiplier) /\
  Qabs (f * fixedPointMultiplier - inject_Z (encodeFixedPoint f)) < 1.
Proof.
  intros Hlo Hhi. unfold encodeFixedPoint. rewrite (int_in_range _ Hlo Hhi).
  set (x := f * fixedPointMultiplier) in *.
  destruct (Qlt_le_dec x 0) as [Hneg | Hpos].
  - pose proof (Qtrunc_nonpos x (Qlt_le_weak _ _ Hneg)) as [H1 H2].
    pose proof (Qtrunc_sign_nonpos x (Qlt_le_weak _ _ Hneg)) as Hs.
    rewrite Zle_Qle in Hs. change (inject_Z 0) with 0 in Hs.
    split.
    + rewrite !Qabs_neg by lra. lra.
    + apply Qabs_Qlt_condition. split; lra.
  - pose proof (Qtrunc_nonneg x Hpos) as [H1 H2].
    pose proof (Qtrunc_sign_nonneg x Hpos) as Hs.
    rewrite Zle_Qle in Hs. change (inject_Z 0) with 0 in Hs.
    split.
    + rewrite !Qabs_pos by lra. lra.
    + apply Qabs_Qlt_condition. split; lra.
Qed.






(** ** Quadratic B-spline weights *)

Lemma fract_range (x : Q) : 0 <= Tsl.fract x /\ Tsl.fract x < 1.
Proof.
  unfold Tsl.fract. pose proof (Qfloor_le x) as H1. pose proof (Qlt_floor x) as H2.
  rewrite inject_Z_plus in H2. change (inject_Z 1) with 1 in H2. split; lra.
Qed.

Lemma cellDiff_range (particlePosition : vec3) :
  let d := cellDiffOf particlePosition in
  (-0.5 <= vx d /\ vx d < 0.5) /\ (-0.5 <= vy d /\ vy d < 0.5) /\
  (-0.5 <= vz d /\ vz d < 0.5).
Proof.
  destruct particlePosition as [x y z]; simpl.
  pose proof (fract_range x). pose proof (fract_range y). pose proof (fract_range z).
  repeat split; lra.
Qed.

Lemma weights_axis_sum (d : vec3) :
  vx (w0 d) + vx (w1 d) + vx (w2 d) == 1 /\
  vy (w0 d) + vy (w1 d) + vy (w2 d) == 1 /\
  vz (w0 d) + vz (w1 d) + vz (w2 d) == 1.
Proof. destruct d as [x y z]; simpl. repeat split; ring. Qed.

Lemma weights_nonneg (d : vec3) :
  -0.5 <= vx d <= 0.5 -> -0.5 <= vy d <= 0.5 -> -0.5 <= vz d <= 0.5 ->
  forall w, In w (weightsOf d) -> 0 <= vx w /\ 0 <= vy w /\ 0 <= vz w.
Proof.
  destruct d as [x y z]; simpl. intros Hx Hy Hz w [E | [E | [E | []]]]; subst w; simpl;
    repeat split; nra.
Qed.

Lemma stencil_length : length stencil = 27%nat.
Proof. reflexivity. Qed.

(** Every loop index of the stencil selects one of the three weights. *)
Lemma stencil_elements (g : ivec3) (weights : list vec3) :
  In g stencil -> length weights = 3%nat ->
  In (element weights (ix g)) weights /\ In (element weights (iy g)) weights /\
  In (element weights (iz g)) weights.
Proof.
  intros Hg Hl.
  destruct weights as [| a [| b [| c [| ? ?]]]]; try discriminate.
  unfold stencil in Hg. simpl in Hg.
  repeat (destruct Hg as [Hg | Hg]; [subst g; simpl; auto 6 |]).
  destruct Hg.
Qed.

Lemma weightOf_nonneg (particlePosition : vec3) (g : ivec3) :
  In g stencil -> 0 <= weightOf particlePosition g.
Proof.
  intros Hg. unfold weightOf, weightAt.
  destruct (cellDiff_range particlePosition) as [[Hx1 Hx2] [[Hy1 Hy2] [Hz1 Hz2]]].
  set (d := cellDiffOf particlePosition) in *.
  destruct (stencil_elements g (weightsOf d) Hg eq_refl) as [Ex [Ey Ez]].
  assert (Bx : -0.5 <= vx d <= 0.5) by (split; lra).
  assert (By : -0.5 <= vy d <= 0.5) by (split; lra).
  assert (Bz : -0.5 <= vz d <= 0.5) by (split; lra).
  destruct (weights_nonneg d Bx By Bz _ Ex) as [Px _].
  destruct (weights_nonneg d Bx By Bz _ Ey) as [_ [Py _]].
  destruct (weights_nonneg d Bx By Bz _ Ez) as [_ [_ Pz]].
  apply Qmult_le_0_compat; [apply Qmult_le_0_compat |]; assumption.
Qed.

(** The weight of the centre cell of the stencil is at least 1/8. *)
Lemma centre_weight_lower_bound (particlePosition : vec3) :
  0.125 <= weightOf particlePosition (mkIvec3 1 1 1).
Proof.
  destruct (cellDiff_range particlePosition) as [[Hx1 Hx2] [[Hy1 Hy2] [Hz1 Hz2]]].
  set (d := cellDiffOf particlePosition) in *.
  change (0.125 <= (0.75 - vx d * vx d) * (0.75 - vy d * vy d) * (0.75 - vz d * vz d)).
  assert (Ax : 0.5 <= 0.75 - vx d * vx d) by nra.
  assert (Ay : 0.5 <= 0.75 - vy d * vy d) by nra.
  assert (Az : 0.5 <= 0.75 - vz d * vz d) by nra.
  set (a := 0.75 - vx d * vx d) in *. set (b := 0.75 - vy d * vy d) in *.
  set (c := 0.75 - vz d * vz d) in *. clearbody a b c.
  assert (0.25 <= a * b) by nra. nra.
Qed.

Lemma weightOf_le_1 (particlePosition : vec3) (g : ivec3) :
  In g stencil -> weightOf particlePosition g <= 1.
Proof.
  intros Hg. unfold weightOf, weightAt.
  destruct (cellDiff_range particlePosition) as [[Hx1 Hx2] [[Hy1 Hy2] [Hz1 Hz2]]].
  set (d := cellDiffOf particlePosition) in *.
  assert (U : forall w, In w (weightsOf d) ->
            (0 <= vx w <= 1) /\ (0 <= vy w <= 1) /\ (0 <= vz w <= 1)).
  { destruct d as [x y z]; simpl in *.
    intros w [E | [E | [E | []]]]; subst w; simpl; repeat split; nra. }
  destruct (stencil_elements g (weightsOf d) Hg eq_refl) as [Ex [Ey Ez]].
  destruct (U _ Ex) as [[? ?] _]. destruct (U _ Ey) as [_ [[? ?] _]].
  destruct (U _ Ez) as [_ [_ [? ?]]].
  set (a := vx (element (weightsOf d) (ix g))) in *.
  set (b := vy (element (weightsOf d) (iy g))) in *.
  set (c := vz (element (weightsOf d) (iz g))) in *. clearbody a b c.
  assert (0 <= a * b <= 1) by nra. nra.
Qed.

(** The 27 tensor-product weights of a stencil sum to 1. *)
Lemma stencil_weights_sum (u : Uniforms) (p : Particle) :
  Qsum (List.map massContrib (p2g1Contributions u p)) == 1.
Proof.
  unfold p2g1Contributions. rewrite map_map. simpl.
  unfold weightOf, weightAt. simpl.
  set (d := cellDiffOf (position p)). destruct d as [x y z]; simpl. ring.
Qed.

(** C1.  For every particle, the per-axis quadratic B-spline weights of the
    Scatter-1 pass sum to 1 on each axis, and the 27 mass contributions
    scattered over the particle's 3x3x3 stencil sum to exactly 1. *)
Theorem p2g1_mass_conservation (u : Uniforms) (p : Particle) :
  let d := cellDiffOf (position p) in
  vx (w0 d) + vx (w1 d) + vx (w2 d) == 1 /\
  vy (w0 d) + vy (w1 d) + vy (w2 d) == 1 /\
  vz (w0 d) + vz (w1 d) + vz (w2 d) == 1 /\
  length (p2g1Contributions u p) = 27%nat /\
  Qsum (List.map massContrib (p2g1Contributions u p)) == 1.
Proof.
  intros d.
  destruct (weights_axis_sum d) as [Sx [Sy Sz]].
  split; [exact Sx | split; [exact Sy | split; [exact Sz | split; [reflexivity |]]]].
  apply stencil_weights_sum.
Qed.

(** ** 32-bit wrap-around *)

Lemma wrap32_range (z : Z) : (Tsl.INT32_MIN <= Tsl.wrap32 z <= Tsl.INT32_MAX)%Z.
Proof.
  unfold Tsl.wrap32, Tsl.INT32_MIN, Tsl.INT32_MAX.
  pose proof (Z.mod_pos_bound (z + 2 ^ 31) (2 ^ 32) ltac:(lia)). lia.
Qed.

Lemma wrap32_id (z : Z) : (Tsl.INT32_MIN <= z <= Tsl.INT32_MAX)%Z -> Tsl.wrap32 z = z.
Proof.
  unfold Tsl.wrap32, Tsl.INT32_MIN, Tsl.INT32_MAX. intros H.
  rewrite Z.mod_small by lia. lia.
Qed.

Lemma wrap32_idem (z : Z) : Tsl.wrap32 (Tsl.wrap32 z) = Tsl.wrap32 z.
Proof. apply wrap32_id, wrap32_range. Qed.

Lemma wrap32_add_l (a b : Z) : Tsl.wrap32 (Tsl.wrap32 a + b) = Tsl.wrap32 (a + b).
Proof.
  unfold Tsl.wrap32. f_equal.
  replace ((a + 2 ^ 31) mod 2 ^ 32 - 2 ^ 31 + b + 2 ^ 31)%Z
    with ((a + 2 ^ 31) mod 2 ^ 32 + b)%Z by lia.
  rewrite Zplus_mod_idemp_l. f_equal. lia.
Qed.

(** ** Dispatch *)

Lemma dispatchSize_ge (count : Z) : (0 <= count)%Z -> (count <= dispatchSize count)%Z.
Proof.
  intros H. unfold dispatchSize, workgroupSize.
  pose proof (Z_div_mod_eq_full (count + 64 - 1) 64).
  pose proof (Z.mod_pos_bound (count + 64 - 1) 64 ltac:(lia)). lia.
Qed.

Lemma dispatchSize_nonpos (count : Z) : (count <= 0)%Z -> (dispatchSize count <= 0)%Z.
Proof.
  intros H. unfold dispatchSize, workgroupSize.
  pose proof (Z_div_mod_eq_full (count + 64 - 1) 64).
  pose proof (Z.mod_pos_bound (count + 64 - 1) 64 ltac:(lia)). lia.
Qed.

Lemma State_ext (a b : State) :
  (forall j, cellBuffer a j = cellBuffer b j) ->
  (forall j, cellBufferF a j = cellBufferF b j) ->
  (forall j, particleBuffer a j = particleBuffer b j) ->
  a = b.
Proof.
  destruct a as [a1 a2 a3], b as [b1 b2 b3]; simpl. intros H1 H2 H3.
  f_equal; apply functional_extensionality; assumption.
Qed.

Lemma inSpan_S (start : Z) (n : nat) (j : Z) :
  inSpan start (S n) j = (j =? start)%Z || inSpan (start + 1) n j.
Proof.
  unfold inSpan.
  destruct (Z.eqb_spec j start); destruct (Z.leb_spec start j);
    destruct (Z.ltb_spec j (start + Z.of_nat (S n)));
    destruct (Z.leb_spec (start + 1) j);
    destruct (Z.ltb_spec j (start + 1 + Z.of_nat n)); simpl; try reflexivity; lia.
Qed.

Lemma inSpan_dispatch (count j : Z) :
  inSpan 0 (Z.to_nat (dispatchSize count)) j && (j <? count)%Z = inRange count j.
Proof.
  unfold inSpan, inRange.
  destruct (Z.leb_spec 0 j); destruct (Z.ltb_spec j count); simpl;
    try reflexivity; try (rewrite andb_false_r; reflexivity).
  rewrite andb_true_r.
  apply Z.ltb_lt. pose proof (dispatchSize_ge count ltac:(lia)). lia.
Qed.

(** *** ClearGrid *)

Lemma clearGrid_from (u : Uniforms) (n : nat) : forall (start : Z) (s : State),
  dispatch_from n start (clearGrid u) s =
  Some (mkState
          (fun j => if inSpan start n j && (j <? cellCount u)%Z then zeroCell
                    else cellBuffer s j)
          (fun j => if inSpan start n j && (j <? cellCount u)%Z then zeroVec4
                    else cellBufferF s j)
          (particleBuffer s)).
Proof.
  induction n as [| n IH]; intros start s.
  - simpl. f_equal. apply State_ext; intros j; simpl; try reflexivity;
      unfold inSpan; destruct (Z.leb_spec start j); destruct (Z.ltb_spec j (start + Z.of_nat 0));
      simpl; try reflexivity; lia.
  - cbn [dispatch_from]. unfold clearGrid at 1.
    destruct (Z.geb_spec start (cellCount u)) as [Hge | Hlt].
    + rewrite IH. f_equal. apply State_ext; intros j; simpl; try reflexivity;
        rewrite inSpan_S; destruct (Z.eqb_spec j start) as [-> | Hne]; simpl; try reflexivity;
        destruct (Z.ltb_spec start (cellCount u)); try lia;
        rewrite andb_false_r; reflexivity.
    + rewrite IH. f_equal. apply State_ext; intros j; simpl; try reflexivity;
        rewrite inSpan_S; unfold upd; destruct (Z.eqb_spec j start) as [-> | Hne]; simpl;
        try reflexivity;
        destruct (Z.ltb_spec start (cellCount u)); try lia;
        destruct (inSpan (start + 1) n start); reflexivity.
Qed.

Lemma clearGrid_dispatch (u : Uniforms) (s : State) :
  dispatch (cellCount u) (clearGrid u) s = Some (clearedState u s).
Proof.
  unfold dispatch. rewrite clearGrid_from. f_equal.
  apply State_ext; intros j; simpl; try reflexivity; rewrite inSpan_dispatch; reflexivity.
Qed.

(** *** GridUpdate *)

Lemma massIsEmpty_false (cell : Cell) :
  massIsEmpty cell = false -> 0 < decodeFixedPoint (cell_mass cell).
Proof.
  unfold massIsEmpty. intros H.
  destruct (Qlt_le_dec 0 (decodeFixedPoint (cell_mass cell))) as [L | L]; [exact L |].
  apply Qle_bool_iff in L. congruence.
Qed.

Lemma fdiv_defined (a b : Q) : ~ b == 0 -> Tsl.fdiv a b = Some (a / b).
Proof.
  intros H. unfold Tsl.fdiv. destruct (Qeq_bool b 0) eqn:E; [| reflexivity].
  apply Qeq_bool_iff in E. contradiction.
Qed.

Lemma fdiv_zero (a b : Q) : b == 0 -> Tsl.fdiv a b = None.
Proof.
  intros H. unfold Tsl.fdiv. apply Qeq_bool_iff in H. rewrite H. reflexivity.
Qed.

(** Past the mass test every division of [updateGrid] has a finite result. *)
Lemma resolveCell_defined (u : Uniforms) (j : Z) (cell : Cell) :
  massIsEmpty cell = false -> exists v, resolveCell u j cell = Some v.
Proof.
  intros H. apply massIsEmpty_false in H. unfold resolveCell.
  rewrite !fdiv_defined by lra. eexists. reflexivity.
Qed.

Lemma updateGrid_total (u : Uniforms) (j : Z) (s : State) :
  updateGrid u j s =
  Some (if (j <? cellCount u)%Z
        then mkState (cellBuffer s)
               (if massIsEmpty (cellBuffer s j) then cellBufferF s
                else match resolveCell u j (cellBuffer s j) with
                     | Some v => upd (cellBufferF s) j v
                     | None => cellBufferF s
                     end)
               (particleBuffer s)
        else s).
Proof.
  unfold updateGrid.
  destruct (Z.geb_spec j (cellCount u)); destruct (Z.ltb_spec j (cellCount u)); try lia;
    try reflexivity.
  destruct (massIsEmpty (cellBuffer s j)) eqn:E.
  - destruct s; reflexivity.
  - destruct (resolveCell_defined u j _ E) as [v Hv]. rewrite Hv. reflexivity.
Qed.

Lemma updateGrid_from (u : Uniforms) (n : nat) : forall (start : Z) (s : State),
  (0 <= start)%Z ->
  dispatch_from n start (updateGrid u) s =
  Some (mkState (cellBuffer s)
          (fun j => if inSpan start n j then resolvedCell u s j else cellBufferF s j)
          (particleBuffer s)).
Proof.
  induction n as [| n IH]; intros start s Hs.
  - simpl. f_equal. apply State_ext; intros j; simpl; try reflexivity.
    unfold inSpan. destruct (Z.leb_spec start j); destruct (Z.ltb_spec j (start + Z.of_nat 0));
      simpl; try reflexivity; lia.
  - cbn [dispatch_from]. rewrite updateGrid_total. rewrite IH by lia. f_equal.
    apply State_ext; intros j.
    + destruct (start <? cellCount u)%Z; reflexivity.
    + cbn [cellBufferF]. rewrite inSpan_S.
      destruct (Z.eqb_spec j start) as [-> | Hne]; cbn [orb].
      * assert (Hout : inSpan (start + 1) n start = false).
        { unfold inSpan. destruct (Z.leb_spec (start + 1) start); [lia | reflexivity]. }
        rewrite Hout. unfold resolvedCell, inRange.
        destruct (Z.ltb_spec start (cellCount u)); destruct (Z.leb_spec 0 start); try lia;
          cbn [andb cellBufferF cellBuffer]; try reflexivity.
        destruct (massIsEmpty (cellBuffer s start)) eqn:E; cbn [negb]; try reflexivity.
        destruct (resolveCell u start (cellBuffer s start)); try reflexivity.
        unfold upd. rewrite Z.eqb_refl. reflexivity.
      * assert (Hsame : forall s1, cellBuffer s1 = cellBuffer s ->
                  cellBufferF s1 j = cellBufferF s j ->
                  resolvedCell u s1 j = resolvedCell u s j).
        { intros s1 E1 E2. unfold resolvedCell. rewrite E1, E2. reflexivity. }
        assert (Hf : cellBufferF
                       (if (start <? cellCount u)%Z
                        then mkState (cellBuffer s)
                               (if massIsEmpty (cellBuffer s start) then cellBufferF s
                                else match resolveCell u start (cellBuffer s start) with
                                     | Some v => upd (cellBufferF s) start v
                                     | None => cellBufferF s
                                     end) (particleBuffer s)
                        else s) j = cellBufferF s j).
        { destruct (start <? cellCount u)%Z; cbn [cellBufferF]; try reflexivity.
          destruct (massIsEmpty (cellBuffer s start)); try reflexivity.
          destruct (resolveCell u start (cellBuffer s start)); try reflexivity.
          unfold upd. destruct (Z.eqb_spec j start); [contradiction | reflexivity]. }
        rewrite Hf. rewrite Hsame; [reflexivity | | exact Hf].
        destruct (start <? cellCount u)%Z; reflexivity.
    + destruct (start <? cellCount u)%Z; reflexivity.
Qed.

Lemma updateGrid_dispatch (u : Uniforms) (s : State) :
  dispatch (cellCount u) (updateGrid u) s = Some (resolvedState u s).
Proof.
  unfold dispatch. rewrite updateGrid_from by lia. f_equal.
  apply State_ext; intros j; cbn [cellBuffer cellBufferF particleBuffer resolvedState];
    try reflexivity.
  destruct (inSpan 0 (Z.to_nat (dispatchSize (cellCount u))) j) eqn:E; [reflexivity |].
  unfold resolvedCell. rewrite <- inSpan_dispatch, E. reflexivity.
Qed.

(** *** Scatter-1 *)

Lemma Some_eq {A : Type} (a b : A) : Some a = Some b -> a = b.
Proof. congruence. Qed.

Lemma scatter1_fold_mass (l : list Contribution) : forall (cb : Z -> Cell) (j : Z),
  wrapped (cell_mass (cb j)) ->
  cell_mass (fold_left scatter1 l cb j) =
  Tsl.wrap32 (cell_mass (cb j)
              + Zsum (List.map (fun c => if (cellPtr c =? j)%Z
                                         then encodeFixedPoint (massContrib c) else 0%Z) l)).
Proof.
  induction l as [| c l IH]; intros cb j Hw.
  - simpl. rewrite Z.add_0_r. symmetry. exact Hw.
  - cbn [fold_left List.map Zsum fold_right]. rewrite IH.
    + unfold scatter1, upd. destruct (Z.eqb_spec j (cellPtr c)) as [-> | Hne].
      * rewrite Z.eqb_refl. cbn [cell_mass]. unfold Tsl.atomicAdd.
        rewrite wrap32_add_l. f_equal. unfold Zsum. lia.
      * destruct (Z.eqb_spec (cellPtr c) j) as [E | _]; [congruence |].
        f_equal.
    + unfold scatter1, upd, wrapped. destruct (Z.eqb_spec j (cellPtr c)) as [-> | Hne].
      * cbn [cell_mass]. unfold Tsl.atomicAdd. apply wrap32_idem.
      * exact Hw.
Qed.

Lemma atomicAdd_commute (a d1 d2 : Z) :
  Tsl.atomicAdd (Tsl.atomicAdd a d1) d2 = Tsl.atomicAdd (Tsl.atomicAdd a d2) d1.
Proof.
  unfold Tsl.atomicAdd. rewrite !wrap32_add_l. f_equal. lia.
Qed.

(** The atomic adds of two loop iterations (of the same or of different
    invocations) commute: the order in which a pass runs them is immaterial. *)
Lemma scatter1_commute (cb : Z -> Cell) (c1 c2 : Contribution) (j : Z) :
  scatter1 (scatter1 cb c1) c2 j = scatter1 (scatter1 cb c2) c1 j.
Proof.
  unfold scatter1, upd.
  destruct (Z.eqb_spec (cellPtr c1) (cellPtr c2)) as [E | N].
  - rewrite E, !Z.eqb_refl. destruct (j =? cellPtr c2)%Z; [| reflexivity].
    cbn [cell_x cell_y cell_z cell_mass]. f_equal; apply atomicAdd_commute.
  - destruct (Z.eqb_spec (cellPtr c2) (cellPtr c1)) as [E' | _]; [congruence |].
    destruct (Z.eqb_spec j (cellPtr c2)) as [E2 | N2];
      destruct (Z.eqb_spec j (cellPtr c1)) as [E1 | N1]; try reflexivity.
    congruence.
Qed.

Lemma p2g1_from (u : Uniforms) (n : nat) : forall (start : Z) (s : State),
  exists cb,
    dispatch_from n start (p2g1 u) s = Some (mkState cb (cellBufferF s) (particleBuffer s)) /\
    forall j, wrapped (cell_mass (cellBuffer s j)) ->
      cell_mass (cb j) =
      Tsl.wrap32 (cell_mass (cellBuffer s j) + massFrom u (particleBuffer s) n start j).
Proof.
  induction n as [| n IH]; intros start s.
  - exists (cellBuffer s). split; [destruct s; reflexivity |].
    intros j Hw. simpl. rewrite Z.add_0_r. symmetry. exact Hw.
  - cbn [dispatch_from massFrom]. unfold p2g1 at 1.
    destruct (start >=? numParticles u)%Z.
    + destruct (IH (start + 1)%Z s) as [cb [E H]]. exists cb. split; [exact E |].
      intros j Hw. rewrite (H j Hw). f_equal.
    + match goal with |- context [dispatch_from n _ _ ?s1] =>
        destruct (IH (start + 1)%Z s1) as [cb [E H]] end.
      cbn [cellBufferF particleBuffer cellBuffer] in E, H.
      exists cb. split; [exact E |].
      intros j Hw. rewrite H.
      * rewrite scatter1_fold_mass by exact Hw. rewrite wrap32_add_l. f_equal.
        unfold massAdded. lia.
      * unfold wrapped. rewrite scatter1_fold_mass by exact Hw. apply wrap32_idem.
Qed.

(** Scatter-1 over a grid whose cell [j] holds mass zero leaves there the
    wrapped sum of the encoded mass contributions. *)
Lemma p2g1_dispatch (u : Uniforms) (s : State) :
  exists cb,
    dispatch (numParticles u) (p2g1 u) s = Some (mkState cb (cellBufferF s) (particleBuffer s)) /\
    forall j, cell_mass (cellBuffer s j) = 0%Z ->
      cell_mass (cb j) = Tsl.wrap32 (massTotal u (particleBuffer s) j).
Proof.
  unfold dispatch.
  destruct (p2g1_from u (Z.to_nat (dispatchSize (numParticles u))) 0 s) as [cb [E H]].
  exists cb. split; [exact E |]. intros j Hz. rewrite H.
  - rewrite Hz. reflexivity.
  - rewrite Hz. reflexivity.
Qed.

(** *** Scatter-2 *)

Lemma scatter2_fold_mass (l : list (Z * vec3)) : forall (cb : Z -> Cell) (j : Z),
  cell_mass (fold_left scatter2 l cb j) = cell_mass (cb j).
Proof.
  induction l as [| m l IH]; intros cb j; [reflexivity |].
  cbn [fold_left]. rewrite IH. unfold scatter2, upd.
  destruct (Z.eqb_spec j (fst m)) as [-> | Hne]; reflexivity.
Qed.

Lemma sameForDensity_refl (s : State) : sameForDensity s s.
Proof. repeat split. Qed.

Lemma sameForDensity_trans (a b c : State) :
  sameForDensity a b -> sameForDensity b c -> sameForDensity a c.
Proof.
  intros [A1 [A2 A3]] [B1 [B2 B3]]. repeat split.
  - congruence.
  - intros j. rewrite B2. apply A2.
  - intros i. rewrite B3. apply A3.
Qed.

Lemma p2g2_preserves (u : Uniforms) (i : Z) (s s' : State) :
  p2g2 u i s = Some s' -> sameForDensity s s'.
Proof.
  unfold p2g2. destruct (i >=? numParticles u)%Z.
  - intros E; injection E as <-. apply sameForDensity_refl.
  - destruct (Tsl.fdiv 1 _) as [volume |]; [| discriminate].
    destruct (Tsl.fdiv _ (restDensity u)) as [ratio |]; [| discriminate].
    intros E. apply Some_eq in E. subst s'.
    repeat split; cbn [cellBufferF cellBuffer particleBuffer].
    + intros j. apply scatter2_fold_mass.
    + intros k. unfold upd. destruct (k =? i)%Z eqn:Ek; [| reflexivity].
      apply Z.eqb_eq in Ek. subst k. reflexivity.
Qed.

Lemma p2g2_from_preserves (u : Uniforms) (n : nat) : forall (start : Z) (s s' : State),
  dispatch_from n start (p2g2 u) s = Some s' -> sameForDensity s s'.
Proof.
  induction n as [| n IH]; intros start s s' E.
  - injection E as <-. apply sameForDensity_refl.
  - cbn [dispatch_from] in E. destruct (p2g2 u start s) as [s1 |] eqn:E1; [| discriminate].
    eapply sameForDensity_trans; [apply (p2g2_preserves _ _ _ _ E1) | apply (IH _ _ _ E)].
Qed.

Lemma gatherDensity_ext (u : Uniforms) (cb cb' : Z -> Cell) (pos : vec3) :
  (forall j, cell_mass (cb' j) = cell_mass (cb j)) ->
  gatherDensity u cb' pos = gatherDensity u cb pos.
Proof.
  intros H. unfold gatherDensity. generalize 0. generalize stencil.
  induction l as [| g l IH]; intros q; [reflexivity |].
  cbn [fold_left]. rewrite H. apply IH.
Qed.

Lemma densityOf_same (u : Uniforms) (s s' : State) (i : Z) :
  sameForDensity s s' -> densityOf u s' i = densityOf u s i.
Proof.
  intros [_ [H2 H3]]. unfold densityOf. rewrite H3. apply gatherDensity_ext, H2.
Qed.

Lemma p2g2_defined (u : Uniforms) (i : Z) (s : State) :
  ~ restDensity u == 0 ->
  ((i < numParticles u)%Z -> ~ densityOf u s i == 0) ->
  exists s', p2g2 u i s = Some s'.
Proof.
  intros Hr Hd. unfold p2g2.
  destruct (Z.geb_spec i (numParticles u)) as [Hge | Hlt]; [eexists; reflexivity |].
  specialize (Hd Hlt). unfold densityOf in Hd.
  rewrite (fdiv_defined 1 _ Hd), (fdiv_defined _ _ Hr). eexists. reflexivity.
Qed.

Lemma p2g2_from_defined (u : Uniforms) (n : nat) : forall (start : Z) (s : State),
  ~ restDensity u == 0 ->
  (forall i, (i < numParticles u)%Z -> inSpan start n i = true -> ~ densityOf u s i == 0) ->
  exists s', dispatch_from n start (p2g2 u) s = Some s'.
Proof.
  induction n as [| n IH]; intros start s Hr Hd; [eexists; reflexivity |].
  cbn [dispatch_from].
  destruct (p2g2_defined u start s Hr) as [s1 E1].
  { intros Hlt. apply Hd; [exact Hlt |]. rewrite inSpan_S, Z.eqb_refl. reflexivity. }
  rewrite E1. apply IH; [exact Hr |].
  intros i Hlt Hin. rewrite (densityOf_same u s s1 i (p2g2_preserves _ _ _ _ E1)).
  apply Hd; [exact Hlt |]. rewrite inSpan_S, Hin. apply orb_true_r.
Qed.

(** ** The grid passes of a step *)

Lemma scatterPasses_spec (u : Uniforms) (s0 s2 : State) :
  scatterPasses u s0 = Some s2 ->
  cellBufferF s2 = cellBufferF s0 /\
  (forall i, position (particleBuffer s2 i) = position (particleBuffer s0 i)) /\
  (forall j, cell_mass (cellBuffer s0 j) = 0%Z ->
     cell_mass (cellBuffer s2 j) = Tsl.wrap32 (massTotal u (particleBuffer s0) j)).
Proof.
  unfold scatterPasses. destruct (p2g1_dispatch u s0) as [cb [E1 Hm]].
  rewrite E1. cbn [bind]. intros E2.
  apply p2g2_from_preserves in E2. destruct E2 as [F [M P]].
  cbn [cellBufferF cellBuffer particleBuffer] in F, M, P.
  split; [exact F | split; [exact P |]].
  intros j Hz. rewrite M. apply Hm, Hz.
Qed.

Lemma inRange_true (count j : Z) : (0 <= j < count)%Z -> inRange count j = true.
Proof.
  intros H. unfold inRange. apply andb_true_iff. split; [apply Z.leb_le | apply Z.ltb_lt]; lia.
Qed.

Lemma gridPasses_spec (u : Uniforms) (s s' : State) :
  gridPasses u s = Some s' ->
  exists s2,
    scatterPasses u (clearedState u s) = Some s2 /\
    s' = resolvedState u s2 /\
    forall j, (0 <= j < cellCount u)%Z -> cellBufferF s2 j = zeroVec4.
Proof.
  unfold gridPasses. rewrite clearGrid_dispatch. cbn [bind].
  destruct (scatterPasses u (clearedState u s)) as [s2 |] eqn:E; [| discriminate].
  cbn [bind]. rewrite updateGrid_dispatch. intros H. apply Some_eq in H.
  exists s2. split; [reflexivity | split; [symmetry; exact H |]].
  intros j Hj. destruct (scatterPasses_spec u _ _ E) as [F _]. rewrite F.
  cbn [clearedState cellBufferF]. rewrite inRange_true by exact Hj. reflexivity.
Qed.

(** C3.  In a step, a cell whose decoded accumulated mass is at most 0 makes
    [updateGrid] return early (the invocation leaves every buffer as it
    is); the whole GridUpdate pass has a finite result (none of its divisions
    has a zero divisor), and, ClearGrid having zeroed the resolved buffer and
    the scatter passes not writing it, the resolved velocity of that cell is
    exactly zero. *)
Theorem resolve_empty_cell (u : Uniforms) (s s2 : State) (idx : Z) :
  (s0 <- dispatch (cellCount u) (clearGrid u) s ;; scatterPasses u s0) = Some s2 ->
  (0 <= idx < cellCount u)%Z ->
  decodeFixedPoint (cell_mass (cellBuffer s2 idx)) <= 0 ->
  updateGrid u idx s2 = Some s2 /\
  exists s3,
    dispatch (cellCount u) (updateGrid u) s2 = Some s3 /\
    gridPasses u s = Some s3 /\
    cellBufferF s3 idx = zeroVec4.
Proof.
  intros Hs Hidx Hm.
  assert (He : massIsEmpty (cellBuffer s2 idx) = true).
  { unfold massIsEmpty. apply Qle_bool_iff. exact Hm. }
  split.
  - unfold updateGrid. destruct (Z.geb_spec idx (cellCount u)); [lia |].
    rewrite He. reflexivity.
  - exists (resolvedState u s2).
    assert (Hg : gridPasses u s = Some (resolvedState u s2)).
    { unfold gridPasses.
      destruct (dispatch (cellCount u) (clearGrid u) s) as [s0 |]; [| discriminate].
      cbn [bind] in Hs |- *. rewrite Hs. cbn [bind]. apply updateGrid_dispatch. }
    split; [apply updateGrid_dispatch | split; [exact Hg |]].
    destruct (gridPasses_spec u s _ Hg) as [s2' [E2 [_ Hz]]].
    rewrite clearGrid_dispatch in Hs. cbn [bind] in Hs.
    assert (s2' = s2) by congruence. subst s2'.
    cbn [resolvedState cellBufferF]. unfold resolvedCell.
    rewrite He, andb_false_r. apply Hz, Hidx.
Qed.

(** ** Cell addressing *)

Section Addressing.

Variable u : Uniforms.
Hypothesis cellCount_fits : (cellCount u <= Tsl.INT32_MAX)%Z.

Let gx := ix (gridSize u).
Let gy := iy (gridSize u).
Let gz := iz (gridSize u).

Lemma getCellPtr_in_grid (cx cy cz : Z) :
  (0 <= cx < gx)%Z -> (0 <= cy < gy)%Z -> (0 <= cz < gz)%Z ->
  getCellPtr u (mkIvec3 cx cy cz) = (cx * gy * gz + cy * gz + cz)%Z /\
  (0 <= cx * gy * gz + cy * gz + cz < cellCount u)%Z.
Proof.
  intros Hx Hy Hz. unfold cellCount in *. fold gx gy gz in cellCount_fits |- *.
  assert (B1 : (0 <= cx * gy <= (gx - 1) * gy)%Z) by nia.
  assert (B2 : (0 <= cx * gy * gz <= (gx - 1) * gy * gz)%Z) by nia.
  assert (B3 : (0 <= cy * gz <= (gy - 1) * gz)%Z) by nia.
  assert (B4 : (gx * gy * gz = (gx - 1) * gy * gz + (gy - 1) * gz + gz)%Z) by ring.
  assert (B5 : ((gx - 1) * gy <= (gx - 1) * gy * gz)%Z) by nia.
  assert (B6 : (0 <= (gx - 1) * gy * gz)%Z) by nia.
  unfold Tsl.INT32_MAX in cellCount_fits.
  split; [| lia].
  unfold getCellPtr, imul, iadd. cbn [ix iy iz]. fold gx gy gz.
  rewrite (wrap32_id (cx * gy)) by (unfold Tsl.INT32_MIN, Tsl.INT32_MAX; lia).
  rewrite (wrap32_id (cx * gy * gz)) by (unfold Tsl.INT32_MIN, Tsl.INT32_MAX; lia).
  rewrite (wrap32_id (cy * gz)) by (unfold Tsl.INT32_MIN, Tsl.INT32_MAX; lia).
  rewrite (wrap32_id (cx * gy * gz + cy * gz)) by (unfold Tsl.INT32_MIN, Tsl.INT32_MAX; lia).
  apply wrap32_id. unfold Tsl.INT32_MIN, Tsl.INT32_MAX. lia.
Qed.

(** [updateGrid] recovers the cell coordinates from the cell index. *)
Lemma cellCoord_getCellPtr (cx cy cz : Z) :
  (0 <= cx < gx)%Z -> (0 <= cy < gy)%Z -> (0 <= cz < gz)%Z ->
  cellCoordX u (getCellPtr u (mkIvec3 cx cy cz)) = cx /\
  cellCoordY u (getCellPtr u (mkIvec3 cx cy cz)) = cy /\
  cellCoordZ u (getCellPtr u (mkIvec3 cx cy cz)) = cz.
Proof.
  intros Hx Hy Hz.
  destruct (getCellPtr_in_grid cx cy cz Hx Hy Hz) as [E B]. rewrite E.
  unfold cellCoordX, cellCoordY, cellCoordZ. fold gx gy gz.
  assert (P1 : (0 <= cx * gy * gz + cy * gz + cz)%Z) by lia.
  assert (Q1 : ((cx * gy * gz + cy * gz + cz) / gz = cx * gy + cy)%Z).
  { replace (cx * gy * gz + cy * gz + cz)%Z with ((cx * gy + cy) * gz + cz)%Z by ring.
    rewrite Z.div_add_l by lia. rewrite (Z.div_small cz gz) by lia. lia. }
  assert (M1 : ((cx * gy * gz + cy * gz + cz) mod gz = cz)%Z).
  { replace (cx * gy * gz + cy * gz + cz)%Z with (cz + (cx * gy + cy) * gz)%Z by ring.
    rewrite Z.mod_add by lia. apply Z.mod_small. lia. }
  assert (P2 : (0 <= cx * gy + cy)%Z) by nia.
  assert (A1 : (Z.quot (cx * gy * gz + cy * gz + cz) gz = cx * gy + cy)%Z).
  { rewrite Z.quot_div_nonneg by lia. exact Q1. }
  assert (A2 : (Z.rem (cx * gy * gz + cy * gz + cz) gz = cz)%Z).
  { rewrite Z.rem_mod_nonneg by lia. exact M1. }
  rewrite A1, A2.
  rewrite Z.quot_div_nonneg by lia. rewrite Z.rem_mod_nonneg by lia.
  split; [| split; [| reflexivity]].
  - rewrite Z.div_add_l by lia. rewrite (Z.div_small cy gy) by lia. lia.
  - rewrite Z.add_comm, Z.mod_add by lia. apply Z.mod_small. lia.
Qed.

Lemma isub_size (size : Z) :
  (0 < size <= cellCount u)%Z -> isub size 2 = (size - 2)%Z.
Proof.
  intros H. unfold isub. apply wrap32_id.
  unfold Tsl.INT32_MIN, Tsl.INT32_MAX in *. lia.
Qed.

(** The integer part of an in-range coordinate. *)
Lemma int_in_grid (x : Q) (size : Z) :
  (size <= cellCount u)%Z -> 2 <= x -> x <= inject_Z (size - 2) ->
  (2 <= Tsl.int x <= size - 2)%Z.
Proof.
  intros Hs Hlo Hhi.
  assert (Hx : 0 <= x) by lra.
  destruct (Qtrunc_nonneg x Hx) as [T1 T2].
  assert (Ht : (2 <= Tsl.Qtrunc x <= size - 2)%Z).
  { split.
    - assert (L : inject_Z 2 < inject_Z (Tsl.Qtrunc x + 1)).
      { rewrite inject_Z_plus. change (inject_Z 2) with 2. change (inject_Z 1) with 1. lra. }
      rewrite <- Zlt_Qlt in L. lia.
    - rewrite Zle_Qle. lra. }
  unfold Tsl.int, Tsl.INT32_MIN, Tsl.INT32_MAX in *. lia.
Qed.

(** Every stencil cell of a particle inside the box is a cell of the grid. *)
Lemma stencil_in_grid (pos : vec3) (g : ivec3) :
  inGrid u pos -> In g stencil ->
  (0 <= getCellPtr u (cellXOf pos g) < cellCount u)%Z.
Proof.
  intros [[X1 X2] [[Y1 Y2] [Z1 Z2]]] Hg.
  assert (Sx : (4 <= gx)%Z).
  { assert (H : inject_Z 2 <= inject_Z (gx - 2)) by (eapply Qle_trans; [exact X1 | exact X2]).
    rewrite <- Zle_Qle in H. lia. }
  assert (Sy : (4 <= gy)%Z).
  { assert (H : inject_Z 2 <= inject_Z (gy - 2)) by (eapply Qle_trans; [exact Y1 | exact Y2]).
    rewrite <- Zle_Qle in H. lia. }
  assert (Sz : (4 <= gz)%Z).
  { assert (H : inject_Z 2 <= inject_Z (gz - 2)) by (eapply Qle_trans; [exact Z1 | exact Z2]).
    rewrite <- Zle_Qle in H. lia. }
  assert (Pxy : (16 <= gx * gy)%Z) by nia.
  assert (Pyz : (16 <= gy * gz)%Z) by nia.
  assert (Pxz : (16 <= gx * gz)%Z) by nia.
  assert (Cx : (gx <= cellCount u)%Z).
  { unfold cellCount; fold gx gy gz. replace (gx * gy * gz)%Z with (gx * (gy * gz))%Z by ring. nia. }
  assert (Cy : (gy <= cellCount u)%Z).
  { unfold cellCount; fold gx gy gz. replace (gx * gy * gz)%Z with (gy * (gx * gz))%Z by ring. nia. }
  assert (Cz : (gz <= cellCount u)%Z).
  { unfold cellCount; fold gx gy gz. nia. }
  pose proof (int_in_grid (vx pos) gx Cx X1 X2) as Ix.
  pose proof (int_in_grid (vy pos) gy Cy Y1 Y2) as Iy.
  pose proof (int_in_grid (vz pos) gz Cz Z1 Z2) as Iz.
  assert (G : (0 <= ix g <= 2 /\ 0 <= iy g <= 2 /\ 0 <= iz g <= 2)%Z).
  { unfold stencil in Hg. simpl in Hg.
    repeat (destruct Hg as [Hg | Hg]; [subst g; simpl; lia |]). destruct Hg. }
  destruct G as [Gx [Gy Gz]].
  unfold cellXOf, baseCell, Vec.to_ivec3. cbn [ix iy iz].
  unfold iadd, isub.
  unfold Tsl.INT32_MAX in cellCount_fits.
  rewrite (wrap32_id (Tsl.int (vx pos) - 1)) by (unfold Tsl.INT32_MIN, Tsl.INT32_MAX; lia).
  rewrite (wrap32_id (Tsl.int (vy pos) - 1)) by (unfold Tsl.INT32_MIN, Tsl.INT32_MAX; lia).
  rewrite (wrap32_id (Tsl.int (vz pos) - 1)) by (unfold Tsl.INT32_MIN, Tsl.INT32_MAX; lia).
  rewrite (wrap32_id (Tsl.int (vx pos) - 1 + ix g)) by (unfold Tsl.INT32_MIN, Tsl.INT32_MAX; lia).
  rewrite (wrap32_id (Tsl.int (vy pos) - 1 + iy g)) by (unfold Tsl.INT32_MIN, Tsl.INT32_MAX; lia).
  rewrite (wrap32_id (Tsl.int (vz pos) - 1 + iz g)) by (unfold Tsl.INT32_MIN, Tsl.INT32_MAX; lia).
  match goal with |- context [getCellPtr u (mkIvec3 ?a ?b ?c)] =>
    destruct (getCellPtr_in_grid a b c) as [E B]; [fold gx; lia | fold gy; lia | fold gz; lia |]
  end.
  rewrite E. exact B.
Qed.

End Addressing.

(** ** Accumulated mass *)

Lemma Zsum_nonneg {A : Type} (f : A -> Z) (l : list A) :
  (forall x, In x l -> (0 <= f x)%Z) -> (0 <= Zsum (List.map f l))%Z.
Proof.
  induction l as [| a l IH]; intros H; simpl; [lia |].
  pose proof (H a (or_introl eq_refl)). pose proof (IH (fun x Hx => H x (or_intror Hx))).
  unfold Zsum in *. lia.
Qed.

Lemma Zsum_le {A : Type} (f g : A -> Z) (l : list A) :
  (forall x, In x l -> (f x <= g x)%Z) -> (Zsum (List.map f l) <= Zsum (List.map g l))%Z.
Proof.
  induction l as [| a l IH]; intros H; simpl; [lia |].
  pose proof (H a (or_introl eq_refl)). pose proof (IH (fun x Hx => H x (or_intror Hx))).
  unfold Zsum in *. lia.
Qed.

Lemma Zsum_ge_elem {A : Type} (f : A -> Z) (l : list A) (a : A) :
  (forall x, In x l -> (0 <= f x)%Z) -> In a l -> (f a <= Zsum (List.map f l))%Z.
Proof.
  induction l as [| b l IH]; intros H Ha; [destruct Ha |].
  simpl. pose proof (H b (or_introl eq_refl)).
  pose proof (Zsum_nonneg f l (fun x Hx => H x (or_intror Hx))).
  destruct Ha as [-> | Ha].
  - unfold Zsum in *. lia.
  - pose proof (IH (fun x Hx => H x (or_intror Hx)) Ha). unfold Zsum in *. lia.
Qed.

Lemma contribution_mass_nonneg (u : Uniforms) (p : Particle) (c : Contribution) :
  In c (p2g1Contributions u p) ->
  0 <= massContrib c /\ massContrib c <= 1 /\ (0 <= encodeFixedPoint (massContrib c))%Z.
Proof.
  unfold p2g1Contributions. intros H. apply in_map_iff in H. destruct H as [g [<- Hg]].
  cbn [massContrib p2g1Contribution].
  pose proof (weightOf_nonneg (position p) g Hg).
  pose proof (weightOf_le_1 (position p) g Hg).
  split; [assumption | split; [assumption |]]. apply encodeFixedPoint_nonneg. assumption.
Qed.

Lemma massAdded_nonneg (u : Uniforms) (p : Particle) (j : Z) : (0 <= massAdded u p j)%Z.
Proof.
  unfold massAdded. apply Zsum_nonneg. intros c Hc.
  destruct (cellPtr c =? j)%Z; [| lia]. apply (contribution_mass_nonneg u p c Hc).
Qed.

(** A weight in [[0, 1]] is encoded without saturation, rounding down. *)
Lemma encode_weight (w : Q) :
  0 <= w -> w <= 1 ->
  inject_Z (encodeFixedPoint w) <= w * fixedPointMultiplier /\
  w * fixedPointMultiplier < inject_Z (encodeFixedPoint w) + 1.
Proof.
  intros H0 H1. unfold encodeFixedPoint.
  assert (R0 : 0 <= w * fixedPointMultiplier) by (unfold fixedPointMultiplier; lra).
  rewrite int_in_range.
  - apply Qtrunc_nonneg. exact R0.
  - eapply Qle_trans; [| exact R0]. vm_compute. discriminate.
  - unfold fixedPointMultiplier. vm_compute (inject_Z Tsl.INT32_MAX). lra.
Qed.

Lemma Qsum_map_scale {A : Type} (f : A -> Q) (k : Q) (l : list A) :
  Qsum (List.map (fun x => f x * k) l) == Qsum (List.map f l) * k.
Proof.
  induction l as [| a l IH]; simpl; [ring |]. rewrite IH. ring.
Qed.

Lemma Qsum_le {A : Type} (f g : A -> Q) (l : list A) :
  (forall x, In x l -> f x <= g x) -> Qsum (List.map f l) <= Qsum (List.map g l).
Proof.
  induction l as [| a l IH]; intros H; simpl; [lra |].
  pose proof (H a (or_introl eq_refl)). pose proof (IH (fun x Hx => H x (or_intror Hx))). lra.
Qed.

Lemma inject_Zsum {A : Type} (f : A -> Z) (l : list A) :
  inject_Z (Zsum (List.map f l)) == Qsum (List.map (fun x => inject_Z (f x)) l).
Proof.
  induction l as [| a l IH]; simpl; [reflexivity |].
  rewrite inject_Z_plus. unfold Zsum in IH. rewrite IH. reflexivity.
Qed.

(** One particle adds at most one unit of mass, [10^7], to a cell. *)
Lemma massAdded_le (u : Uniforms) (p : Particle) (j : Z) :
  (massAdded u p j <= 10000000)%Z.
Proof.
  unfold massAdded.
  eapply Z.le_trans.
  - apply (Zsum_le _ (fun c => encodeFixedPoint (massContrib c))). intros c Hc.
    destruct (cellPtr c =? j)%Z; [lia |]. apply (contribution_mass_nonneg u p c Hc).
  - rewrite Zle_Qle, inject_Zsum.
    eapply Qle_trans.
    + apply (Qsum_le _ (fun c => massContrib c * fixedPointMultiplier)). intros c Hc.
      destruct (contribution_mass_nonneg u p c Hc) as [H0 [H1 _]].
      apply (encode_weight _ H0 H1).
    + rewrite Qsum_map_scale.
      rewrite (stencil_weights_sum u p).
      vm_compute. discriminate.
Qed.

Lemma massFrom_nonneg (u : Uniforms) (pb : Z -> Particle) (j : Z) (n : nat) :
  forall start, (0 <= massFrom u pb n start j)%Z.
Proof.
  induction n as [| n IH]; intros start; cbn [massFrom]; [lia |].
  pose proof (IH (start + 1)%Z). pose proof (massAdded_nonneg u (pb start) j).
  destruct (start >=? numParticles u)%Z; lia.
Qed.

Lemma massFrom_le (u : Uniforms) (pb : Z -> Particle) (j : Z) (n : nat) :
  forall start, (0 <= start)%Z ->
  (massFrom u pb n start j <= 10000000 * Z.max 0 (numParticles u - start))%Z.
Proof.
  induction n as [| n IH]; intros start Hs; cbn [massFrom]; [lia |].
  pose proof (IH (start + 1)%Z ltac:(lia)). pose proof (massAdded_le u (pb start) j).
  destruct (Z.geb_spec start (numParticles u)); lia.
Qed.

Lemma massFrom_ge_term (u : Uniforms) (pb : Z -> Particle) (j : Z) (n : nat) :
  forall start i, inSpan start n i = true -> (i < numParticles u)%Z ->
  (massAdded u (pb i) j <= massFrom u pb n start j)%Z.
Proof.
  induction n as [| n IH]; intros start i Hi Hn.
  - unfold inSpan in Hi. apply andb_true_iff in Hi. destruct Hi as [A B].
    apply Z.leb_le in A. apply Z.ltb_lt in B. simpl in B. lia.
  - rewrite inSpan_S in Hi. cbn [massFrom].
    pose proof (massFrom_nonneg u pb j n (start + 1)%Z).
    pose proof (massAdded_nonneg u (pb start) j).
    destruct (Z.eqb_spec i start) as [E | Hne].
    + rewrite E in *. destruct (Z.geb_spec start (numParticles u)); lia.
    + cbn [orb] in Hi. pose proof (IH _ _ Hi Hn).
      destruct (start >=? numParticles u)%Z; lia.
Qed.

(** With at most 214 active particles no mass accumulator can overflow. *)
Lemma massTotal_le (u : Uniforms) (pb : Z -> Particle) (j : Z) :
  (massTotal u pb j <= 10000000 * Z.max 0 (numParticles u))%Z.
Proof.
  unfold massTotal.
  pose proof (massFrom_le u pb j (Z.to_nat (dispatchSize (numParticles u))) 0 ltac:(lia)).
  replace (numParticles u - 0)%Z with (numParticles u) in * by lia. assumption.
Qed.

Lemma massTotal_nonneg (u : Uniforms) (pb : Z -> Particle) (j : Z) :
  (0 <= massTotal u pb j)%Z.
Proof. apply massFrom_nonneg. Qed.

Lemma massTotal_ge_particle (u : Uniforms) (pb : Z -> Particle) (i j : Z) :
  (0 <= i < numParticles u)%Z -> (massAdded u (pb i) j <= massTotal u pb j)%Z.
Proof.
  intros Hi. unfold massTotal. apply massFrom_ge_term; [| lia].
  unfold inSpan. apply andb_true_iff. split; [apply Z.leb_le; lia | apply Z.ltb_lt].
  pose proof (dispatchSize_ge (numParticles u) ltac:(lia)). lia.
Qed.

Lemma massAdded_ge_entry (u : Uniforms) (p : Particle) (g : ivec3) :
  In g stencil ->
  (encodeFixedPoint (weightOf (position p) g)
   <= massAdded u p (getCellPtr u (cellXOf (position p) g)))%Z.
Proof.
  intros Hg. unfold massAdded.
  set (j := getCellPtr u (cellXOf (position p) g)).
  set (f := fun c : Contribution =>
              if (cellPtr c =? j)%Z then encodeFixedPoint (massContrib c) else 0%Z).
  assert (E : f (p2g1Contribution u p g) = encodeFixedPoint (weightOf (position p) g)).
  { unfold f. cbn [cellPtr massContrib p2g1Contribution]. fold j. rewrite Z.eqb_refl. reflexivity. }
  rewrite <- E. apply Zsum_ge_elem.
  - intros c Hc. unfold f. destruct (cellPtr c =? j)%Z; [| lia].
    apply (contribution_mass_nonneg u p c Hc).
  - unfold p2g1Contributions. apply in_map. exact Hg.
Qed.

(** ** Re-gathered density *)

Lemma fold_left_Qsum {A : Type} (f : A -> Q) (l : list A) : forall a,
  fold_left (fun d g => d + f g) l a == a + Qsum (List.map f l).
Proof.
  induction l as [| x l IH]; intros a; simpl; [ring |]. rewrite IH. ring.
Qed.

Lemma Qsum_nonneg {A : Type} (f : A -> Q) (l : list A) :
  (forall x, In x l -> 0 <= f x) -> 0 <= Qsum (List.map f l).
Proof.
  induction l as [| a l IH]; intros H; simpl; [lra |].
  pose proof (H a (or_introl eq_refl)). pose proof (IH (fun x Hx => H x (or_intror Hx))). lra.
Qed.

Lemma Qsum_ge_elem {A : Type} (f : A -> Q) (l : list A) (a : A) :
  (forall x, In x l -> 0 <= f x) -> In a l -> f a <= Qsum (List.map f l).
Proof.
  induction l as [| b l IH]; intros H Ha; [destruct Ha |].
  simpl. pose proof (H b (or_introl eq_refl)).
  pose proof (Qsum_nonneg f l (fun x Hx => H x (or_intror Hx))).
  destruct Ha as [-> | Ha]; [lra |].
  pose proof (IH (fun x Hx => H x (or_intror Hx)) Ha). lra.
Qed.

Lemma decode_scaled (m : Z) : decodeFixedPoint m == inject_Z m * 0.0000001.
Proof. unfold decodeFixedPoint, Tsl.float, fixedPointMultiplier. field. Qed.

Lemma decode_nonneg (m : Z) : (0 <= m)%Z -> 0 <= decodeFixedPoint m.
Proof.
  intros H. rewrite decode_scaled. rewrite Zle_Qle in H. change (inject_Z 0) with 0 in H. lra.
Qed.

Lemma decode_pos (m : Z) : (0 < m)%Z -> 0 < decodeFixedPoint m.
Proof.
  intros H. rewrite decode_scaled. rewrite Zlt_Qlt in H. change (inject_Z 0) with 0 in H. lra.
Qed.

Lemma decode_le_0 (m : Z) : decodeFixedPoint m <= 0 <-> (m <= 0)%Z.
Proof.
  rewrite decode_scaled, Zle_Qle. change (inject_Z 0) with 0. split; intros H; lra.
Qed.

Lemma massIsEmpty_iff (cell : Cell) : massIsEmpty cell = true <-> (cell_mass cell <= 0)%Z.
Proof.
  unfold massIsEmpty. rewrite Qle_bool_iff. apply decode_le_0.
Qed.

Lemma gatherDensity_sum (u : Uniforms) (cb : Z -> Cell) (pos : vec3) :
  gatherDensity u cb pos ==
  Qsum (List.map (fun g => decodeFixedPoint (cell_mass (cb (getCellPtr u (cellXOf pos g))))
                           * weightOf pos g) stencil).
Proof.
  unfold gatherDensity. rewrite fold_left_Qsum. ring.
Qed.

(** The centre cell of a particle's stencil receives a positive encoded
    mass from the particle. *)
Lemma centre_encoded_pos (pos : vec3) :
  (0 < encodeFixedPoint (weightOf pos (mkIvec3 1 1 1)))%Z.
Proof.
  assert (Hc : In (mkIvec3 1 1 1) stencil) by (unfold stencil; simpl; auto 20).
  pose proof (centre_weight_lower_bound pos) as L.
  pose proof (weightOf_le_1 pos _ Hc) as U.
  destruct (encode_weight (weightOf pos (mkIvec3 1 1 1)) ltac:(lra) U) as [_ E].
  unfold fixedPointMultiplier in E.
  assert (H : inject_Z 0 < inject_Z (encodeFixedPoint (weightOf pos (mkIvec3 1 1 1)))).
  { change (inject_Z 0) with 0. lra. }
  rewrite <- Zlt_Qlt in H. exact H.
Qed.

(** ** The scatter passes of a step *)

Section ScatterStep.

Variable u : Uniforms.
Variable s : State.

Hypothesis cellCount_fits : (cellCount u <= Tsl.INT32_MAX)%Z.
Hypothesis active_in_grid :
  forall i, (0 <= i < numParticles u)%Z -> inGrid u (position (particleBuffer s i)).
Hypothesis no_overflow :
  forall j, (0 <= j < cellCount u)%Z ->
    (massTotal u (particleBuffer s) j <= Tsl.INT32_MAX)%Z.

Lemma cleared_mass (j : Z) :
  (0 <= j < cellCount u)%Z -> cell_mass (cellBuffer (clearedState u s) j) = 0%Z.
Proof.
  intros H. cbn [clearedState cellBuffer]. rewrite inRange_true by exact H. reflexivity.
Qed.

Lemma p2g1_step_mass :
  exists s1,
    dispatch (numParticles u) (p2g1 u) (clearedState u s) = Some s1 /\
    particleBuffer s1 = particleBuffer s /\
    forall j, (0 <= j < cellCount u)%Z ->
      cell_mass (cellBuffer s1 j) = massTotal u (particleBuffer s) j.
Proof.
  destruct (p2g1_dispatch u (clearedState u s)) as [cb [E M]].
  eexists. split; [exact E |]. split; [reflexivity |].
  intros j Hj. cbn [cellBuffer]. rewrite (M j (cleared_mass j Hj)).
  cbn [clearedState particleBuffer]. apply wrap32_id.
  pose proof (massTotal_nonneg u (particleBuffer s) j). pose proof (no_overflow j Hj).
  unfold Tsl.INT32_MIN, Tsl.INT32_MAX in *. lia.
Qed.

Lemma density_positive (s1 : State) (i : Z) :
  particleBuffer s1 = particleBuffer s ->
  (forall j, (0 <= j < cellCount u)%Z ->
     cell_mass (cellBuffer s1 j) = massTotal u (particleBuffer s) j) ->
  (0 <= i < numParticles u)%Z ->
  0 < densityOf u s1 i.
Proof.
  intros Hp Hm Hi. unfold densityOf. rewrite Hp, gatherDensity_sum.
  set (pos := position (particleBuffer s i)).
  pose proof (active_in_grid i Hi) as Hg. fold pos in Hg.
  set (f := fun g => decodeFixedPoint
                       (cell_mass (cellBuffer s1 (getCellPtr u (cellXOf pos g))))
                     * weightOf pos g).
  assert (Hc : In (mkIvec3 1 1 1) stencil) by (unfold stencil; simpl; auto 20).
  assert (Hn : forall g, In g stencil -> 0 <= f g).
  { intros g Hin. unfold f.
    rewrite (Hm _ (stencil_in_grid u cellCount_fits pos g Hg Hin)).
    apply Qmult_le_0_compat.
    - apply decode_nonneg, massTotal_nonneg.
    - apply weightOf_nonneg, Hin. }
  apply Qlt_le_trans with (f (mkIvec3 1 1 1)); [| apply Qsum_ge_elem; assumption].
  unfold f. rewrite (Hm _ (stencil_in_grid u cellCount_fits pos _ Hg Hc)).
  assert (Hpos : 0 < decodeFixedPoint
                       (massTotal u (particleBuffer s)
                          (getCellPtr u (cellXOf pos (mkIvec3 1 1 1))))).
  { apply decode_pos.
    pose proof (massTotal_ge_particle u (particleBuffer s) i
                  (getCellPtr u (cellXOf pos (mkIvec3 1 1 1))) Hi) as G.
    pose proof (massAdded_ge_entry u (particleBuffer s i) (mkIvec3 1 1 1) Hc) as A.
    fold pos in A. pose proof (centre_encoded_pos pos). lia. }
  pose proof (centre_weight_lower_bound pos) as W.
  set (a := decodeFixedPoint _) in *. set (w := weightOf pos (mkIvec3 1 1 1)) in *.
  clearbody a w. nra.
Qed.

Lemma scatterPasses_defined :
  ~ restDensity u == 0 ->
  exists s1 s2,
    dispatch (numParticles u) (p2g1 u) (clearedState u s) = Some s1 /\
    (forall i, (0 <= i < numParticles u)%Z -> 0 < densityOf u s1 i) /\
    dispatch (numParticles u) (p2g2 u) s1 = Some s2 /\
    scatterPasses u (clearedState u s) = Some s2.
Proof.
  intros Hr. destruct p2g1_step_mass as [s1 [E1 [Hp Hm]]].
  assert (Hd : forall i, (0 <= i < numParticles u)%Z -> 0 < densityOf u s1 i).
  { intros i Hi. apply density_positive; assumption. }
  destruct (p2g2_from_defined u (Z.to_nat (dispatchSize (numParticles u))) 0 s1 Hr) as [s2 E2].
  { intros i Hlt Hin. unfold inSpan in Hin. apply andb_true_iff in Hin.
    destruct Hin as [A _]. apply Z.leb_le in A.
    pose proof (Hd i ltac:(lia)). lra. }
  exists s1, s2. split; [exact E1 | split; [exact Hd | split; [exact E2 |]]].
  unfold scatterPasses. rewrite E1. cbn [bind]. exact E2.
Qed.

End ScatterStep.

(** ** The example step *)

Lemma example_fits : (cellCount exampleUniforms <= Tsl.INT32_MAX)%Z.
Proof. vm_compute. discriminate. Qed.

Lemma example_in_grid (i : Z) :
  (0 <= i < numParticles exampleUniforms)%Z ->
  inGrid exampleUniforms (position (particleBuffer exampleState i)).
Proof. intros _. vm_compute. repeat split; discriminate. Qed.

Lemma example_no_overflow (j : Z) :
  (0 <= j < cellCount exampleUniforms)%Z ->
  (massTotal exampleUniforms (particleBuffer exampleState) j <= Tsl.INT32_MAX)%Z.
Proof.
  intros _. eapply Z.le_trans; [apply massTotal_le |]. vm_compute. discriminate.
Qed.

Lemma example_restDensity : ~ restDensity exampleUniforms == 0.
Proof. intros H. vm_compute in H. discriminate. Qed.

Lemma scattered_example :
  scatterPasses exampleUniforms (clearedState exampleUniforms exampleState)
  = Some (scattered exampleUniforms exampleState).
Proof.
  destruct (scatterPasses_defined exampleUniforms exampleState example_fits
              example_in_grid example_no_overflow example_restDensity)
    as [s1 [s2 [_ [_ [_ E]]]]].
  unfold scattered. rewrite E. reflexivity.
Qed.

Lemma gridPasses_example :
  gridPasses exampleUniforms exampleState
  = Some (resolvedState exampleUniforms (scattered exampleUniforms exampleState)).
Proof.
  unfold gridPasses. rewrite clearGrid_dispatch. cbn [bind].
  rewrite scattered_example. cbn [bind]. apply updateGrid_dispatch.
Qed.

Lemma resolve_empty_cell_witness :
  updateGrid exampleUniforms 0%Z (scattered exampleUniforms exampleState)
  = Some (scattered exampleUniforms exampleState) /\
  exists s3,
    dispatch (cellCount exampleUniforms) (updateGrid exampleUniforms)
      (scattered exampleUniforms exampleState) = Some s3 /\
    gridPasses exampleUniforms exampleState = Some s3 /\
    cellBufferF s3 0%Z = zeroVec4.
Proof.
  apply (resolve_empty_cell exampleUniforms exampleState).
  - rewrite clearGrid_dispatch. cbn [bind]. exact scattered_example.
  - vm_compute. split; [discriminate | reflexivity].
  - destruct (scatterPasses_spec _ _ _ scattered_example) as [_ [_ M]].
    rewrite (M 0%Z eq_refl). vm_compute. discriminate.
Defined.

(** ** Boundary damping *)

Lemma atBoundary_true (u : Uniforms) (c size : Z) :
  (cellCount u <= Tsl.INT32_MAX)%Z -> (0 < size <= cellCount u)%Z ->
  (c < 2 \/ c > size - 2)%Z -> atBoundary c size = true.
Proof.
  intros Hf Hs Hc. unfold atBoundary. rewrite (isub_size u Hf size Hs).
  apply orb_true_iff. destruct Hc; [left; apply Z.ltb_lt | right; apply Z.gtb_lt]; lia.
Qed.

Lemma resolveCell_boundary (u : Uniforms) (j : Z) (cell : Cell) (v : vec4) :
  resolveCell u j cell = Some v ->
  (atBoundary (cellCoordX u j) (ix (gridSize u)) = true -> v4x v = 0) /\
  (atBoundary (cellCoordY u j) (iy (gridSize u)) = true -> v4y v = 0) /\
  (atBoundary (cellCoordZ u j) (iz (gridSize u)) = true -> v4z v = 0).
Proof.
  unfold resolveCell.
  destruct (Tsl.fdiv _ _) as [a |]; [| discriminate].
  destruct (Tsl.fdiv _ _) as [b |]; [| discriminate].
  destruct (Tsl.fdiv _ _) as [c |]; [| discriminate].
  intros E. apply Some_eq in E. subst v. cbn [v4x v4y v4z].
  repeat split; intros ->; reflexivity.
Qed.




(** ** Scatter-2: the division by the re-gathered density *)

Lemma p2g2_zero_density (u : Uniforms) (s : State) (i : Z) :
  (i < numParticles u)%Z -> densityOf u s i == 0 -> p2g2 u i s = None.
Proof.
  intros Hi Hd. unfold p2g2.
  destruct (Z.geb_spec i (numParticles u)); [lia |].
  unfold densityOf in Hd. rewrite (fdiv_zero 1 _ Hd). reflexivity.
Qed.




(** ** Accumulated mass and the early return of GridUpdate *)



Lemma Qsum_map_ext {A : Type} (f g : A -> Q) (l : list A) :
  (forall x, In x l -> f x == g x) -> Qsum (List.map f l) == Qsum (List.map g l).
Proof.
  induction l as [| a l IH]; intros H; simpl; [reflexivity |].
  rewrite (H a (or_introl eq_refl)), (IH (fun x Hx => H x (or_intror Hx))). reflexivity.
Qed.

(** The scatter passes when accumulators may wrap around: every cell of the
    grid then holds the wrapped sum of its contributions, and Scatter-2 has a
    finite result as long as no active particle re-gathers density zero from
    the wrapped masses. *)
Lemma scatterPasses_wrapped (u : Uniforms) (s : State) :
  ~ restDensity u == 0 ->
  (cellCount u <= Tsl.INT32_MAX)%Z ->
  (forall i, (0 <= i < numParticles u)%Z -> inGrid u (position (particleBuffer s i))) ->
  (forall i, (0 <= i < numParticles u)%Z ->
     ~ Qsum (List.map
               (fun g => decodeFixedPoint
                           (Tsl.wrap32
                              (massTotal u (particleBuffer s)
                                 (getCellPtr u (cellXOf (position (particleBuffer s i)) g))))
                         * weightOf (position (particleBuffer s i)) g) stencil) == 0) ->
  exists s2,
    scatterPasses u (clearedState u s) = Some s2 /\
    forall j, (0 <= j < cellCount u)%Z ->
      cell_mass (cellBuffer s2 j) = Tsl.wrap32 (massTotal u (particleBuffer s) j).
Proof.
  intros Hr Hf Hg Hd.
  destruct (p2g1_dispatch u (clearedState u s)) as [cb [E1 M]].
  set (s1 := mkState cb (cellBufferF (clearedState u s)) (particleBuffer (clearedState u s))) in *.
  destruct (p2g2_from_defined u (Z.to_nat (dispatchSize (numParticles u))) 0 s1 Hr) as [s2 E2].
  { intros i Hlt Hin. unfold inSpan in Hin. apply andb_true_iff in Hin.
    destruct Hin as [A _]. apply Z.leb_le in A.
    assert (Hi : (0 <= i < numParticles u)%Z) by lia.
    intros Hz. apply (Hd i Hi). rewrite <- Hz.
    unfold densityOf. rewrite gatherDensity_sum. cbn [s1 cellBuffer particleBuffer clearedState].
    apply Qsum_map_ext. intros g Hin.
    rewrite M; [reflexivity |].
    cbn [clearedState cellBuffer].
    rewrite inRange_true; [reflexivity |].
    apply stencil_in_grid; [exact Hf | apply Hg, Hi | exact Hin]. }
  assert (E : scatterPasses u (clearedState u s) = Some s2).
  { unfold scatterPasses. rewrite E1. cbn [bind]. exact E2. }
  exists s2. split; [exact E |].
  intros j Hj. destruct (scatterPasses_spec u _ _ E) as [_ [_ M2]].
  rewrite M2; [reflexivity |].
  cbn [clearedState cellBuffer]. rewrite inRange_true by exact Hj. reflexivity.
Qed.

Lemma massFrom_constant (u : Uniforms) (p : Particle) (j : Z) (n : nat) :
  forall start, (0 <= start)%Z ->
  massFrom u (fun _ => p) n start j
  = (massAdded u p j * Z.max 0 (Z.min (start + Z.of_nat n) (numParticles u) - start))%Z.
Proof.
  induction n as [| n IH]; intros start Hs; cbn [massFrom]; [lia |].
  rewrite IH by lia.
  destruct (Z.geb_spec start (numParticles u)) as [Hge | Hlt].
  - replace (Z.max 0 (Z.min (start + 1 + Z.of_nat n) (numParticles u) - (start + 1)))
      with 0%Z by lia.
    replace (Z.max 0 (Z.min (start + Z.of_nat (S n)) (numParticles u) - start))
      with 0%Z by lia.
    lia.
  - replace (Z.max 0 (Z.min (start + Z.of_nat (S n)) (numParticles u) - start))
      with (1 + Z.max 0 (Z.min (start + 1 + Z.of_nat n) (numParticles u) - (start + 1)))%Z
      by lia.
    rewrite Z.mul_add_distr_l, Z.mul_1_r. reflexivity.
Qed.

(** Identical particles add identical contributions. *)
Lemma massTotal_constant (u : Uniforms) (p : Particle) (j : Z) :
  (0 <= numParticles u)%Z ->
  massTotal u (fun _ => p) j = (massAdded u p j * numParticles u)%Z.
Proof.
  intros Hn. unfold massTotal. rewrite massFrom_constant by lia.
  pose proof (dispatchSize_ge (numParticles u) Hn). f_equal. lia.
Qed.


(** ** Boost easing *)

Lemma clamp_range (x : Q) : 0 <= Tsl.clamp x 0 1 /\ Tsl.clamp x 0 1 <= 1.
Proof.
  unfold Tsl.clamp. split.
  - apply Q.min_glb; [apply Q.le_max_r | lra].
  - apply Q.le_min_r.
Qed.

Lemma clamp_monotone (x y : Q) : x <= y -> Tsl.clamp x 0 1 <= Tsl.clamp y 0 1.
Proof.
  intros H. unfold Tsl.clamp.
  apply Q.min_le_compat_r. apply Q.max_le_compat_r. exact H.
Qed.

Lemma boostProgress_monotone (boostDuration t1 t2 : Q) :
  0 < boostDuration -> t1 <= t2 ->
  boostProgressOf t1 boostDuration <= boostProgressOf t2 boostDuration.
Proof.
  intros Hd Ht. unfold boostProgressOf. apply clamp_monotone.
  unfold Qdiv. apply Qmult_le_compat_r; [exact Ht |].
  apply Qlt_le_weak, Qinv_lt_0_compat, Hd.
Qed.

(** The smoothstep polynomial is non-decreasing on [[0, 1]]. *)
Lemma easedProgress_monotone (p q : Q) :
  0 <= p -> p <= q -> q <= 1 -> easedProgressOf p <= easedProgressOf q.
Proof.
  intros Hp Hpq Hq. unfold easedProgressOf.
  assert (E : q * q * (3 - q * 2) - p * p * (3 - p * 2)
              == (q - p) * (3 * (p + q) - 2 * (q * q + p * q + p * p))) by ring.
  assert (F : 0 <= 3 * (p + q) - 2 * (q * q + p * q + p * p)) by nra.
  assert (G : 0 <= (q - p) * (3 * (p + q) - 2 * (q * q + p * q + p * p))).
  { apply Qmult_le_0_compat; lra. }
  lra.
Qed.

Lemma boostProgress_at_zero (boostDuration : Q) :
  boostProgressOf 0 boostDuration == 0.
Proof.
  unfold boostProgressOf, Tsl.clamp.
  assert (E : 0 / boostDuration == 0) by (unfold Qdiv; ring).
  rewrite E. rewrite Q.max_l by lra. apply Q.min_l. lra.
Qed.

Lemma boostProgress_at_duration (boostDuration : Q) :
  0 < boostDuration -> boostProgressOf boostDuration boostDuration == 1.
Proof.
  intros H. unfold boostProgressOf, Tsl.clamp.
  assert (E : boostDuration / boostDuration == 1) by (field; lra).
  rewrite E. rewrite Q.max_l by lra. apply Q.min_l. lra.
Qed.

Lemma easing_compat (p q : Q) : p == q -> easedProgressOf p == easedProgressOf q.
Proof. intros H. unfold easedProgressOf. rewrite H. reflexivity. Qed.

(** C8, as amended.  With [t] the remaining boost time fed to the gather
    kernel: the strength multiplier is non-decreasing in [t] and the velocity
    damping is non-increasing in [t].  So as [t] goes from [duration] down to
    0 the multiplier is monotonically non-increasing from 20.0 to 1.0, and
    the damping is monotonically non-decreasing from 0.7 to 0.98. *)
Theorem boost_easing_monotone (boostDuration t1 t2 : Q) :
  0 < boostDuration -> 0 <= t2 -> t2 <= t1 -> t1 <= boostDuration ->
  multiplier boostDuration t2 <= multiplier boostDuration t1 /\
  damping boostDuration t1 <= damping boostDuration t2 /\
  multiplier boostDuration boostDuration == 20 /\
  multiplier boostDuration 0 == 1 /\
  damping boostDuration boostDuration == 0.7 /\
  damping boostDuration 0 == 0.98.
Proof.
  intros Hd H0 H12 H1.
  pose proof (boostProgress_monotone boostDuration t2 t1 Hd H12) as Hp.
  destruct (clamp_range (t2 / boostDuration)) as [L2 _].
  destruct (clamp_range (t1 / boostDuration)) as [_ U1].
  fold (boostProgressOf t2 boostDuration) in L2.
  fold (boostProgressOf t1 boostDuration) in U1.
  pose proof (easedProgress_monotone _ _ L2 Hp U1) as He.
  pose proof (easing_compat _ _ (boostProgress_at_zero boostDuration)) as E0.
  pose proof (easing_compat _ _ (boostProgress_at_duration boostDuration Hd)) as E1.
  unfold multiplier, damping, boostMultiplierOf, dampingFactorOf, Tsl.mix.
  set (e1 := easedProgressOf (boostProgressOf t1 boostDuration)) in *.
  set (e2 := easedProgressOf (boostProgressOf t2 boostDuration)) in *.
  set (ed := easedProgressOf (boostProgressOf boostDuration boostDuration)) in *.
  set (ez := easedProgressOf (boostProgressOf 0 boostDuration)) in *.
  assert (V1 : easedProgressOf 1 == 1) by reflexivity.
  assert (V0 : easedProgressOf 0 == 0) by reflexivity.
  rewrite V1 in E1. rewrite V0 in E0.
  clearbody e1 e2 ed ez.
  repeat split; lra.
Qed.

Lemma boost_easing_monotone_witness :
  multiplier COLOR_SPHERES_BOOST_DURATION 0.5 <= multiplier COLOR_SPHERES_BOOST_DURATION 1 /\
  damping COLOR_SPHERES_BOOST_DURATION 1 <= damping COLOR_SPHERES_BOOST_DURATION 0.5 /\
  multiplier COLOR_SPHERES_BOOST_DURATION COLOR_SPHERES_BOOST_DURATION == 20 /\
  multiplier COLOR_SPHERES_BOOST_DURATION 0 == 1 /\
  damping COLOR_SPHERES_BOOST_DURATION COLOR_SPHERES_BOOST_DURATION == 0.7 /\
  damping COLOR_SPHERES_BOOST_DURATION 0 == 0.98.
Proof.
  apply (boost_easing_monotone COLOR_SPHERES_BOOST_DURATION 1 0.5);
    vm_compute; try reflexivity; discriminate.
Defined.

(** C8, counterexample.  As the remaining boost time goes from the duration
    1.4 down to 0 the multiplier goes from 20 down to 1: it starts at 20, not
    at 1.0, and it decreases. *)
Lemma boost_multiplier_counterexample :
  multiplier COLOR_SPHERES_BOOST_DURATION COLOR_SPHERES_BOOST_DURATION == 20 /\
  multiplier COLOR_SPHERES_BOOST_DURATION 0 == 1 /\
  ~ multiplier COLOR_SPHERES_BOOST_DURATION COLOR_SPHERES_BOOST_DURATION == 1 /\
  ~ (multiplier COLOR_SPHERES_BOOST_DURATION COLOR_SPHERES_BOOST_DURATION
     <= multiplier COLOR_SPHERES_BOOST_DURATION 0).
Proof.
  repeat split; try (vm_compute; reflexivity); intros H; vm_compute in H;
    try discriminate; apply H; reflexivity.
Qed.

(** ** Edge hiding *)

Lemma Qltb_lt (a b : Q) : Qltb a b = true <-> a < b.
Proof.
  unfold Qltb. rewrite negb_true_iff. split; intros H.
  - destruct (Qlt_le_dec a b) as [L | L]; [exact L |].
    apply Qle_bool_iff in L. congruence.
  - destruct (Qle_bool b a) eqn:E; [| reflexivity].
    apply Qle_bool_iff in E. lra.
Qed.

Lemma lt_ceiling (i : Z) (q : Q) : inject_Z i < q <-> (i < Qceiling q)%Z.
Proof.
  split; intros H.
  - pose proof (Qle_ceiling q) as C. rewrite Zlt_Qlt. lra.
  - pose proof (Qceiling_lt q) as C.
    assert (L : inject_Z i <= inject_Z (Qceiling q - 1)) by (rewrite <- Zle_Qle; lia).
    lra.
Qed.

Lemma particleIndexPercent_lt (h : Q) (N i : Z) :
  (0 < N)%Z ->
  particleIndexPercent i N < h <-> (i < Qceiling (h * inject_Z N / 100))%Z.
Proof.
  intros HN. rewrite <- lt_ceiling. unfold particleIndexPercent, Tsl.float.
  assert (P : 0 < inject_Z N) by (rewrite Zlt_Qlt in HN; exact HN).
  set (n := inject_Z N) in *. set (x := inject_Z i).
  assert (E1 : x / n * 100 == (x * 100) * / n) by (field; lra).
  assert (E2 : h * n / 100 == h * n * 0.01) by field.
  rewrite E1, E2.
  assert (I : 0 < / n) by (apply Qinv_lt_0_compat; exact P).
  assert (M : x * 100 * / n * n == x * 100) by (field; lra).
  split; intros H.
  - assert (G : x * 100 * / n * n < h * n) by (apply Qmult_lt_compat_r; assumption). lra.
  - assert (G : x * 100 < h * n) by lra.
    assert (G2 : x * 100 * / n < h * n * / n) by (apply Qmult_lt_compat_r; assumption).
    assert (M2 : h * n * / n == h) by (field; lra). lra.
Qed.

Lemma shouldHide_iff (h : Q) (N i : Z) :
  0 < h -> (0 < N)%Z ->
  shouldHide h N i = true <-> (i < Qceiling (h * inject_Z N / 100))%Z.
Proof.
  intros Hh HN. unfold shouldHide. rewrite andb_true_iff, !Qltb_lt.
  rewrite (particleIndexPercent_lt h N i HN). tauto.
Qed.

Lemma prefix_count (c : Z) (n : nat) :
  Z.of_nat (length (filter (fun i => (i <? c)%Z) (List.map Z.of_nat (seq 0 n))))
  = Z.min (Z.of_nat n) (Z.max 0 c).
Proof.
  induction n as [| n IH]; [simpl; lia |].
  rewrite seq_S, map_app, filter_app, length_app, Nat2Z.inj_add, IH.
  cbn [List.map filter Nat.add]. destruct (Z.ltb_spec (Z.of_nat n) c); cbn [length]; lia.
Qed.




(** ** Sphere containment *)

Section SphereContainment.

Import Sphere.
Local Open Scope R_scope.

Lemma length_nonneg (a : vec3R) : 0 <= length a.
Proof. apply sqrt_pos. Qed.

Lemma length_scale (k : R) (a : vec3R) : 0 <= k -> length (scale k a) = k * length a.
Proof.
  intros Hk. unfold length, scale. cbn [rx ry rz].
  replace (k * rx a * (k * rx a) + k * ry a * (k * ry a) + k * rz a * (k * rz a))
    with (k * k * (rx a * rx a + ry a * ry a + rz a * rz a)) by ring.
  rewrite sqrt_mult; [| nra | nra]. rewrite sqrt_square by exact Hk. reflexivity.
Qed.

Lemma clampR_id (x lo hi : R) : lo <= x <= hi -> clampR x lo hi = x.
Proof.
  intros [H1 H2]. unfold clampR. rewrite Rmax_left by exact H1. apply Rmin_left, H2.
Qed.

(** [dt] as [update] computes it is positive and at most 0.4. *)
Lemma updateDt_range (interval speed : R) (frontGravityMode : Z) :
  0 < interval -> 0 < speed <= 2 ->
  0 < updateDt interval speed frontGravityMode <= 0.4.
Proof.
  intros Hi Hs. unfold updateDt.
  assert (M : 0 < Rmin interval (1 / 60) <= 1 / 60).
  { split; [apply Rmin_glb_lt; lra | apply Rmin_r]. }
  set (m := Rmin interval (1 / 60)) in *. clearbody m.
  destruct (frontGravityMode =? 1)%Z; nra.
Qed.

Variable u : SphereUniforms.

Hypothesis mode_active : sphereContainmentMode u = 1%Z.
Hypothesis dt_range : 0 < dtR u <= 0.4.
Hypothesis radius_nonneg : 0 <= sphereRadius u.
Hypothesis centre_in_box : inBox u (sphereCenterOf u).

Lemma clampR_range (x lo hi : R) : lo <= hi -> lo <= clampR x lo hi <= hi.
Proof.
  intros H. unfold clampR. split.
  - apply Rmin_glb; [apply Rmax_r | exact H].
  - apply Rmin_r.
Qed.

(** [g2p] leaves every particle inside the box. *)
Lemma g2pPosition_in_box (others p : vec3R) : inBox u (g2pPosition u false others p).
Proof.
  destruct centre_in_box as [[A1 A2] [[B1 B2] [C1 C2]]].
  unfold g2pPosition, integrate, clampV, inBox. cbn [rx ry rz].
  repeat split; apply clampR_range; lra.
Qed.

(** One step from a position outside the sphere, the rest of the velocity
    being [k] times the vector from the particle to the centre: the particle
    moves along the segment to the centre. *)
Lemma g2pPosition_outside (p : vec3R) (k : R) :
  inBox u p -> sphereRadius u < distToCenterOf u p ->
  0 <= k -> 0.3 * (dtR u * dtR u) + dtR u * k <= 1 ->
  distToCenterOf u (g2pPosition u false (scale (- k) (sub p (sphereCenterOf u))) p)
  = distToCenterOf u p
    - (0.3 * (dtR u * dtR u) * (distToCenterOf u p - sphereRadius u)
       + dtR u * k * distToCenterOf u p).
Proof.
  intros Hp Hout Hk0 Hk1.
  set (c := sphereCenterOf u) in *. set (D := distToCenterOf u p) in *.
  set (R0 := sphereRadius u) in *.
  assert (HD : 0 < D) by lra.
  set (lam := dtR u * dtR u * ((D - R0) * 0.3) * / D + dtR u * k).
  assert (Hinv : 0 < / D) by (apply Rinv_0_lt_compat; exact HD).
  assert (HDinv : D * / D = 1) by (apply Rinv_r; lra).
  assert (Hdd : 0 < dtR u * dtR u) by nra.
  assert (HlamD : lam * D = dtR u * dtR u * ((D - R0) * 0.3) + dtR u * k * D).
  { unfold lam. rewrite Rmult_plus_distr_r.
    rewrite (Rmult_assoc (dtR u * dtR u * ((D - R0) * 0.3))), (Rmult_comm (/ D) D), HDinv.
    ring. }
  assert (Hlam0 : 0 <= lam).
  { unfold lam. apply Rplus_le_le_0_compat; [| nra].
    apply Rmult_le_pos; [| lra]. apply Rmult_le_pos; nra. }
  assert (Hlam1 : lam <= 1).
  { assert (lam * D <= 1 * D) by (rewrite HlamD; nra).
    apply (Rmult_le_reg_r D); assumption. }
  assert (Epos : g2pPosition u false (scale (- k) (sub p c)) p
                 = clampV (mkVec3R (rx p - lam * (rx p - rx c)) (ry p - lam * (ry p - ry c))
                                   (rz p - lam * (rz p - rz c)))
                          boxMin (boxMax u)).
  { unfold g2pPosition, sphereContainment, integrate. rewrite mode_active.
    cbn [Z.eqb Pos.eqb negb andb].
    fold c. change (length (sub p c)) with D. fold R0.
    destruct (Rlt_dec R0 D) as [_ | N]; [| contradiction].
    f_equal. unfold normalize. change (length (sub p c)) with D.
    unfold add, scale, negate, zero, sub. cbn [rx ry rz].
    unfold lam. f_equal; ring. }
  destruct Hp as [[X1 X2] [[Y1 Y2] [Z1 Z2]]].
  destruct centre_in_box as [[A1 A2] [[B1 B2] [C1 C2]]]. fold c in A1, A2, B1, B2, C1, C2.
  assert (Ex : clampR (rx p - lam * (rx p - rx c)) (rx boxMin) (rx (boxMax u))
               = rx p - lam * (rx p - rx c)) by (apply clampR_id; nra).
  assert (Ey : clampR (ry p - lam * (ry p - ry c)) (ry boxMin) (ry (boxMax u))
               = ry p - lam * (ry p - ry c)) by (apply clampR_id; nra).
  assert (Ez : clampR (rz p - lam * (rz p - rz c)) (rz boxMin) (rz (boxMax u))
               = rz p - lam * (rz p - rz c)) by (apply clampR_id; nra).
  rewrite Epos. unfold clampV. cbn [rx ry rz]. rewrite Ex, Ey, Ez.
  unfold distToCenterOf. fold c.
  replace (sub (mkVec3R (rx p - lam * (rx p - rx c)) (ry p - lam * (ry p - ry c))
                        (rz p - lam * (rz p - rz c))) c)
    with (scale (1 - lam) (sub p c)).
  - rewrite length_scale by lra. change (length (sub p c)) with D.
    replace ((1 - lam) * D) with (D - lam * D) by ring. rewrite HlamD. ring.
  - unfold scale, sub. cbn [rx ry rz]. f_equal; ring.
Qed.

Lemma trajectory_in_box (others : nat -> vec3R) (p0 : vec3R) (n : nat) :
  inBox u p0 -> inBox u (trajectory u others n p0).
Proof.
  intros Hp. destruct n as [| n]; [exact Hp |]. cbn [trajectory]. apply g2pPosition_in_box.
Qed.

Lemma trajectory_decreasing (others : nat -> vec3R) (p0 : vec3R) (n : nat) :
  inBox u p0 -> noCompetingForce u others p0 ->
  sphereRadius u < distToCenterOf u (trajectory u others n p0) ->
  distToCenterOf u (trajectory u others (S n) p0)
  < distToCenterOf u (trajectory u others n p0).
Proof.
  intros Hp Hf Hout. destruct (Hf n) as [k [Hk0 [Hk1 Ek]]].
  cbn [trajectory]. rewrite Ek.
  rewrite (g2pPosition_outside _ k (trajectory_in_box others p0 n Hp) Hout Hk0 Hk1).
  set (D := distToCenterOf u (trajectory u others n p0)) in *.
  assert (Hdd : 0 < dtR u * dtR u) by nra.
  assert (0 < 0.3 * (dtR u * dtR u) * (D - sphereRadius u)) by nra.
  assert (0 <= dtR u * k * D) by (apply Rmult_le_pos; nra).
  lra.
Qed.

End SphereContainment.


Lemma simulatorSphere_box (a : Sphere.vec3R) :
  (2 <= Sphere.rx a <= 126)%R -> (2 <= Sphere.ry a <= 62)%R -> (2 <= Sphere.rz a <= 62)%R ->
  Sphere.inBox Sphere.simulatorSphere a.
Proof.
  intros Hx Hy Hz. unfold Sphere.inBox, Sphere.boxMin, Sphere.boxMax.
  cbn [Sphere.rx Sphere.ry Sphere.rz Sphere.gridSizeR Sphere.simulatorSphere simulatorGrid ix iy iz].
  change (isub 128 2) with 126%Z. change (isub 64 2) with 62%Z.
  repeat split; lra.
Qed.

Lemma at_rest_no_competing_force (p0 : Sphere.vec3R) :
  Sphere.noCompetingForce Sphere.simulatorSphere (fun _ => Sphere.zero) p0.
Proof.
  intros n. exists 0%R.
  pose proof (updateDt_range (1 / 60) 1 0 ltac:(lra) ltac:(lra)) as Hd.
  change (Sphere.updateDt (1 / 60) 1 0) with (Sphere.dtR Sphere.simulatorSphere) in Hd.
  split; [lra | split; [nra |]].
  unfold Sphere.scale, Sphere.zero. f_equal; ring.
Qed.


(** * Further properties *)

(** ** The fixed-point codec on encoded values *)

Lemma Qtrunc_compat (a b : Q) : a == b -> Tsl.Qtrunc a = Tsl.Qtrunc b.
Proof.
  destruct a as [na da], b as [nb db]. unfold Qeq, Tsl.Qtrunc; simpl. intros H.
  rewrite <- (Z.quot_mul_cancel_r na (Zpos da) (Zpos db)) by lia.
  rewrite <- (Z.quot_mul_cancel_r nb (Zpos db) (Zpos da)) by lia.
  rewrite H. f_equal. lia.
Qed.

Lemma Qtrunc_inject_Z (z : Z) : Tsl.Qtrunc (inject_Z z) = z.
Proof. unfold Tsl.Qtrunc; simpl. apply Z.quot_1_r. Qed.

Lemma Qtrunc_monotone (a b : Q) : a <= b -> (Tsl.Qtrunc a <= Tsl.Qtrunc b)%Z.
Proof.
  intros H.
  destruct (Qlt_le_dec a 0) as [Ha | Ha]; destruct (Qlt_le_dec b 0) as [Hb | Hb].
  - destruct (Qtrunc_nonpos a (Qlt_le_weak _ _ Ha)) as [A1 A2].
    destruct (Qtrunc_nonpos b (Qlt_le_weak _ _ Hb)) as [B1 B2].
    assert (L : inject_Z (Tsl.Qtrunc a) < inject_Z (Tsl.Qtrunc b + 1)).
    { rewrite inject_Z_plus. change (inject_Z 1) with 1. lra. }
    rewrite <- Zlt_Qlt in L. lia.
  - pose proof (Qtrunc_sign_nonpos a (Qlt_le_weak _ _ Ha)).
    pose proof (Qtrunc_sign_nonneg b Hb). lia.
  - lra.
  - destruct (Qtrunc_nonneg a Ha) as [A1 A2].
    destruct (Qtrunc_nonneg b Hb) as [B1 B2].
    assert (L : inject_Z (Tsl.Qtrunc a) < inject_Z (Tsl.Qtrunc b + 1)).
    { rewrite inject_Z_plus. change (inject_Z 1) with 1. lra. }
    rewrite <- Zlt_Qlt in L. lia.
Qed.

Lemma Qtrunc_opp (a : Q) : Tsl.Qtrunc (- a) = (- Tsl.Qtrunc a)%Z.
Proof. destruct a as [n d]. unfold Tsl.Qtrunc; simpl. apply Z.quot_opp_l. lia. Qed.

Lemma int_monotone (a b : Q) : a <= b -> (Tsl.int a <= Tsl.int b)%Z.
Proof. intros H. pose proof (Qtrunc_monotone a b H). unfold Tsl.int. lia. Qed.



(** The encoder preserves order over all rationals, the saturated ends
    included. *)
Lemma encodeFixedPoint_monotone (f g : Q) :
  f <= g -> (encodeFixedPoint f <= encodeFixedPoint g)%Z.
Proof.
  intros H. unfold encodeFixedPoint. apply int_monotone.
  unfold fixedPointMultiplier. nra.
Qed.

(** A value whose scaled magnitude reaches the end of the i32 range is
    encoded as that end: the encoder saturates, it does not wrap around. *)
Theorem encodeFixedPoint_saturates (f g : Q) :
  inject_Z Tsl.INT32_MAX <= f * fixedPointMultiplier ->
  g * fixedPointMultiplier <= inject_Z Tsl.INT32_MIN ->
  encodeFixedPoint f = Tsl.INT32_MAX /\ encodeFixedPoint g = Tsl.INT32_MIN.
Proof.
  unfold encodeFixedPoint, Tsl.int. intros Hf Hg.
  pose proof (Qtrunc_monotone _ _ Hf) as Mf. rewrite Qtrunc_inject_Z in Mf.
  pose proof (Qtrunc_monotone _ _ Hg) as Mg. rewrite Qtrunc_inject_Z in Mg.
  unfold Tsl.INT32_MAX, Tsl.INT32_MIN in *. lia.
Qed.

Lemma encodeFixedPoint_saturates_witness :
  encodeFixedPoint 300 = Tsl.INT32_MAX /\ encodeFixedPoint (-300) = Tsl.INT32_MIN.
Proof.
  apply (encodeFixedPoint_saturates 300 (-300)); vm_compute; discriminate.
Defined.

(** Truncation is symmetric about zero: below saturation a value and its
    opposite encode to opposite integers, so the momentum contributions of
    opposite velocities cancel exactly in an accumulator. *)
Theorem encodeFixedPoint_odd (f : Q) :
  Qabs (f * fixedPointMultiplier) <= inject_Z Tsl.INT32_MAX ->
  encodeFixedPoint (- f) = (- encodeFixedPoint f)%Z /\
  Tsl.atomicAdd (Tsl.atomicAdd 0 (encodeFixedPoint f)) (encodeFixedPoint (- f)) = 0%Z.
Proof.
  intros H. apply Qabs_Qle_condition in H. destruct H as [H1 H2].
  assert (Hmin : inject_Z Tsl.INT32_MIN <= - inject_Z Tsl.INT32_MAX).
  { rewrite <- inject_Z_opp, <- Zle_Qle. unfold Tsl.INT32_MIN, Tsl.INT32_MAX. lia. }
  assert (E : encodeFixedPoint (- f) = (- encodeFixedPoint f)%Z).
  { unfold encodeFixedPoint.
    rewrite (int_in_range (f * fixedPointMultiplier)) by lra.
    rewrite (int_in_range (- f * fixedPointMultiplier)) by lra.
    rewrite <- Qtrunc_opp. apply Qtrunc_compat. ring. }
  split; [exact E |].
  rewrite E. unfold Tsl.atomicAdd. rewrite wrap32_add_l.
  replace (0 + encodeFixedPoint f + - encodeFixedPoint f)%Z with 0%Z by lia.
  reflexivity.
Qed.

Lemma encodeFixedPoint_odd_witness :
  encodeFixedPoint (- 0.7) = (- encodeFixedPoint 0.7)%Z /\
  Tsl.atomicAdd (Tsl.atomicAdd 0 (encodeFixedPoint 0.7)) (encodeFixedPoint (- 0.7)) = 0%Z.
Proof.
  apply (encodeFixedPoint_odd 0.7). vm_compute. discriminate.
Defined.

(** ** Cell indices and cell coordinates *)

Lemma grid_dims_positive (u : Uniforms) (idx : Z) :
  (0 < iy (gridSize u))%Z -> (0 < iz (gridSize u))%Z ->
  (0 <= idx < cellCount u)%Z -> (0 < ix (gridSize u))%Z.
Proof. unfold cellCount. intros Hy Hz H. nia. Qed.

(** Distinct cells of the grid never share an accumulator: [getCellPtr] is
    injective on the cells inside the grid. *)
Theorem getCellPtr_injective (u : Uniforms) (a b : ivec3) :
  (cellCount u <= Tsl.INT32_MAX)%Z ->
  (0 <= ix a < ix (gridSize u))%Z -> (0 <= iy a < iy (gridSize u))%Z ->
  (0 <= iz a < iz (gridSize u))%Z ->
  (0 <= ix b < ix (gridSize u))%Z -> (0 <= iy b < iy (gridSize u))%Z ->
  (0 <= iz b < iz (gridSize u))%Z ->
  a <> b -> (getCellPtr u a =? getCellPtr u b)%Z = false.
Proof.
  intros Hf Ax Ay Az Bx By Bz N. apply Z.eqb_neq. intros E. apply N.
  destruct a as [ax ay az], b as [bx by' bz]. cbn [ix iy iz] in *.
  destruct (cellCoord_getCellPtr u Hf ax ay az Ax Ay Az) as [A1 [A2 A3]].
  destruct (cellCoord_getCellPtr u Hf bx by' bz Bx By Bz) as [B1 [B2 B3]].
  rewrite E in A1, A2, A3. congruence.
Qed.

Lemma getCellPtr_injective_witness :
  (getCellPtr exampleUniforms (mkIvec3 3 4 5) =? getCellPtr exampleUniforms (mkIvec3 3 5 4))%Z
  = false.
Proof.
  apply (getCellPtr_injective exampleUniforms (mkIvec3 3 4 5) (mkIvec3 3 5 4));
    try (vm_compute; split; congruence); discriminate.
Defined.

(** The coordinates that [updateGrid] recovers from a cell index are those
    of a cell of the grid, and [getCellPtr] maps them back to the index:
    every index below [cellCount] is the pointer of exactly the cell whose
    boundary test the kernel applies to it. *)
Theorem getCellPtr_cellCoord (u : Uniforms) (idx : Z) :
  (cellCount u <= Tsl.INT32_MAX)%Z ->
  (0 < iy (gridSize u))%Z -> (0 < iz (gridSize u))%Z ->
  (0 <= idx < cellCount u)%Z ->
  (0 <= cellCoordX u idx < ix (gridSize u))%Z /\
  (0 <= cellCoordY u idx < iy (gridSize u))%Z /\
  (0 <= cellCoordZ u idx < iz (gridSize u))%Z /\
  getCellPtr u (mkIvec3 (cellCoordX u idx) (cellCoordY u idx) (cellCoordZ u idx)) = idx.
Proof.
  intros Hf Hy Hz Hi.
  pose proof (grid_dims_positive u idx Hy Hz Hi) as Hx.
  unfold cellCoordX, cellCoordY, cellCoordZ.
  set (gx := ix (gridSize u)) in *. set (gy := iy (gridSize u)) in *.
  set (gz := iz (gridSize u)) in *.
  assert (Q0 : (0 <= idx / gz)%Z) by (apply Z.div_pos; lia).
  rewrite (Z.quot_div_nonneg idx gz) by lia.
  rewrite (Z.rem_mod_nonneg idx gz) by lia.
  rewrite (Z.quot_div_nonneg (idx / gz) gy) by lia.
  rewrite (Z.rem_mod_nonneg (idx / gz) gy) by lia.
  pose proof (Z.div_mod idx gz ltac:(lia)) as D1.
  pose proof (Z.mod_pos_bound idx gz Hz) as M1.
  pose proof (Z.div_mod (idx / gz) gy ltac:(lia)) as D2.
  pose proof (Z.mod_pos_bound (idx / gz) gy Hy) as M2.
  assert (X0 : (0 <= idx / gz / gy)%Z) by (apply Z.div_pos; lia).
  assert (X1 : (idx / gz / gy < gx)%Z).
  { apply Z.div_lt_upper_bound; [lia |]. apply Z.div_lt_upper_bound; [lia |].
    unfold cellCount in Hi. fold gx gy gz in Hi. nia. }
  split; [lia | split; [lia | split; [lia |]]].
  destruct (getCellPtr_in_grid u Hf (idx / gz / gy) ((idx / gz) mod gy) (idx mod gz))
    as [E _]; [fold gx; lia | fold gy; lia | fold gz; lia |].
  rewrite E. fold gy gz. nia.
Qed.

Lemma getCellPtr_cellCoord_witness :
  (0 <= cellCoordX exampleUniforms 100000 < 128)%Z /\
  (0 <= cellCoordY exampleUniforms 100000 < 64)%Z /\
  (0 <= cellCoordZ exampleUniforms 100000 < 64)%Z /\
  getCellPtr exampleUniforms
    (mkIvec3 (cellCoordX exampleUniforms 100000) (cellCoordY exampleUniforms 100000)
             (cellCoordZ exampleUniforms 100000)) = 100000%Z.
Proof.
  apply (getCellPtr_cellCoord exampleUniforms 100000); vm_compute;
    try reflexivity; try discriminate; split; congruence.
Defined.

(** ** Scatter-1 as a set of atomic additions *)

Lemma scatter1_swap (cb : Z -> Cell) (c1 c2 : Contribution) :
  scatter1 (scatter1 cb c1) c2 = scatter1 (scatter1 cb c2) c1.
Proof. apply functional_extensionality. intros j. apply scatter1_commute. Qed.

Lemma scatter1_permutation (l l' : list Contribution) :
  Permutation l l' ->
  forall cb, fold_left scatter1 l cb = fold_left scatter1 l' cb.
Proof.
  induction 1 as [| c l l' _ IH | c1 c2 l | l l' l'' _ IH1 _ IH2]; intros cb.
  - reflexivity.
  - cbn [fold_left]. apply IH.
  - cbn [fold_left]. rewrite scatter1_swap. reflexivity.
  - rewrite IH1. apply IH2.
Qed.

Lemma p2g1_from_contributions (u : Uniforms) (n : nat) : forall (start : Z) (s : State),
  dispatch_from n start (p2g1 u) s =
  Some (mkState (fold_left scatter1 (contributionsFrom u (particleBuffer s) n start)
                   (cellBuffer s))
                (cellBufferF s) (particleBuffer s)).
Proof.
  induction n as [| n IH]; intros start s.
  - destruct s; reflexivity.
  - cbn [dispatch_from contributionsFrom]. unfold p2g1 at 1.
    destruct (start >=? numParticles u)%Z.
    + rewrite IH. reflexivity.
    + rewrite IH. cbn [cellBuffer cellBufferF particleBuffer].
      rewrite fold_left_app. reflexivity.
Qed.

(** The Scatter-1 pass leaves in the cell buffer the result of applying
    the atomic additions of all active particles, and the result is the same
    in whatever order the additions are applied: running the invocations
    one after the other loses nothing of the parallel pass. *)
Theorem p2g1_order_independent (u : Uniforms) (s : State) (l : list Contribution) :
  Permutation l (allContributions u (particleBuffer s)) ->
  dispatch (numParticles u) (p2g1 u) s =
  Some (mkState (fold_left scatter1 l (cellBuffer s)) (cellBufferF s) (particleBuffer s)).
Proof.
  intros H. unfold dispatch. rewrite p2g1_from_contributions.
  rewrite (scatter1_permutation _ _ H). reflexivity.
Qed.

Lemma p2g1_order_independent_witness :
  dispatch (numParticles exampleUniforms) (p2g1 exampleUniforms) exampleState =
  Some (mkState
          (fold_left scatter1
             (rev (allContributions exampleUniforms (particleBuffer exampleState)))
             (cellBuffer exampleState))
          (cellBufferF exampleState) (particleBuffer exampleState)).
Proof.
  apply (p2g1_order_independent exampleUniforms exampleState).
  apply Permutation_sym, Permutation_rev.
Defined.

(** ** Moments of the stencil: what the transfers conserve *)

Lemma Qtrunc_floor (x : Q) : 0 <= x -> Tsl.Qtrunc x = Qfloor x.
Proof.
  intros H. destruct (Qtrunc_nonneg x H) as [T1 T2].
  pose proof (Qfloor_le x) as F1. pose proof (Qlt_floor x) as F2.
  rewrite inject_Z_plus in F2. change (inject_Z 1) with 1 in F2.
  assert (A : inject_Z (Tsl.Qtrunc x) < inject_Z (Qfloor x + 1)).
  { rewrite inject_Z_plus. change (inject_Z 1) with 1. lra. }
  assert (B : inject_Z (Qfloor x) < inject_Z (Tsl.Qtrunc x + 1)).
  { rewrite inject_Z_plus. change (inject_Z 1) with 1. lra. }
  rewrite <- Zlt_Qlt in A, B. lia.
Qed.

(** On one axis: the offset of stencil cell [g] from the particle is
    [g - 1 - cellDiff]. *)
Lemma axis_offset (x : Q) (g size : Z) :
  (size <= Tsl.INT32_MAX)%Z -> 2 <= x -> x <= inject_Z (size - 2) -> (0 <= g <= 2)%Z ->
  Tsl.float (iadd (isub (Tsl.int x) 1) g) + 0.5 - x
  == inject_Z g - 1 - (Tsl.fract x - 0.5).
Proof.
  intros Hs Hlo Hhi Hg.
  assert (Hx : 0 <= x) by lra.
  destruct (Qtrunc_nonneg x Hx) as [T1 T2].
  assert (Ht : (2 <= Tsl.Qtrunc x <= size - 2)%Z).
  { split.
    - assert (L : inject_Z 2 < inject_Z (Tsl.Qtrunc x + 1)).
      { rewrite inject_Z_plus. change (inject_Z 2) with 2. change (inject_Z 1) with 1. lra. }
      rewrite <- Zlt_Qlt in L. lia.
    - rewrite Zle_Qle. lra. }
  assert (Ei : Tsl.int x = Qfloor x).
  { rewrite <- (Qtrunc_floor x Hx). unfold Tsl.int, Tsl.INT32_MIN, Tsl.INT32_MAX in *. lia. }
  rewrite (Qtrunc_floor x Hx) in Ht.
  unfold iadd, isub, Tsl.float, Tsl.fract. rewrite Ei.
  rewrite (wrap32_id (Qfloor x - 1)) by (unfold Tsl.INT32_MIN, Tsl.INT32_MAX in *; lia).
  rewrite (wrap32_id (Qfloor x - 1 + g)) by (unfold Tsl.INT32_MIN, Tsl.INT32_MAX in *; lia).
  rewrite inject_Z_plus. unfold Z.sub. rewrite inject_Z_plus.
  change (inject_Z (- (1))) with (-1). ring.
Qed.

Lemma stencil_index_range (g : ivec3) :
  In g stencil -> (0 <= ix g <= 2 /\ 0 <= iy g <= 2 /\ 0 <= iz g <= 2)%Z.
Proof.
  intros Hg. unfold stencil in Hg. simpl in Hg.
  repeat (destruct Hg as [Hg | Hg]; [subst g; simpl; lia |]). destruct Hg.
Qed.

Lemma inGrid_sizes (u : Uniforms) (pos : vec3) :
  (cellCount u <= Tsl.INT32_MAX)%Z -> inGrid u pos ->
  (ix (gridSize u) <= Tsl.INT32_MAX /\ iy (gridSize u) <= Tsl.INT32_MAX /\
   iz (gridSize u) <= Tsl.INT32_MAX)%Z.
Proof.
  intros Hf [[X1 X2] [[Y1 Y2] [Z1 Z2]]].
  set (gx := ix (gridSize u)) in *. set (gy := iy (gridSize u)) in *.
  set (gz := iz (gridSize u)) in *.
  assert (Sx : (4 <= gx)%Z).
  { assert (H : inject_Z 2 <= inject_Z (gx - 2)) by (eapply Qle_trans; [exact X1 | exact X2]).
    rewrite <- Zle_Qle in H. lia. }
  assert (Sy : (4 <= gy)%Z).
  { assert (H : inject_Z 2 <= inject_Z (gy - 2)) by (eapply Qle_trans; [exact Y1 | exact Y2]).
    rewrite <- Zle_Qle in H. lia. }
  assert (Sz : (4 <= gz)%Z).
  { assert (H : inject_Z 2 <= inject_Z (gz - 2)) by (eapply Qle_trans; [exact Z1 | exact Z2]).
    rewrite <- Zle_Qle in H. lia. }
  assert (Pxy : (16 <= gx * gy)%Z) by nia.
  assert (Pyz : (16 <= gy * gz)%Z) by nia.
  assert (Pxz : (16 <= gx * gz)%Z) by nia.
  unfold cellCount in Hf. fold gx gy gz in Hf.
  assert (Cx : (gx <= gx * gy * gz)%Z).
  { replace (gx * gy * gz)%Z with (gx * (gy * gz))%Z by ring. nia. }
  assert (Cy : (gy <= gx * gy * gz)%Z).
  { replace (gx * gy * gz)%Z with (gy * (gx * gz))%Z by ring. nia. }
  assert (Cz : (gz <= gx * gy * gz)%Z) by nia.
  lia.
Qed.

Lemma cellDist_offset (u : Uniforms) (pos : vec3) (g : ivec3) :
  (cellCount u <= Tsl.INT32_MAX)%Z -> inGrid u pos -> In g stencil ->
  vx (cellDistOf pos g) == inject_Z (ix g) - 1 - vx (cellDiffOf pos) /\
  vy (cellDistOf pos g) == inject_Z (iy g) - 1 - vy (cellDiffOf pos) /\
  vz (cellDistOf pos g) == inject_Z (iz g) - 1 - vz (cellDiffOf pos).
Proof.
  intros Hf Hin Hg.
  destruct (inGrid_sizes u pos Hf Hin) as [Sx [Sy Sz]].
  destruct Hin as [[X1 X2] [[Y1 Y2] [Z1 Z2]]].
  destruct (stencil_index_range g Hg) as [Gx [Gy Gz]].
  unfold cellDistOf, cellXOf, baseCell, cellDiffOf, Vec.to_ivec3, Vec.of_ivec3, Vec.add,
    Vec.sub, Vec.splat, Vec.map. cbn [vx vy vz ix iy iz].
  split; [| split].
  - apply (axis_offset (vx pos) (ix g) (ix (gridSize u))); assumption.
  - apply (axis_offset (vy pos) (iy g) (iy (gridSize u))); assumption.
  - apply (axis_offset (vz pos) (iz g) (iz (gridSize u))); assumption.
Qed.

Lemma Vsum_components (l : list vec3) :
  vx (Vsum l) = Qsum (List.map vx l) /\ vy (Vsum l) = Qsum (List.map vy l) /\
  vz (Vsum l) = Qsum (List.map vz l).
Proof.
  induction l as [| a l [IH1 [IH2 IH3]]]; [repeat split |].
  cbn [Vsum fold_right List.map Qsum Vec.add vx vy vz].
  fold (Vsum l). fold (Qsum (List.map vx l)). fold (Qsum (List.map vy l)).
  fold (Qsum (List.map vz l)). rewrite IH1, IH2, IH3. repeat split.
Qed.

(** The moments of the stencil weights about the particle: they sum to 1,
    their first moment is zero and their second moment is a quarter of the
    identity. *)
Lemma stencil_moments (pos : vec3) (k0 kx ky kz kxx kyy kzz kxy kxz kyz : Q) :
  Qsum (List.map
          (fun g =>
             weightOf pos g *
             (k0 + kx * (inject_Z (ix g) - 1 - vx (cellDiffOf pos))
                 + ky * (inject_Z (iy g) - 1 - vy (cellDiffOf pos))
                 + kz * (inject_Z (iz g) - 1 - vz (cellDiffOf pos))
                 + kxx * (inject_Z (ix g) - 1 - vx (cellDiffOf pos))
                       * (inject_Z (ix g) - 1 - vx (cellDiffOf pos))
                 + kyy * (inject_Z (iy g) - 1 - vy (cellDiffOf pos))
                       * (inject_Z (iy g) - 1 - vy (cellDiffOf pos))
                 + kzz * (inject_Z (iz g) - 1 - vz (cellDiffOf pos))
                       * (inject_Z (iz g) - 1 - vz (cellDiffOf pos))
                 + kxy * (inject_Z (ix g) - 1 - vx (cellDiffOf pos))
                       * (inject_Z (iy g) - 1 - vy (cellDiffOf pos))
                 + kxz * (inject_Z (ix g) - 1 - vx (cellDiffOf pos))
                       * (inject_Z (iz g) - 1 - vz (cellDiffOf pos))
                 + kyz * (inject_Z (iy g) - 1 - vy (cellDiffOf pos))
                       * (inject_Z (iz g) - 1 - vz (cellDiffOf pos))))
          stencil)
  == k0 + (kxx + kyy + kzz) * 0.25.
Proof.
  unfold weightOf, weightAt. set (d := cellDiffOf pos). clearbody d.
  destruct d as [x y z]. simpl. ring.
Qed.

(** Scatter-1 conserves momentum before encoding: whatever the affine
    matrix [C] of the particle, the 27 velocity contributions it scatters
    sum to its velocity (its mass weights sum to 1). *)
Theorem p2g1_momentum_conservation (u : Uniforms) (p : Particle) :
  (cellCount u <= Tsl.INT32_MAX)%Z -> inGrid u (position p) ->
  veq (Vsum (List.map velContrib (p2g1Contributions u p))) (velocity p).
Proof.
  intros Hf Hin.
  destruct (Vsum_components (List.map velContrib (p2g1Contributions u p))) as [E1 [E2 E3]].
  unfold veq. rewrite E1, E2, E3. unfold p2g1Contributions. rewrite !map_map.
  set (pos := position p) in *.
  split; [| split].
  - eapply Qeq_trans;
      [| eapply Qeq_trans;
         [apply (stencil_moments pos (vx (velocity p)) (vx (col0 (C p))) (vx (col1 (C p)))
                   (vx (col2 (C p))) 0 0 0 0 0 0) | ring]].
    apply Qsum_map_ext. intros g Hg.
      destruct (cellDist_offset u pos g Hf Hin Hg) as [Dx [Dy Dz]].
      unfold p2g1Contribution. fold pos.
      cbn [velContrib Vec.scale Vec.add Vec.mulv vx vy vz].
      rewrite Dx, Dy, Dz. ring.
  - eapply Qeq_trans;
      [| eapply Qeq_trans;
         [apply (stencil_moments pos (vy (velocity p)) (vy (col0 (C p))) (vy (col1 (C p)))
                   (vy (col2 (C p))) 0 0 0 0 0 0) | ring]].
    apply Qsum_map_ext. intros g Hg.
      destruct (cellDist_offset u pos g Hf Hin Hg) as [Dx [Dy Dz]].
      unfold p2g1Contribution. fold pos.
      cbn [velContrib Vec.scale Vec.add Vec.mulv vx vy vz].
      rewrite Dx, Dy, Dz. ring.
  - eapply Qeq_trans;
      [| eapply Qeq_trans;
         [apply (stencil_moments pos (vz (velocity p)) (vz (col0 (C p))) (vz (col1 (C p)))
                   (vz (col2 (C p))) 0 0 0 0 0 0) | ring]].
    apply Qsum_map_ext. intros g Hg.
      destruct (cellDist_offset u pos g Hf Hin Hg) as [Dx [Dy Dz]].
      unfold p2g1Contribution. fold pos.
      cbn [velContrib Vec.scale Vec.add Vec.mulv vx vy vz].
      rewrite Dx, Dy, Dz. ring.
Qed.

Lemma p2g1_momentum_conservation_witness :
  veq (Vsum (List.map velContrib (p2g1Contributions exampleUniforms exampleParticle)))
      (velocity exampleParticle).
Proof.
  apply (p2g1_momentum_conservation exampleUniforms exampleParticle).
  - exact example_fits.
  - unfold inGrid. vm_compute. repeat split; discriminate.
Defined.

(** *** The gather loop of [g2p] *)

Lemma fold_left_component {A S : Type} (F : S -> A -> S) (pi : S -> Q) (t : A -> Q) :
  (forall a g, pi (F a g) == pi a + t g) ->
  forall l a, pi (fold_left F l a) == pi a + Qsum (List.map t l).
Proof.
  intros H l. induction l as [| g l IH]; intros a; simpl; [ring |].
  rewrite IH, H. ring.
Qed.

Section Gather.

Variable u : Uniforms.
Variable cbF : Z -> vec4.
Variables pos v0 : vec3.
Variable A : mat3.

Hypothesis cellCount_fits : (cellCount u <= Tsl.INT32_MAX)%Z.
Hypothesis pos_in_grid : inGrid u pos.
Hypothesis affine_field : forall g, In g stencil ->
  veq (xyz (cbF (getCellPtr u (cellXOf pos g))))
      (Vec.add v0 (Vec.mulv A (cellDistOf pos g))).

(** A weighted sum over the stencil of the grid velocity times a polynomial
    in the cell offset, for an affine grid velocity. *)
Ltac moment k0 kx ky kz kxx kyy kzz kxy kxz kyz :=
  eapply Qeq_trans;
    [| eapply Qeq_trans;
       [apply (stencil_moments pos k0 kx ky kz kxx kyy kzz kxy kxz kyz) | ring]];
  apply Qsum_map_ext; intros g Hg;
  destruct (affine_field g Hg) as [Fx [Fy Fz]];
  destruct (cellDist_offset u pos g cellCount_fits pos_in_grid Hg) as [Dx [Dy Dz]];
  cbn [xyz Vec.add Vec.mulv Vec.scale vx vy vz] in Fx, Fy, Fz;
  rewrite ?Fx, ?Fy, ?Fz, Dx, Dy, Dz; ring.

Ltac component pi t :=
  eapply Qeq_trans;
    [apply (fold_left_component (gatherStep u cbF pos) pi t); intros a g;
     destruct a as [B v]; cbn; ring |];
  cbn [fst snd Vec.mzero Vec.splat col0 col1 col2 vx vy vz].

Lemma gather_velocity_x (vel : vec3) :
  vx (snd (fold_left (gatherStep u cbF pos) stencil (Vec.mzero, vel))) == vx vel + vx v0.
Proof.
  component (fun a : mat3 * vec3 => vx (snd a))
            (fun g => weightOf pos g * v4x (cbF (getCellPtr u (cellXOf pos g)))).
  apply Qplus_comp; [reflexivity |].
  moment (vx v0) (vx (col0 A)) (vx (col1 A)) (vx (col2 A)) 0 0 0 0 0 0.
Qed.

Lemma gather_B_0x (vel : vec3) :
  vx (col0 (fst (fold_left (gatherStep u cbF pos) stencil (Vec.mzero, vel))))
  == 0.25 * vx (col0 A).
Proof.
  component (fun a : mat3 * vec3 => vx (col0 (fst a)))
            (fun g => vx (cellDistOf pos g)
                      * (weightOf pos g * v4x (cbF (getCellPtr u (cellXOf pos g))))).
  rewrite Qplus_0_l.
  moment 0 (vx v0) 0 0 (vx (col0 A)) 0 0 (vx (col1 A)) (vx (col2 A)) 0.
Qed.

Lemma gather_B_1x (vel : vec3) :
  vx (col1 (fst (fold_left (gatherStep u cbF pos) stencil (Vec.mzero, vel))))
  == 0.25 * vx (col1 A).
Proof.
  component (fun a : mat3 * vec3 => vx (col1 (fst a)))
            (fun g => vy (cellDistOf pos g)
                      * (weightOf pos g * v4x (cbF (getCellPtr u (cellXOf pos g))))).
  rewrite Qplus_0_l.
  moment 0 0 (vx v0) 0 0 (vx (col1 A)) 0 (vx (col0 A)) 0 (vx (col2 A)).
Qed.

Lemma gather_B_2x (vel : vec3) :
  vx (col2 (fst (fold_left (gatherStep u cbF pos) stencil (Vec.mzero, vel))))
  == 0.25 * vx (col2 A).
Proof.
  component (fun a : mat3 * vec3 => vx (col2 (fst a)))
            (fun g => vz (cellDistOf pos g)
                      * (weightOf pos g * v4x (cbF (getCellPtr u (cellXOf pos g))))).
  rewrite Qplus_0_l.
  moment 0 0 0 (vx v0) 0 0 (vx (col2 A)) 0 (vx (col0 A)) (vx (col1 A)).
Qed.

Lemma gather_velocity_y (vel : vec3) :
  vy (snd (fold_left (gatherStep u cbF pos) stencil (Vec.mzero, vel))) == vy vel + vy v0.
Proof.
  component (fun a : mat3 * vec3 => vy (snd a))
            (fun g => weightOf pos g * v4y (cbF (getCellPtr u (cellXOf pos g)))).
  apply Qplus_comp; [reflexivity |].
  moment (vy v0) (vy (col0 A)) (vy (col1 A)) (vy (col2 A)) 0 0 0 0 0 0.
Qed.

Lemma gather_B_0y (vel : vec3) :
  vy (col0 (fst (fold_left (gatherStep u cbF pos) stencil (Vec.mzero, vel))))
  == 0.25 * vy (col0 A).
Proof.
  component (fun a : mat3 * vec3 => vy (col0 (fst a)))
            (fun g => vx (cellDistOf pos g)
                      * (weightOf pos g * v4y (cbF (getCellPtr u (cellXOf pos g))))).
  rewrite Qplus_0_l.
  moment 0 (vy v0) 0 0 (vy (col0 A)) 0 0 (vy (col1 A)) (vy (col2 A)) 0.
Qed.

Lemma gather_B_1y (vel : vec3) :
  vy (col1 (fst (fold_left (gatherStep u cbF pos) stencil (Vec.mzero, vel))))
  == 0.25 * vy (col1 A).
Proof.
  component (fun a : mat3 * vec3 => vy (col1 (fst a)))
            (fun g => vy (cellDistOf pos g)
                      * (weightOf pos g * v4y (cbF (getCellPtr u (cellXOf pos g))))).
  rewrite Qplus_0_l.
  moment 0 0 (vy v0) 0 0 (vy (col1 A)) 0 (vy (col0 A)) 0 (vy (col2 A)).
Qed.

Lemma gather_B_2y (vel : vec3) :
  vy (col2 (fst (fold_left (gatherStep u cbF pos) stencil (Vec.mzero, vel))))
  == 0.25 * vy (col2 A).
Proof.
  component (fun a : mat3 * vec3 => vy (col2 (fst a)))
            (fun g => vz (cellDistOf pos g)
                      * (weightOf pos g * v4y (cbF (getCellPtr u (cellXOf pos g))))).
  rewrite Qplus_0_l.
  moment 0 0 0 (vy v0) 0 0 (vy (col2 A)) 0 (vy (col0 A)) (vy (col1 A)).
Qed.

Lemma gather_velocity_z (vel : vec3) :
  vz (snd (fold_left (gatherStep u cbF pos) stencil (Vec.mzero, vel))) == vz vel + vz v0.
Proof.
  component (fun a : mat3 * vec3 => vz (snd a))
            (fun g => weightOf pos g * v4z (cbF (getCellPtr u (cellXOf pos g)))).
  apply Qplus_comp; [reflexivity |].
  moment (vz v0) (vz (col0 A)) (vz (col1 A)) (vz (col2 A)) 0 0 0 0 0 0.
Qed.

Lemma gather_B_0z (vel : vec3) :
  vz (col0 (fst (fold_left (gatherStep u cbF pos) stencil (Vec.mzero, vel))))
  == 0.25 * vz (col0 A).
Proof.
  component (fun a : mat3 * vec3 => vz (col0 (fst a)))
            (fun g => vx (cellDistOf pos g)
                      * (weightOf pos g * v4z (cbF (getCellPtr u (cellXOf pos g))))).
  rewrite Qplus_0_l.
  moment 0 (vz v0) 0 0 (vz (col0 A)) 0 0 (vz (col1 A)) (vz (col2 A)) 0.
Qed.

Lemma gather_B_1z (vel : vec3) :
  vz (col1 (fst (fold_left (gatherStep u cbF pos) stencil (Vec.mzero, vel))))
  == 0.25 * vz (col1 A).
Proof.
  component (fun a : mat3 * vec3 => vz (col1 (fst a)))
            (fun g => vy (cellDistOf pos g)
                      * (weightOf pos g * v4z (cbF (getCellPtr u (cellXOf pos g))))).
  rewrite Qplus_0_l.
  moment 0 0 (vz v0) 0 0 (vz (col1 A)) 0 (vz (col0 A)) 0 (vz (col2 A)).
Qed.

Lemma gather_B_2z (vel : vec3) :
  vz (col2 (fst (fold_left (gatherStep u cbF pos) stencil (Vec.mzero, vel))))
  == 0.25 * vz (col2 A).
Proof.
  component (fun a : mat3 * vec3 => vz (col2 (fst a)))
            (fun g => vz (cellDistOf pos g)
                      * (weightOf pos g * v4z (cbF (getCellPtr u (cellXOf pos g))))).
  rewrite Qplus_0_l.
  moment 0 0 0 (vz v0) 0 0 (vz (col2 A)) 0 (vz (col0 A)) (vz (col1 A)).
Qed.

End Gather.

(** The gather loop of [g2p] reproduces an affine grid velocity field
    exactly: if the resolved velocity of the stencil cells is [v0 + A * x]
    in the offset [x] of the cell from the particle, the loop adds [v0] to
    the particle velocity and the matrix stored in [C] is [A]. *)
Theorem g2p_gather_affine (u : Uniforms) (cbF : Z -> vec4) (pos vel v0 : vec3) (A : mat3) :
  (cellCount u <= Tsl.INT32_MAX)%Z -> inGrid u pos ->
  (forall g, In g stencil ->
     veq (xyz (cbF (getCellPtr u (cellXOf pos g))))
         (Vec.add v0 (Vec.mulv A (cellDistOf pos g)))) ->
  veq (snd (gatherGrid u 0 false cbF pos vel)) (Vec.add vel v0) /\
  meq (affineC (fst (gatherGrid u 0 false cbF pos vel))) A.
Proof.
  intros Hf Hin Ha. unfold gatherGrid. cbn [Z.eqb negb andb].
  unfold veq, meq, veq, affineC, Vec.mscale, Vec.scale.
  cbn [col0 col1 col2 vx vy vz Vec.add].
  repeat split.
  - apply (gather_velocity_x u cbF pos v0 A Hf Hin Ha).
  - apply (gather_velocity_y u cbF pos v0 A Hf Hin Ha).
  - apply (gather_velocity_z u cbF pos v0 A Hf Hin Ha).
  - rewrite (gather_B_0x u cbF pos v0 A Hf Hin Ha). ring.
  - rewrite (gather_B_0y u cbF pos v0 A Hf Hin Ha). ring.
  - rewrite (gather_B_0z u cbF pos v0 A Hf Hin Ha). ring.
  - rewrite (gather_B_1x u cbF pos v0 A Hf Hin Ha). ring.
  - rewrite (gather_B_1y u cbF pos v0 A Hf Hin Ha). ring.
  - rewrite (gather_B_1z u cbF pos v0 A Hf Hin Ha). ring.
  - rewrite (gather_B_2x u cbF pos v0 A Hf Hin Ha). ring.
  - rewrite (gather_B_2y u cbF pos v0 A Hf Hin Ha). ring.
  - rewrite (gather_B_2z u cbF pos v0 A Hf Hin Ha). ring.
Qed.

Lemma g2p_gather_affine_witness :
  veq (snd (gatherGrid exampleUniforms 0 false
              (fun j => mkVec4 (Tsl.float (cellCoordX exampleUniforms j)) 0 0 1)
              (mkVec3 125.5 32.5 32.5) (Vec.splat 0)))
      (Vec.add (Vec.splat 0) (mkVec3 125 0 0)) /\
  meq (affineC (fst (gatherGrid exampleUniforms 0 false
                       (fun j => mkVec4 (Tsl.float (cellCoordX exampleUniforms j)) 0 0 1)
                       (mkVec3 125.5 32.5 32.5) (Vec.splat 0))))
      (mkMat3 (mkVec3 1 0 0) (Vec.splat 0) (Vec.splat 0)).
Proof.
  apply (g2p_gather_affine exampleUniforms
           (fun j => mkVec4 (Tsl.float (cellCoordX exampleUniforms j)) 0 0 1)
           (mkVec3 125.5 32.5 32.5) (Vec.splat 0) (mkVec3 125 0 0)
           (mkMat3 (mkVec3 1 0 0) (Vec.splat 0) (Vec.splat 0))).
  - exact example_fits.
  - unfold inGrid. vm_compute. repeat split; discriminate.
  - intros g Hg. unfold stencil in Hg. simpl in Hg.
    repeat (destruct Hg as [Hg | Hg]; [subst g; vm_compute; repeat split; reflexivity |]).
    destruct Hg.
Defined.

(** ** What a step's grid passes do to the particles *)

Lemma p2g2_particle (u : Uniforms) (start : Z) (s s1 : State) (i : Z) :
  p2g2 u start s = Some s1 ->
  particleBuffer s1 i =
  if (i =? start)%Z && (i <? numParticles u)%Z
  then setDensity (particleBuffer s i)
         (Tsl.mix (density (particleBuffer s i)) (densityOf u s i) 0.05)
  else particleBuffer s i.
Proof.
  unfold p2g2. destruct (Z.geb_spec start (numParticles u)) as [Hge | Hlt].
  - intros E. apply Some_eq in E. subst s1.
    destruct (Z.eqb_spec i start) as [-> | _]; [| reflexivity].
    destruct (Z.ltb_spec start (numParticles u)); [lia | reflexivity].
  - destruct (Tsl.fdiv 1 _) as [volume |]; [| discriminate].
    destruct (Tsl.fdiv _ (restDensity u)) as [ratio |]; [| discriminate].
    intros E. apply Some_eq in E. subst s1. cbn [particleBuffer]. unfold upd.
    destruct (Z.eqb_spec i start) as [-> | _]; [| reflexivity].
    destruct (Z.ltb_spec start (numParticles u)); [reflexivity | lia].
Qed.

Lemma inSpan_next_start (start : Z) (n : nat) : inSpan (start + 1) n start = false.
Proof.
  unfold inSpan. destruct (Z.leb_spec (start + 1) start); [lia | reflexivity].
Qed.

Lemma p2g2_from_particles (u : Uniforms) (n : nat) : forall (start : Z) (s s' : State),
  dispatch_from n start (p2g2 u) s = Some s' ->
  forall i,
    particleBuffer s' i =
    if inSpan start n i && (i <? numParticles u)%Z
    then setDensity (particleBuffer s i)
           (Tsl.mix (density (particleBuffer s i)) (densityOf u s i) 0.05)
    else particleBuffer s i.
Proof.
  induction n as [| n IH]; intros start s s' E i.
  - apply Some_eq in E. subst s'.
    replace (inSpan start 0 i) with false; [reflexivity |].
    unfold inSpan. destruct (Z.leb_spec start i); destruct (Z.ltb_spec i (start + Z.of_nat 0));
      simpl; try reflexivity; lia.
  - cbn [dispatch_from] in E. destruct (p2g2 u start s) as [s1 |] eqn:E1; [| discriminate].
    rewrite (IH _ _ _ E i), inSpan_S, (p2g2_particle u start s s1 i E1).
    destruct (Z.eqb_spec i start) as [-> | Hne].
    + rewrite inSpan_next_start. reflexivity.
    + cbn [andb orb]. rewrite (densityOf_same u s s1 i (p2g2_preserves _ _ _ _ E1)).
      reflexivity.
Qed.

(** A step with no active particle leaves a grid that is zero in every
    cell, and has a result: with [numParticles <= 0] the scatter passes
    touch nothing and GridUpdate returns early in every cell. *)
Theorem gridPasses_no_particles (u : Uniforms) (s : State) :
  (numParticles u <= 0)%Z -> gridPasses u s = Some (clearedState u s).
Proof.
  intros H. unfold gridPasses. rewrite clearGrid_dispatch. cbn [bind].
  assert (D : Z.to_nat (dispatchSize (numParticles u)) = O).
  { pose proof (dispatchSize_nonpos _ H). lia. }
  unfold scatterPasses, dispatch at 1 2. rewrite D. cbn [dispatch_from bind].
  rewrite updateGrid_dispatch. f_equal.
  apply State_ext; intros j; cbn [resolvedState cellBuffer cellBufferF particleBuffer];
    try reflexivity.
  unfold resolvedCell. cbn [clearedState cellBuffer cellBufferF].
  destruct (inRange (cellCount u) j); reflexivity.
Qed.

Lemma gridPasses_no_particles_witness :
  gridPasses (mkUniforms simulatorGrid 0 0.1 3 1 0.1) exampleState
  = Some (clearedState (mkUniforms simulatorGrid 0 0.1 3 1 0.1) exampleState).
Proof.
  apply (gridPasses_no_particles (mkUniforms simulatorGrid 0 0.1 3 1 0.1) exampleState).
  vm_compute. discriminate.
Defined.

(** The grid passes of a step have a result and change nothing of a
    particle but its density.  The density of every active particle is
    blended once, with weight 0.05, with the density it re-gathers from the
    masses Scatter-1 has left; the particles from [numParticles] on are
    untouched. *)
Theorem gridPasses_particles (u : Uniforms) (s : State) :
  ~ restDensity u == 0 ->
  (cellCount u <= Tsl.INT32_MAX)%Z ->
  (forall i, (0 <= i < numParticles u)%Z -> inGrid u (position (particleBuffer s i))) ->
  (forall j, (0 <= j < cellCount u)%Z ->
     (massTotal u (particleBuffer s) j <= Tsl.INT32_MAX)%Z) ->
  exists s1 s',
    dispatch (numParticles u) (p2g1 u) (clearedState u s) = Some s1 /\
    gridPasses u s = Some s' /\
    forall i,
      sameButDensity (particleBuffer s i) (particleBuffer s' i) /\
      particleBuffer s' i =
      if inRange (numParticles u) i
      then setDensity (particleBuffer s i)
             (Tsl.mix (density (particleBuffer s i)) (densityOf u s1 i) 0.05)
      else particleBuffer s i.
Proof.
  intros Hr Hf Hg Ho.
  destruct (scatterPasses_defined u s Hf Hg Ho Hr) as [s1 [s2 [E1 [_ [E2 E]]]]].
  exists s1, (resolvedState u s2).
  split; [exact E1 |]. split.
  { unfold gridPasses. rewrite clearGrid_dispatch. cbn [bind]. rewrite E. cbn [bind].
    apply updateGrid_dispatch. }
  assert (P1 : particleBuffer s1 = particleBuffer s).
  { destruct (p2g1_dispatch u (clearedState u s)) as [cb [E1' _]].
    rewrite E1' in E1. apply Some_eq in E1. subst s1. reflexivity. }
  intros i.
  assert (F : particleBuffer (resolvedState u s2) i =
              if inRange (numParticles u) i
              then setDensity (particleBuffer s i)
                     (Tsl.mix (density (particleBuffer s i)) (densityOf u s1 i) 0.05)
              else particleBuffer s i).
  { cbn [resolvedState particleBuffer]. unfold dispatch in E2.
    rewrite (p2g2_from_particles u _ _ _ _ E2 i), inSpan_dispatch, P1. reflexivity. }
  split; [| exact F].
  rewrite F. destruct (inRange (numParticles u) i); repeat split.
Qed.

Lemma gridPasses_particles_witness :
  exists s1 s',
    dispatch (numParticles exampleUniforms) (p2g1 exampleUniforms)
      (clearedState exampleUniforms exampleState) = Some s1 /\
    gridPasses exampleUniforms exampleState = Some s' /\
    forall i,
      sameButDensity (particleBuffer exampleState i) (particleBuffer s' i) /\
      particleBuffer s' i =
      if inRange (numParticles exampleUniforms) i
      then setDensity (particleBuffer exampleState i)
             (Tsl.mix (density (particleBuffer exampleState i))
                (densityOf exampleUniforms s1 i) 0.05)
      else particleBuffer exampleState i.
Proof.
  apply (gridPasses_particles exampleUniforms exampleState).
  - exact example_restDensity.
  - exact example_fits.
  - exact example_in_grid.
  - exact example_no_overflow.
Defined.

(** ** Scatter-2: no force without pressure and velocity gradient *)

Lemma encode_zero (q : Q) : q == 0 -> encodeFixedPoint q = 0%Z.
Proof.
  intros H. unfold encodeFixedPoint, Tsl.int.
  assert (E : q * fixedPointMultiplier == 0) by (rewrite H; ring).
  rewrite (Qtrunc_compat _ _ E). reflexivity.
Qed.

Lemma atomicAdd_zero (old : Z) : wrapped old -> Tsl.atomicAdd old 0 = old.
Proof. intros H. unfold Tsl.atomicAdd. rewrite Z.add_0_r. exact H. Qed.

Lemma scatter2_fold_zero (l : list (Z * vec3)) :
  (forall m, In m l -> veq (snd m) (Vec.splat 0)) ->
  forall cb : Z -> Cell,
    (forall j, wrapped (cell_x (cb j)) /\ wrapped (cell_y (cb j)) /\ wrapped (cell_z (cb j))) ->
    forall j, fold_left scatter2 l cb j = cb j.
Proof.
  induction l as [| m l IH]; intros Hz cb Hw j; [reflexivity |].
  assert (S : forall k, scatter2 cb m k = cb k).
  { intros k. unfold scatter2, upd. destruct (Z.eqb_spec k (fst m)) as [-> | _]; [| reflexivity].
    destruct (Hz m (or_introl eq_refl)) as [Zx [Zy Zz]]. cbn [Vec.splat vx vy vz] in Zx, Zy, Zz.
    destruct (Hw (fst m)) as [Wx [Wy Wz]].
    rewrite (encode_zero _ Zx), (encode_zero _ Zy), (encode_zero _ Zz).
    rewrite !atomicAdd_zero by assumption. destruct (cb (fst m)); reflexivity. }
  cbn [fold_left]. rewrite IH.
  - apply S.
  - intros m' Hm'. apply Hz. right. exact Hm'.
  - intros k. rewrite S. apply Hw.
Qed.

Lemma pressure_zero (u : Uniforms) (ratio : Q) :
  0 <= stiffness u -> 0 <= ratio -> ratio <= 1 -> pressureOf u ratio == 0.
Proof.
  intros Hs H0 H1. unfold pressureOf. apply Q.max_l.
  assert (P2 : 0 <= ratio * ratio /\ ratio * ratio <= 1) by (split; nra).
  assert (P4 : 0 <= ratio * ratio * (ratio * ratio) /\ ratio * ratio * (ratio * ratio) <= 1).
  { destruct P2. set (a := ratio * ratio) in *. clearbody a. split; nra. }
  assert (P5 : ratio ^ 5 <= 1).
  { assert (E : ratio ^ 5 == ratio * (ratio * ratio * (ratio * ratio))) by (simpl; ring).
    rewrite E. destruct P4. set (b := ratio * ratio * (ratio * ratio)) in *. clearbody b. nra. }
  set (r5 := ratio ^ 5) in *. clearbody r5. nra.
Qed.

Lemma stress_zero (u : Uniforms) (pressure : Q) (dudv : mat3) :
  pressure == 0 -> meq dudv Vec.mzero -> meq (stressOf u pressure dudv) Vec.mzero.
Proof.
  intros Hp [[A1 [A2 A3]] [[B1 [B2 B3]] [C1 [C2 C3]]]].
  cbn [Vec.mzero Vec.splat col0 col1 col2 vx vy vz] in *.
  unfold stressOf, meq, veq.
  cbn [Vec.mzero Vec.splat Vec.madd Vec.mscale Vec.transpose Vec.add Vec.scale
       col0 col1 col2 vx vy vz].
  rewrite Hp, A1, A2, A3, B1, B2, B3, C1, C2, C3. repeat split; ring.
Qed.

Lemma momentum_zero (M : mat3) (k1 k2 w : Q) (cellDist : vec3) :
  meq M Vec.mzero ->
  veq (Vec.mulv (Vec.mscale w (Vec.mscale k1 (Vec.mscale k2 M))) cellDist) (Vec.splat 0).
Proof.
  intros [[A1 [A2 A3]] [[B1 [B2 B3]] [C1 [C2 C3]]]].
  cbn [Vec.mzero Vec.splat col0 col1 col2 vx vy vz] in *.
  unfold veq.
  cbn [Vec.splat Vec.mulv Vec.mscale Vec.add Vec.scale col0 col1 col2 vx vy vz].
  rewrite A1, A2, A3, B1, B2, B3, C1, C2, C3. repeat split; ring.
Qed.

(** Pressure is clamped at zero: a particle whose re-gathered density is
    at most the rest density and whose affine matrix is zero adds nothing
    to any cell in Scatter-2.  The fluid resists compression and shear, it
    never pulls. *)
Theorem p2g2_no_tension (u : Uniforms) (s : State) (i : Z) :
  (i < numParticles u)%Z ->
  0 <= stiffness u -> 0 < restDensity u ->
  0 < densityOf u s i -> densityOf u s i <= restDensity u ->
  meq (C (particleBuffer s i)) Vec.mzero ->
  (forall j, wrapped (cell_x (cellBuffer s j)) /\ wrapped (cell_y (cellBuffer s j)) /\
             wrapped (cell_z (cellBuffer s j))) ->
  exists s', p2g2 u i s = Some s' /\ forall j, cellBuffer s' j = cellBuffer s j.
Proof.
  intros Hi Hs Hr Hd Hle HC Hw. unfold p2g2.
  destruct (Z.geb_spec i (numParticles u)) as [Hge | _]; [lia |].
  unfold densityOf in Hd, Hle.
  set (density' := gatherDensity u (cellBuffer s) (position (particleBuffer s i))) in *.
  rewrite (fdiv_defined 1 density') by lra.
  rewrite (fdiv_defined density' (restDensity u)) by lra.
  eexists. split; [reflexivity |]. cbn [cellBuffer]. intros j.
  apply scatter2_fold_zero; [| exact Hw].
  intros m Hm. apply in_map_iff in Hm. destruct Hm as [g [<- _]].
  unfold p2g2Momentum. cbn [snd]. apply momentum_zero.
  apply stress_zero; [| exact HC].
  apply pressure_zero; [exact Hs | |].
  - apply Qle_shift_div_l; [exact Hr | lra].
  - apply Qle_shift_div_r; [exact Hr | lra].
Qed.

Lemma p2g2_no_tension_witness :
  exists s',
    p2g2 exampleUniforms 0%Z
      (mkState (fun _ => mkCell 0 0 0 5000000) (fun _ => zeroVec4) (fun _ => exampleParticle))
    = Some s' /\
    forall j, cellBuffer s' j = mkCell 0 0 0 5000000.
Proof.
  apply (p2g2_no_tension exampleUniforms
           (mkState (fun _ => mkCell 0 0 0 5000000) (fun _ => zeroVec4)
                    (fun _ => exampleParticle)) 0).
  - reflexivity.
  - vm_compute. discriminate.
  - reflexivity.
  - vm_compute. reflexivity.
  - vm_compute. discriminate.
  - vm_compute. repeat split; reflexivity.
  - intros j. repeat split.
Defined.

(** ** The write-back of [g2p] *)

Lemma clamp_between (x lo hi : Q) : lo <= hi -> lo <= Tsl.clamp x lo hi /\ Tsl.clamp x lo hi <= hi.
Proof.
  intros H. unfold Tsl.clamp. split.
  - apply Q.min_glb; [apply Q.le_max_r | exact H].
  - apply Q.le_min_r.
Qed.

Lemma boxMax_axis (size : Z) :
  (4 <= size <= Tsl.INT32_MAX)%Z ->
  Tsl.float (isub size 2) = inject_Z (size - 2) /\ 2 <= inject_Z (size - 2).
Proof.
  intros H. unfold isub, Tsl.float.
  rewrite wrap32_id by (unfold Tsl.INT32_MIN, Tsl.INT32_MAX in *; lia).
  split; [reflexivity |]. change 2 with (inject_Z 2). rewrite <- Zle_Qle. lia.
Qed.

Lemma integratePosition_inGrid (u : Uniforms) (pos vel : vec3) :
  (4 <= ix (gridSize u) <= Tsl.INT32_MAX)%Z ->
  (4 <= iy (gridSize u) <= Tsl.INT32_MAX)%Z ->
  (4 <= iz (gridSize u) <= Tsl.INT32_MAX)%Z ->
  inGrid u (integratePosition u pos vel).
Proof.
  intros Hx Hy Hz.
  destruct (boxMax_axis _ Hx) as [Ex Bx]. destruct (boxMax_axis _ Hy) as [Ey By].
  destruct (boxMax_axis _ Hz) as [Ez Bz].
  unfold inGrid, integratePosition, clampVec, boxMaxOf, Vec.of_ivec3.
  cbn [vx vy vz ix iy iz Vec.splat]. rewrite Ex, Ey, Ez.
  split; [| split]; apply clamp_between; assumption.
Qed.

(** Whatever velocity the kernel has accumulated, the position it writes
    back lies in the box [[2, gridSize - 2]], so every cell of the 3x3x3
    stencil that the transfers of the next step address for the particle is
    a cell of the grid; the kernel changes neither the mass, the density
    nor the colour of the particle. *)
Theorem writeBack_in_grid (u : Uniforms) (p : Particle) (B : mat3) (vel : vec3) (g : ivec3) :
  (cellCount u <= Tsl.INT32_MAX)%Z ->
  (4 <= ix (gridSize u))%Z -> (4 <= iy (gridSize u))%Z -> (4 <= iz (gridSize u))%Z ->
  In g stencil ->
  inGrid u (position (writeBack u p B vel)) /\
  (0 <= getCellPtr u (cellXOf (position (writeBack u p B vel)) g) < cellCount u)%Z /\
  mass (writeBack u p B vel) = mass p /\
  density (writeBack u p B vel) = density p /\
  color (writeBack u p B vel) = color p.
Proof.
  intros Hf Hx Hy Hz Hg.
  assert (S : (ix (gridSize u) <= Tsl.INT32_MAX /\ iy (gridSize u) <= Tsl.INT32_MAX /\
               iz (gridSize u) <= Tsl.INT32_MAX)%Z).
  { unfold cellCount in Hf.
    set (gx := ix (gridSize u)) in *. set (gy := iy (gridSize u)) in *.
    set (gz := iz (gridSize u)) in *.
    assert (Pxy : (16 <= gx * gy)%Z) by nia.
    assert (Pyz : (16 <= gy * gz)%Z) by nia.
    assert (Pxz : (16 <= gx * gz)%Z) by nia.
    assert (Cx : (gx <= gx * gy * gz)%Z).
    { replace (gx * gy * gz)%Z with (gx * (gy * gz))%Z by ring. nia. }
    assert (Cy : (gy <= gx * gy * gz)%Z).
    { replace (gx * gy * gz)%Z with (gy * (gx * gz))%Z by ring. nia. }
    assert (Cz : (gz <= gx * gy * gz)%Z) by nia.
    lia. }
  destruct S as [Sx [Sy Sz]].
  assert (I : inGrid u (position (writeBack u p B vel))).
  { cbn [writeBack position]. apply integratePosition_inGrid; lia. }
  split; [exact I |]. split; [| repeat split].
  apply (stencil_in_grid u Hf _ g I Hg).
Qed.

Lemma writeBack_in_grid_witness :
  inGrid exampleUniforms
    (position (writeBack exampleUniforms exampleParticle Vec.mzero (mkVec3 1000 (-1000) 0))) /\
  (0 <= getCellPtr exampleUniforms
          (cellXOf (position (writeBack exampleUniforms exampleParticle Vec.mzero
                                (mkVec3 1000 (-1000) 0))) (mkIvec3 2 0 1))
     < cellCount exampleUniforms)%Z /\
  mass (writeBack exampleUniforms exampleParticle Vec.mzero (mkVec3 1000 (-1000) 0))
  = mass exampleParticle /\
  density (writeBack exampleUniforms exampleParticle Vec.mzero (mkVec3 1000 (-1000) 0))
  = density exampleParticle /\
  color (writeBack exampleUniforms exampleParticle Vec.mzero (mkVec3 1000 (-1000) 0))
  = color exampleParticle.
Proof.
  apply (writeBack_in_grid exampleUniforms exampleParticle Vec.mzero (mkVec3 1000 (-1000) 0)
           (mkIvec3 2 0 1)).
  - exact example_fits.
  - vm_compute. discriminate.
  - vm_compute. discriminate.
  - vm_compute. discriminate.
  - unfold stencil. simpl. auto 30.
Defined.

Lemma wallAxis_penetration (xN lo hi v k : Q) :
  lo <= hi -> 0 <= k -> k * wallStiffness <= 1 ->
  penetration lo hi (xN + k * (wallAxis xN lo hi v - v))
  == (1 - k * wallStiffness) * penetration lo hi xN.
Proof.
  intros Hlh Hk Hk1. unfold wallAxis, penetration, wallStiffness in *.
  destruct (Qltb xN lo) eqn:E1; destruct (Qltb hi xN) eqn:E2.
  - apply Qltb_lt in E1, E2. lra.
  - apply Qltb_lt in E1.
    assert (N2 : xN <= hi) by lra.
    rewrite (Q.max_l (lo - xN) (xN - hi)) by lra.
    rewrite (Q.max_r 0 (lo - xN)) by lra.
    rewrite (Q.max_l (lo - _) (_ - hi)) by nra.
    rewrite Q.max_r by nra. ring.
  - apply Qltb_lt in E2.
    rewrite (Q.max_r (lo - xN) (xN - hi)) by lra.
    rewrite (Q.max_r 0 (xN - hi)) by lra.
    rewrite (Q.max_r (lo - _) (_ - hi)) by nra.
    rewrite Q.max_r by nra. ring.
  - assert (N1 : lo <= xN).
    { destruct (Qlt_le_dec xN lo) as [L | L]; [| exact L].
      apply Qltb_lt in L. congruence. }
    assert (N2 : xN <= hi).
    { destruct (Qlt_le_dec hi xN) as [L | L]; [| exact L].
      apply Qltb_lt in L. congruence. }
    assert (Z0 : Qmax (lo - xN) (xN - hi) <= 0) by (apply Q.max_lub; lra).
    assert (E : xN + k * (v - v) == xN) by ring.
    rewrite E. rewrite (Q.max_l 0 _ Z0). ring.
Qed.

(** The wall spring acts on the position predicted three steps ahead: on
    each axis the corrected velocity brings the predicted penetration of the
    walls at 3 and [gridSize - 3] down by the factor [1 - 0.9 dt], without
    overshooting as long as [0.9 dt <= 1]; a particle predicted to stay
    between the walls keeps its velocity. *)
Theorem wallSpring_penetration (u : Uniforms) (pos vel : vec3) :
  (6 <= ix (gridSize u))%Z -> (6 <= iy (gridSize u))%Z -> (6 <= iz (gridSize u))%Z ->
  0 <= dt u -> 3 * dt u * wallStiffness <= 1 ->
  penetration (vx wallMin) (vx (wallMax u)) (vx (lookAhead u pos (wallSpring u pos vel)))
  == (1 - 3 * dt u * wallStiffness)
     * penetration (vx wallMin) (vx (wallMax u)) (vx (lookAhead u pos vel)) /\
  penetration (vy wallMin) (vy (wallMax u)) (vy (lookAhead u pos (wallSpring u pos vel)))
  == (1 - 3 * dt u * wallStiffness)
     * penetration (vy wallMin) (vy (wallMax u)) (vy (lookAhead u pos vel)) /\
  penetration (vz wallMin) (vz (wallMax u)) (vz (lookAhead u pos (wallSpring u pos vel)))
  == (1 - 3 * dt u * wallStiffness)
     * penetration (vz wallMin) (vz (wallMax u)) (vz (lookAhead u pos vel)) /\
  (penetration (vx wallMin) (vx (wallMax u)) (vx (lookAhead u pos vel)) == 0 ->
   penetration (vy wallMin) (vy (wallMax u)) (vy (lookAhead u pos vel)) == 0 ->
   penetration (vz wallMin) (vz (wallMax u)) (vz (lookAhead u pos vel)) == 0 ->
   wallSpring u pos vel = vel).
Proof.
  intros Hx Hy Hz Hd Hk.
  assert (W : forall size, (6 <= size)%Z -> 3 <= inject_Z size - 3).
  { intros size H. assert (L : inject_Z 6 <= inject_Z size) by (rewrite <- Zle_Qle; exact H).
    change (inject_Z 6) with 6 in L. lra. }
  pose proof (W _ Hx) as Wx. pose proof (W _ Hy) as Wy. pose proof (W _ Hz) as Wz.
  assert (K : 0 <= 3 * dt u) by lra.
  unfold wallSpring, lookAhead, wallMin, wallMax, Vec.of_ivec3, Tsl.float.
  cbn [Vec.add Vec.sub Vec.scale Vec.splat vx vy vz].
  split; [| split; [| split]].
  - rewrite <- (wallAxis_penetration _ 3 (inject_Z (ix (gridSize u)) - 3) (vx vel) (3 * dt u))
      by assumption.
    unfold penetration. apply Q.max_compat; [reflexivity |].
    apply Q.max_compat; ring.
  - rewrite <- (wallAxis_penetration _ 3 (inject_Z (iy (gridSize u)) - 3) (vy vel) (3 * dt u))
      by assumption.
    unfold penetration. apply Q.max_compat; [reflexivity |].
    apply Q.max_compat; ring.
  - rewrite <- (wallAxis_penetration _ 3 (inject_Z (iz (gridSize u)) - 3) (vz vel) (3 * dt u))
      by assumption.
    unfold penetration. apply Q.max_compat; [reflexivity |].
    apply Q.max_compat; ring.
  - assert (I : forall xN lo hi v, penetration lo hi xN == 0 -> wallAxis xN lo hi v = v).
    { intros xN lo hi v P. unfold penetration in P. unfold wallAxis.
      pose proof (Q.le_max_r 0 (Qmax (lo - xN) (xN - hi))) as M.
      pose proof (Q.le_max_l (lo - xN) (xN - hi)) as M1.
      pose proof (Q.le_max_r (lo - xN) (xN - hi)) as M2.
      destruct (Qltb xN lo) eqn:E1; [apply Qltb_lt in E1; lra |].
      destruct (Qltb hi xN) eqn:E2; [apply Qltb_lt in E2; lra |]. reflexivity. }
    intros Px Py Pz. rewrite (I _ _ _ _ Px), (I _ _ _ _ Py), (I _ _ _ _ Pz).
    destruct vel; reflexivity.
Qed.

Lemma wallSpring_penetration_witness :
  penetration (vx wallMin) (vx (wallMax exampleUniforms))
    (vx (lookAhead exampleUniforms (mkVec3 125 32 4)
           (wallSpring exampleUniforms (mkVec3 125 32 4) (mkVec3 10 0 (-10)))))
  == (1 - 3 * dt exampleUniforms * wallStiffness)
     * penetration (vx wallMin) (vx (wallMax exampleUniforms))
         (vx (lookAhead exampleUniforms (mkVec3 125 32 4) (mkVec3 10 0 (-10)))) /\
  penetration (vy wallMin) (vy (wallMax exampleUniforms))
    (vy (lookAhead exampleUniforms (mkVec3 125 32 4)
           (wallSpring exampleUniforms (mkVec3 125 32 4) (mkVec3 10 0 (-10)))))
  == (1 - 3 * dt exampleUniforms * wallStiffness)
     * penetration (vy wallMin) (vy (wallMax exampleUniforms))
         (vy (lookAhead exampleUniforms (mkVec3 125 32 4) (mkVec3 10 0 (-10)))) /\
  penetration (vz wallMin) (vz (wallMax exampleUniforms))
    (vz (lookAhead exampleUniforms (mkVec3 125 32 4)
           (wallSpring exampleUniforms (mkVec3 125 32 4) (mkVec3 10 0 (-10)))))
  == (1 - 3 * dt exampleUniforms * wallStiffness)
     * penetration (vz wallMin) (vz (wallMax exampleUniforms))
         (vz (lookAhead exampleUniforms (mkVec3 125 32 4) (mkVec3 10 0 (-10)))) /\
  (penetration (vx wallMin) (vx (wallMax exampleUniforms))
     (vx (lookAhead exampleUniforms (mkVec3 125 32 4) (mkVec3 10 0 (-10)))) == 0 ->
   penetration (vy wallMin) (vy (wallMax exampleUniforms))
     (vy (lookAhead exampleUniforms (mkVec3 125 32 4) (mkVec3 10 0 (-10)))) == 0 ->
   penetration (vz wallMin) (vz (wallMax exampleUniforms))
     (vz (lookAhead exampleUniforms (mkVec3 125 32 4) (mkVec3 10 0 (-10)))) == 0 ->
   wallSpring exampleUniforms (mkVec3 125 32 4) (mkVec3 10 0 (-10)) = mkVec3 10 0 (-10)).
Proof.
  apply (wallSpring_penetration exampleUniforms (mkVec3 125 32 4) (mkVec3 10 0 (-10)));
    vm_compute; discriminate.
Defined.

(** ** Boost period, time step and rest density set by the host *)

Lemma eased_range (p : Q) : 0 <= p -> p <= 1 -> 0 <= easedProgressOf p /\ easedProgressOf p <= 1.
Proof.
  intros H0 H1. unfold easedProgressOf.
  assert (A : 0 <= p * p) by nra.
  assert (B : 0 <= 3 - p * 2) by lra.
  split; [apply Qmult_le_0_compat; assumption |].
  assert (E : 1 - p * p * (3 - p * 2) == (1 - p) * (1 - p) * (1 + 2 * p)) by ring.
  assert (F : 0 <= (1 - p) * (1 - p) * (1 + 2 * p)).
  { apply Qmult_le_0_compat; [| lra]. nra. }
  lra.
Qed.

(** Whatever the boost time, the strength multiplier of an attractor stays
    between 1 and 20 and the velocity damping between 0.7 and 0.98: the
    damping never amplifies a velocity and never stops a particle. *)
Theorem boost_range (boostDuration t : Q) :
  ~ boostDuration == 0 ->
  (1 <= multiplier boostDuration t /\ multiplier boostDuration t <= 20) /\
  (0.7 <= damping boostDuration t /\ damping boostDuration t <= 0.98).
Proof.
  intros _. unfold multiplier, damping, boostMultiplierOf, dampingFactorOf, Tsl.mix.
  destruct (clamp_range (t / boostDuration)) as [P0 P1].
  fold (boostProgressOf t boostDuration) in P0, P1.
  destruct (eased_range _ P0 P1) as [E0 E1].
  set (e := easedProgressOf (boostProgressOf t boostDuration)) in *. clearbody e.
  repeat split; lra.
Qed.

Lemma boost_range_witness :
  (1 <= multiplier COLOR_SPHERES_BOOST_DURATION 0.5 /\
   multiplier COLOR_SPHERES_BOOST_DURATION 0.5 <= 20) /\
  (0.7 <= damping COLOR_SPHERES_BOOST_DURATION 0.5 /\
   damping COLOR_SPHERES_BOOST_DURATION 0.5 <= 0.98).
Proof.
  apply (boost_range COLOR_SPHERES_BOOST_DURATION 0.5). intros H. vm_compute in H. discriminate.
Defined.

Lemma multiplier_compat (d t t' : Q) : t == t' -> multiplier d t == multiplier d t'.
Proof.
  intros H. unfold multiplier, boostMultiplierOf, Tsl.mix.
  assert (E : boostProgressOf t d == boostProgressOf t' d).
  { unfold boostProgressOf, Tsl.clamp. rewrite H. reflexivity. }
  rewrite (easing_compat _ _ E). reflexivity.
Qed.

Lemma damping_compat (d t t' : Q) : t == t' -> damping d t == damping d t'.
Proof.
  intros H. unfold damping, dampingFactorOf, Tsl.mix.
  assert (E : boostProgressOf t d == boostProgressOf t' d).
  { unfold boostProgressOf, Tsl.clamp. rewrite H. reflexivity. }
  rewrite (easing_compat _ _ E). reflexivity.
Qed.

(** The boost ends: once the time elapsed since a mode was entered reaches
    the boost duration, [update] feeds the kernel a boost time of zero, the
    attractor is back to its base strength and the damping to 0.98, and they
    stay there; over the whole boost the boost time stays within
    [[0, duration]]. *)
Theorem boost_expires (elapsedSinceStart : Q) :
  COLOR_SPHERES_BOOST_DURATION <= elapsedSinceStart ->
  remainingBoost elapsedSinceStart == 0 /\
  multiplier COLOR_SPHERES_BOOST_DURATION (remainingBoost elapsedSinceStart) == 1 /\
  damping COLOR_SPHERES_BOOST_DURATION (remainingBoost elapsedSinceStart) == 0.98 /\
  forall e, 0 <= e ->
    0 <= remainingBoost e /\ remainingBoost e <= COLOR_SPHERES_BOOST_DURATION.
Proof.
  intros H.
  assert (R0 : remainingBoost elapsedSinceStart == 0).
  { unfold remainingBoost. apply Q.max_l. lra. }
  split; [exact R0 |]. split; [| split].
  - rewrite (multiplier_compat _ _ _ R0).
    unfold multiplier, boostMultiplierOf, Tsl.mix.
    rewrite (easing_compat _ _ (boostProgress_at_zero _)). unfold easedProgressOf. ring.
  - rewrite (damping_compat _ _ _ R0).
    unfold damping, dampingFactorOf, Tsl.mix.
    rewrite (easing_compat _ _ (boostProgress_at_zero _)). unfold easedProgressOf. ring.
  - intros e He. unfold remainingBoost. split; [apply Q.le_max_l |].
    apply Q.max_lub; [unfold COLOR_SPHERES_BOOST_DURATION |]; lra.
Qed.

Lemma boost_expires_witness :
  remainingBoost 2 == 0 /\
  multiplier COLOR_SPHERES_BOOST_DURATION (remainingBoost 2) == 1 /\
  damping COLOR_SPHERES_BOOST_DURATION (remainingBoost 2) == 0.98 /\
  forall e, 0 <= e ->
    0 <= remainingBoost e /\ remainingBoost e <= COLOR_SPHERES_BOOST_DURATION.
Proof. apply (boost_expires 2). vm_compute. discriminate. Defined.

(** [update] caps the frame interval at 1/60 s, so the time step of the
    kernels never exceeds a tenth of the effective speed however long a frame
    took: at most 0.4 in front gravity mode and for the speeds the settings
    pane allows.  With such a step the wall spring of [g2p] removes at most
    36% of a predicted wall penetration per step and cannot overshoot. *)
Theorem stepDt_bounds (interval speed : Q) (frontGravityMode : Z) :
  0 <= interval -> 0 <= speed -> speed <= 2 ->
  0 <= stepDt interval speed frontGravityMode /\
  stepDt interval speed frontGravityMode <= 0.4 /\
  stepDt interval speed frontGravityMode
  <= 0.1 * (if (frontGravityMode =? 1)%Z then 4 else speed) /\
  3 * stepDt interval speed frontGravityMode * wallStiffness <= 0.36.
Proof.
  intros Hi Hs Hs2. unfold stepDt, wallStiffness.
  assert (D0 : 0 <= 1 / 60) by discriminate.
  assert (M0 : 0 <= Qmin interval (1 / 60)) by (apply Q.min_glb; assumption).
  assert (M1 : Qmin interval (1 / 60) <= 1 # 60) by apply Q.le_min_r.
  set (m := Qmin interval (1 / 60)) in *. clearbody m.
  destruct (frontGravityMode =? 1)%Z; repeat split; nra.
Qed.

Lemma stepDt_bounds_witness :
  0 <= stepDt 0.5 1 0 /\
  stepDt 0.5 1 0 <= 0.4 /\
  stepDt 0.5 1 0 <= 0.1 * (if (0 =? 1)%Z then 4 else 1) /\
  3 * stepDt 0.5 1 0 * wallStiffness <= 0.36.
Proof. apply (stepDt_bounds 0.5 1 0); vm_compute; discriminate. Defined.

(** The rest density that [conf.js] derives from the particle count and
    the density setting is at least a quarter of the setting, it grows
    linearly with the particle count from 8192 particles on, and it is never
    zero for a positive setting: the division [density / restDensity] of
    Scatter-2 always has a result. *)
Theorem conf_restDensity_positive (particles density x : Q) :
  0 < density ->
  0.25 * density <= Conf.restDensity particles density /\
  (8192 <= particles ->
   Conf.restDensity particles density == particles * density / 32768) /\
  Tsl.fdiv x (Conf.restDensity particles density)
  = Some (x / Conf.restDensity particles density).
Proof.
  intros Hd. unfold Conf.restDensity, Conf.level.
  assert (L : 1 <= Qmax (particles / 8192) 1) by apply Q.le_max_r.
  assert (B : 0.25 * density <= 0.25 * Qmax (particles / 8192) 1 * density).
  { set (l := Qmax (particles / 8192) 1) in *. clearbody l. nra. }
  split; [exact B |]. split.
  - intros Hp.
    assert (G : 1 <= particles / 8192).
    { apply Qle_shift_div_l; lra. }
    rewrite (Q.max_l _ _ G). field.
  - apply fdiv_defined. lra.
Qed.

Lemma conf_restDensity_positive_witness :
  0.25 * 1 <= Conf.restDensity 81920 1 /\
  (8192 <= 81920 -> Conf.restDensity 81920 1 == 81920 * 1 / 32768) /\
  Tsl.fdiv 3 (Conf.restDensity 81920 1) = Some (3 / Conf.restDensity 81920 1).
Proof. apply (conf_restDensity_positive 81920 1 3). reflexivity. Defined.

(** ** Mode selection *)

Lemma Qeq_bool_compat (m m' c : Q) : m == m' -> Qeq_bool m c = Qeq_bool m' c.
Proof.
  intros H. destruct (Qeq_bool m' c) eqn:E.
  - apply Qeq_bool_iff. apply Qeq_bool_iff in E. rewrite H. exact E.
  - destruct (Qeq_bool m c) eqn:E'; [| reflexivity].
    apply Qeq_bool_iff in E'. rewrite H in E'. apply Qeq_bool_iff in E'. congruence.
Qed.

Lemma Qle_bool_compat (a a' b b' : Q) : a == a' -> b == b' -> Qle_bool a b = Qle_bool a' b'.
Proof.
  intros Ha Hb. destruct (Qle_bool a' b') eqn:E.
  - apply Qle_bool_iff. apply Qle_bool_iff in E. rewrite Ha, Hb. exact E.
  - destruct (Qle_bool a b) eqn:E'; [| reflexivity].
    apply Qle_bool_iff in E'. rewrite Ha, Hb in E'. apply Qle_bool_iff in E'. congruence.
Qed.

Lemma toggleGridMode_compat (m m' : Q) :
  m == m' -> Mode.toggleGridMode m = Mode.toggleGridMode m'.
Proof.
  intros H. unfold Mode.toggleGridMode, Qltb.
  rewrite !(Qeq_bool_compat m m' _ H).
  rewrite (Qle_bool_compat m m' 0 0 H (Qeq_refl 0)).
  rewrite (Qle_bool_compat 3 3 m m' (Qeq_refl 3) H).
  reflexivity.
Qed.

Lemma Qeq_bool_false (m c : Q) : ~ m == c -> Qeq_bool m c = false.
Proof.
  intros N. destruct (Qeq_bool m c) eqn:E; [| reflexivity].
  apply Qeq_bool_iff in E. contradiction.
Qed.

Lemma Qltb_false (a b : Q) : b <= a -> Qltb a b = false.
Proof.
  intros H. destruct (Qltb a b) eqn:E; [| reflexivity]. apply Qltb_lt in E. lra.
Qed.

(** Either [mode] is one of the constants 3 .. 18 that the function tests
    for, or it switches on the image grid at most. *)
Lemma toggleGridMode_cases (mode : Q) :
  (exists k, In k [3; 4; 5; 6; 7; 8; 9; 10; 11; 12; 13; 14; 15; 16; 17; 18] /\ mode == k) \/
  Mode.toggleGridMode mode
  = Mode.mkFlags (Mode.flag (Qltb 0 mode && Qltb mode 3)) 0 0 0 0 0 0 0 0 0 0 0 0 0 0 0.
Proof.
  destruct (Qeq_dec mode 3) as [E | N3]; [left; exists 3; split; [simpl; tauto | exact E] |].
  destruct (Qeq_dec mode 4) as [E | N4]; [left; exists 4; split; [simpl; tauto | exact E] |].
  destruct (Qeq_dec mode 5) as [E | N5]; [left; exists 5; split; [simpl; tauto | exact E] |].
  destruct (Qeq_dec mode 6) as [E | N6]; [left; exists 6; split; [simpl; tauto | exact E] |].
  destruct (Qeq_dec mode 7) as [E | N7]; [left; exists 7; split; [simpl; tauto | exact E] |].
  destruct (Qeq_dec mode 8) as [E | N8]; [left; exists 8; split; [simpl; tauto | exact E] |].
  destruct (Qeq_dec mode 9) as [E | N9]; [left; exists 9; split; [simpl; tauto | exact E] |].
  destruct (Qeq_dec mode 10) as [E | N10]; [left; exists 10; split; [simpl; tauto | exact E] |].
  destruct (Qeq_dec mode 11) as [E | N11]; [left; exists 11; split; [simpl; tauto | exact E] |].
  destruct (Qeq_dec mode 12) as [E | N12]; [left; exists 12; split; [simpl; tauto | exact E] |].
  destruct (Qeq_dec mode 13) as [E | N13]; [left; exists 13; split; [simpl; tauto | exact E] |].
  destruct (Qeq_dec mode 14) as [E | N14]; [left; exists 14; split; [simpl; tauto | exact E] |].
  destruct (Qeq_dec mode 15) as [E | N15]; [left; exists 15; split; [simpl; tauto | exact E] |].
  destruct (Qeq_dec mode 16) as [E | N16]; [left; exists 16; split; [simpl; tauto | exact E] |].
  destruct (Qeq_dec mode 17) as [E | N17]; [left; exists 17; split; [simpl; tauto | exact E] |].
  destruct (Qeq_dec mode 18) as [E | N18]; [left; exists 18; split; [simpl; tauto | exact E] |].
  right. unfold Mode.toggleGridMode.
  rewrite (Qeq_bool_false mode 3 N3), (Qeq_bool_false mode 4 N4), (Qeq_bool_false mode 5 N5),
    (Qeq_bool_false mode 6 N6), (Qeq_bool_false mode 7 N7), (Qeq_bool_false mode 8 N8),
    (Qeq_bool_false mode 9 N9), (Qeq_bool_false mode 10 N10), (Qeq_bool_false mode 11 N11),
    (Qeq_bool_false mode 12 N12), (Qeq_bool_false mode 13 N13), (Qeq_bool_false mode 14 N14),
    (Qeq_bool_false mode 15 N15), (Qeq_bool_false mode 16 N16), (Qeq_bool_false mode 17 N17),
    (Qeq_bool_false mode 18 N18).
  rewrite orb_false_r. reflexivity.
Qed.

(** For every value of [mode], [toggleGridMode] switches on at most one
    of the force fields of the gather kernel (none for a value outside
    (0, 18]), every mode uniform is 0 or 1, and the cylinder is only ever on
    together with front gravity. *)
Theorem toggleGridMode_exclusive (mode : Q) :
  (Zsum (Mode.primary (Mode.toggleGridMode mode)) <= 1)%Z /\
  Forall (fun f => f = 0%Z \/ f = 1%Z)
         (Mode.cylinderMode (Mode.toggleGridMode mode)
          :: Mode.primary (Mode.toggleGridMode mode)) /\
  (Mode.cylinderMode (Mode.toggleGridMode mode) = 1%Z ->
   Mode.frontGravityMode (Mode.toggleGridMode mode) = 1%Z) /\
  ((mode <= 0 \/ 18 < mode) -> Zsum (Mode.primary (Mode.toggleGridMode mode)) = 0%Z).
Proof.
  destruct (toggleGridMode_cases mode) as [[k [Hk E]] | E].
  - rewrite (toggleGridMode_compat mode k E).
    assert (R : 3 <= mode /\ mode <= 18).
    { simpl in Hk. repeat (destruct Hk as [<- | Hk]; [split; lra |]). destruct Hk. }
    simpl in Hk.
    repeat (destruct Hk as [<- | Hk];
            [split; [vm_compute; discriminate |
                     split; [vm_compute; repeat (apply Forall_cons; [auto |]); apply Forall_nil |
                             split; [vm_compute; congruence | intros; lra]]] |]).
    destruct Hk.
  - rewrite E. unfold Mode.primary.
    cbn [Mode.gridMode Mode.frontGravityMode Mode.cylinderMode Mode.sphereContainmentMode
         Mode.polygonContainmentMode Mode.colorSpheresMode Mode.populationSegmentPinkMode
         Mode.populationSegmentPurpleMode Mode.populationSegmentCyanMode
         Mode.populationSegmentTealMode Mode.populationSegmentDarkBlueMode
         Mode.populationSegmentDarkPurpleMode Mode.populationSegmentDarkRedMode
         Mode.populationSegmentOrangeMode Mode.populationSegmentLightGreenMode
         Mode.twoColorSphereMode Zsum fold_right].
    split; [| split; [| split]].
    + unfold Mode.flag. destruct (Qltb 0 mode && Qltb mode 3); lia.
    + unfold Mode.flag. destruct (Qltb 0 mode && Qltb mode 3);
        repeat (apply Forall_cons; [auto |]); apply Forall_nil.
    + discriminate.
    + intros H.
      assert (G : Qltb 0 mode && Qltb mode 3 = false).
      { destruct H as [H | H].
        - rewrite (Qltb_false 0 mode H). reflexivity.
        - rewrite (Qltb_false mode 3) by lra. apply andb_false_r. }
      rewrite G. reflexivity.
Qed.

(** ** The image grid *)

Lemma floorSqrt_spec (q : Q) :
  0 <= q ->
  inject_Z (ImageGrid.floorSqrt q * ImageGrid.floorSqrt q) <= q /\
  q < inject_Z ((ImageGrid.floorSqrt q + 1) * (ImageGrid.floorSqrt q + 1)) /\
  (0 <= ImageGrid.floorSqrt q)%Z.
Proof.
  intros H. unfold ImageGrid.floorSqrt.
  assert (F0 : (0 <= Qfloor q)%Z).
  { assert (L : inject_Z 0 < inject_Z (Qfloor q + 1)).
    { eapply Qle_lt_trans; [exact H | apply Qlt_floor]. }
    rewrite <- Zlt_Qlt in L. lia. }
  pose proof (Z.sqrt_spec (Qfloor q) F0) as [S1 S2].
  pose proof (Qfloor_le q) as L1. pose proof (Qlt_floor q) as L2.
  split; [| split; [| apply Z.sqrt_nonneg]].
  - eapply Qle_trans; [| exact L1]. rewrite <- Zle_Qle. exact S1.
  - eapply Qlt_le_trans; [exact L2 |]. rewrite <- Zle_Qle.
    unfold Z.succ in S2. lia.
Qed.

Lemma widthLags_zero_width (h : Z) (a : Q) :
  (0 < h)%Z -> 0 < a -> ImageGrid.widthLags 0 h a = true.
Proof.
  intros Hh Ha. unfold ImageGrid.widthLags.
  destruct (Z.eqb_spec h 0); [lia |]. apply Qltb_lt.
  assert (E : inject_Z 0 / inject_Z h == 0) by (unfold Qdiv; change (inject_Z 0) with 0; ring).
  rewrite E. exact Ha.
Qed.

Lemma grow_spec (N : Z) (a : Q) (fuel : nat) : 0 < a -> forall w h : Z,
  (0 <= w)%Z -> (0 <= h)%Z -> (h = 0 -> w = 0)%Z ->
  ((w * h < N)%Z -> (ImageGrid.potential N w h <= Z.of_nat fuel)%Z) ->
  exists w' h',
    ImageGrid.grow fuel N a w h = Some (w', h') /\
    (N <= w' * h')%Z /\ (w <= w')%Z /\ (h <= h')%Z /\
    ((w' = w /\ h' = h) \/ ((w' - 1) * h' < N)%Z \/ (w' * (h' - 1) < N)%Z).
Proof.
  intros Ha. induction fuel as [| fuel IH]; intros w h Hw Hh Hwh Hp.
  - cbn [ImageGrid.grow]. destruct (Z.ltb_spec (w * h) N) as [L | L].
    + exfalso. specialize (Hp L). unfold ImageGrid.potential in Hp.
      destruct (Z.eqb_spec h 0); [change (Z.of_nat 0) with 0%Z in Hp; nia |].
      destruct (Z.eqb_spec w 0); [change (Z.of_nat 0) with 0%Z in Hp; nia |].
      change (Z.of_nat 0) with 0%Z in Hp. nia.
    + exists w, h.
      split; [reflexivity | split; [lia | split; [lia | split; [lia | left; split; reflexivity]]]].
  - cbn [ImageGrid.grow]. destruct (Z.ltb_spec (w * h) N) as [L | L].
    + specialize (Hp L). rewrite Nat2Z.inj_succ in Hp. unfold ImageGrid.potential in Hp.
      destruct (ImageGrid.widthLags w h a) eqn:E.
      * assert (Hh1 : (h <> 0)%Z).
        { intros ->. unfold ImageGrid.widthLags in E. cbn in E.
          destruct (Z.ltb_spec w 0); [lia | discriminate]. }
        destruct (IH (w + 1)%Z h) as [w' [h' [G [C [W [H' M]]]]]]; try lia.
        { intros _. unfold ImageGrid.potential.
          destruct (Z.eqb_spec h 0); [lia |].
          destruct (Z.eqb_spec (w + 1) 0); [lia |].
          destruct (Z.eqb_spec w 0); lia. }
        exists w', h'. split; [exact G | split; [lia | split; [lia | split; [lia |]]]].
        right. destruct M as [[-> ->] | M]; [left | exact M].
        replace (w + 1 - 1)%Z with w by lia. exact L.
      * assert (Hcase : (h = 0 /\ w = 0)%Z \/ (0 < h /\ 0 < w)%Z).
        { destruct (Z.eq_dec h 0) as [-> | Hn]; [left; split; [reflexivity | apply Hwh; reflexivity] |].
          right. split; [lia |]. destruct (Z.eq_dec w 0) as [-> | Hn']; [| lia].
          rewrite widthLags_zero_width in E by (try lia; exact Ha). discriminate. }
        destruct (IH w (h + 1)%Z) as [w' [h' [G [C [W [H' M]]]]]]; try lia.
        { intros _. unfold ImageGrid.potential.
          destruct (Z.eqb_spec (h + 1) 0); [lia |].
          destruct Hcase as [[-> ->] | [P1 P2]].
          - cbn in Hp |- *. lia.
          - destruct (Z.eqb_spec h 0); [lia |].
            destruct (Z.eqb_spec w 0); lia. }
        exists w', h'. split; [exact G | split; [lia | split; [lia | split; [lia |]]]].
        right. destruct M as [[-> ->] | M]; [right | exact M].
        replace (h + 1 - 1)%Z with h by lia. exact L.
    + exists w, h.
      split; [reflexivity | split; [lia | split; [lia | split; [lia | left; split; reflexivity]]]].
Qed.

Lemma aspectRatio_pos (imgWidth imgHeight : Z) :
  (0 < imgWidth)%Z -> (0 < imgHeight)%Z -> 0 < ImageGrid.aspectRatio imgWidth imgHeight.
Proof.
  intros Hw Hh. unfold ImageGrid.aspectRatio. apply Qlt_shift_div_l.
  - change 0 with (inject_Z 0). rewrite <- Zlt_Qlt. exact Hh.
  - rewrite Qmult_0_l. change 0 with (inject_Z 0). rewrite <- Zlt_Qlt. exact Hw.
Qed.

(** The loop that sizes the image grid terminates, within
    [numParticles + 1] iterations, on a grid that has a position for every
    particle; and the grid is tight: unless the first estimate already
    sufficed, taking away the last column or the last row added would leave
    fewer positions than particles. *)
Theorem gridDimensions_capacity (fuel : nat) (numParticles imgWidth imgHeight : Z) :
  (0 < imgWidth)%Z -> (0 < imgHeight)%Z -> (0 <= numParticles)%Z ->
  (Z.to_nat numParticles + 1 <= fuel)%nat ->
  exists gridWidth gridHeight,
    ImageGrid.gridDimensions fuel numParticles imgWidth imgHeight
    = Some (gridWidth, gridHeight) /\
    (numParticles <= gridWidth * gridHeight)%Z /\
    (0 <= gridWidth)%Z /\ (0 <= gridHeight)%Z /\
    ((gridWidth = ImageGrid.initialWidth numParticles imgWidth imgHeight /\
      gridHeight = ImageGrid.initialHeight numParticles imgWidth imgHeight) \/
     ((gridWidth - 1) * gridHeight < numParticles)%Z \/
     (gridWidth * (gridHeight - 1) < numParticles)%Z).
Proof.
  intros Hw Hh HN Hf.
  pose proof (aspectRatio_pos imgWidth imgHeight Hw Hh) as Ha.
  set (a := ImageGrid.aspectRatio imgWidth imgHeight) in *.
  assert (Hq : 0 <= inject_Z numParticles / a).
  { apply Qle_shift_div_l; [exact Ha |]. rewrite Qmult_0_l.
    change 0 with (inject_Z 0). rewrite <- Zle_Qle. exact HN. }
  destruct (floorSqrt_spec _ Hq) as [_ [_ H0]].
  unfold ImageGrid.gridDimensions, ImageGrid.initialWidth, ImageGrid.initialHeight. fold a.
  set (h0 := ImageGrid.floorSqrt (inject_Z numParticles / a)) in *.
  assert (W0 : (0 <= Qfloor (inject_Z h0 * a))%Z).
  { assert (P : 0 <= inject_Z h0 * a).
    { apply Qmult_le_0_compat; [| lra]. change 0 with (inject_Z 0). rewrite <- Zle_Qle. exact H0. }
    assert (L : inject_Z 0 < inject_Z (Qfloor (inject_Z h0 * a) + 1)).
    { eapply Qle_lt_trans; [exact P | apply Qlt_floor]. }
    rewrite <- Zlt_Qlt in L. lia. }
  destruct (grow_spec numParticles a fuel Ha (Qfloor (inject_Z h0 * a)) h0 W0 H0)
    as [w' [h' [G [C [W [H' M]]]]]].
  - intros E. rewrite E.
    assert (Z0 : inject_Z 0 * a == 0) by (change (inject_Z 0) with 0; ring).
    rewrite (Qfloor_comp _ _ Z0). reflexivity.
  - intros L. unfold ImageGrid.potential.
    destruct (Z.eqb_spec h0 0); [lia |].
    destruct (Z.eqb_spec (Qfloor (inject_Z h0 * a)) 0); lia.
  - exists w', h'. split; [exact G | split; [lia | split; [lia | split; [lia | exact M]]]].
Qed.

Lemma gridDimensions_capacity_witness :
  exists gridWidth gridHeight,
    ImageGrid.gridDimensions 13 12 3 2 = Some (gridWidth, gridHeight) /\
    (12 <= gridWidth * gridHeight)%Z /\
    (0 <= gridWidth)%Z /\ (0 <= gridHeight)%Z /\
    ((gridWidth = ImageGrid.initialWidth 12 3 2 /\
      gridHeight = ImageGrid.initialHeight 12 3 2) \/
     ((gridWidth - 1) * gridHeight < 12)%Z \/
     (gridWidth * (gridHeight - 1) < 12)%Z).
Proof.
  apply (gridDimensions_capacity 13 12 3 2); try reflexivity; discriminate.
Defined.

Lemma gridYOf_div (w i : Z) : (0 < w)%Z -> ImageGrid.gridYOf w i = (i / w)%Z.
Proof.
  intros Hw. destruct w as [| p | p]; try lia.
  unfold ImageGrid.gridYOf, Qfloor, Qdiv, Qmult, Qinv, inject_Z. simpl.
  rewrite Z.mul_1_r. reflexivity.
Qed.

Lemma gridYOf_range (w h N i : Z) :
  (0 < w)%Z -> (N <= w * h)%Z -> (0 <= i < N)%Z -> (0 <= ImageGrid.gridYOf w i < h)%Z.
Proof.
  intros Hw HN Hi. rewrite gridYOf_div by exact Hw. split.
  - apply Z.div_pos; lia.
  - apply Z.div_lt_upper_bound; [exact Hw | lia].
Qed.

Lemma activeParticles_In (N i : Z) : In i (activeParticles N) <-> (0 <= i < N)%Z.
Proof.
  unfold activeParticles. rewrite in_map_iff. split.
  - intros [k [<- Hk]]. apply in_seq in Hk. lia.
  - intros H. exists (Z.to_nat i). split; [lia |]. apply in_seq. lia.
Qed.

Lemma activeParticles_nth (N i : Z) :
  (0 <= i < N)%Z -> nth_error (activeParticles N) (Z.to_nat i) = Some i.
Proof.
  intros H. unfold activeParticles.
  rewrite nth_error_map, nth_error_seq.
  destruct (Nat.ltb_spec (Z.to_nat i) (Z.to_nat N)) as [_ | G]; [| lia].
  cbn. f_equal. lia.
Qed.

Lemma flat_map_singleton {A B : Type} (f : A -> list B) (g : A -> B) (l : list A) :
  (forall x, In x l -> f x = [g x]) -> flat_map f l = List.map g l.
Proof.
  induction l as [| a l IH]; intros H; [reflexivity |].
  cbn [flat_map List.map]. rewrite (H a (or_introl eq_refl)), IH; [reflexivity |].
  intros x Hx. apply H. right. exact Hx.
Qed.

(** On a grid with a position for every particle the loop over the
    particles skips none: [gridTargetPositions] holds exactly one target per
    particle, the entry of index [i] being the target of particle [i], which
    is what the recolouring of [toggleGridMode] relies on when it reads
    entry [i] for particle [i]. *)
Theorem image_targets_aligned (numParticles gridWidth gridHeight : Z) :
  (1 <= gridWidth)%Z -> (0 <= numParticles <= gridWidth * gridHeight)%Z ->
  length (ImageGrid.gridTargetPositions numParticles gridWidth gridHeight)
  = Z.to_nat numParticles /\
  forall i, (0 <= i < numParticles)%Z ->
    ImageGrid.targetOf gridWidth gridHeight i
    = Some (ImageGrid.targetAt gridWidth gridHeight i) /\
    nth_error (ImageGrid.gridTargetPositions numParticles gridWidth gridHeight) (Z.to_nat i)
    = Some (ImageGrid.targetAt gridWidth gridHeight i).
Proof.
  intros Hw HN.
  assert (T : forall i, (0 <= i < numParticles)%Z ->
            ImageGrid.targetOf gridWidth gridHeight i
            = Some (ImageGrid.targetAt gridWidth gridHeight i)).
  { intros i Hi. unfold ImageGrid.targetOf.
    pose proof (gridYOf_range gridWidth gridHeight numParticles i ltac:(lia) ltac:(lia) Hi).
    destruct (Z.geb_spec (ImageGrid.gridYOf gridWidth i) gridHeight); [lia | reflexivity]. }
  assert (E : ImageGrid.gridTargetPositions numParticles gridWidth gridHeight
              = List.map (ImageGrid.targetAt gridWidth gridHeight)
                         (activeParticles numParticles)).
  { unfold ImageGrid.gridTargetPositions. apply flat_map_singleton.
    intros i Hi. apply activeParticles_In in Hi. rewrite (T i Hi). reflexivity. }
  rewrite E. split.
  - rewrite length_map. unfold activeParticles. rewrite length_map, length_seq. reflexivity.
  - intros i Hi. split; [apply T, Hi |].
    rewrite nth_error_map, (activeParticles_nth _ _ Hi). reflexivity.
Qed.

Lemma image_targets_aligned_witness :
  length (ImageGrid.gridTargetPositions 12 4 3) = Z.to_nat 12 /\
  forall i, (0 <= i < 12)%Z ->
    ImageGrid.targetOf 4 3 i = Some (ImageGrid.targetAt 4 3 i) /\
    nth_error (ImageGrid.gridTargetPositions 12 4 3) (Z.to_nat i)
    = Some (ImageGrid.targetAt 4 3 i).
Proof. apply (image_targets_aligned 12 4 3); lia. Defined.

Lemma inject_Z_pred (z : Z) : inject_Z (z - 1) == inject_Z z - 1.
Proof.
  unfold Z.sub, Qminus. rewrite inject_Z_plus, inject_Z_opp. reflexivity.
Qed.

Lemma inject_Z_ge_1 (z : Z) : (1 <= z)%Z -> 1 <= inject_Z z.
Proof. intros H. change 1 with (inject_Z 1). rewrite <- Zle_Qle. exact H. Qed.

Lemma equalSpacing_bounds (w h : Z) :
  (1 <= w)%Z -> (1 <= h)%Z ->
  0 < ImageGrid.equalSpacing w h /\
  inject_Z w * ImageGrid.equalSpacing w h <= 120 /\
  inject_Z h * ImageGrid.equalSpacing w h <= 60.
Proof.
  intros Hw Hh. pose proof (inject_Z_ge_1 w Hw) as W1. pose proof (inject_Z_ge_1 h Hh) as H1.
  unfold ImageGrid.equalSpacing, ImageGrid.availableWidth, ImageGrid.availableHeight.
  set (W := inject_Z w) in *. set (H := inject_Z h) in *.
  assert (A : 0 < 120 / W) by (apply Qlt_shift_div_l; lra).
  assert (B : 0 < 60 / H) by (apply Qlt_shift_div_l; lra).
  assert (EA : W * (120 / W) == 120) by (field; lra).
  assert (EB : H * (60 / H) == 60) by (field; lra).
  pose proof (Q.le_min_l (120 / W) (60 / H)) as L1.
  pose proof (Q.le_min_r (120 / W) (60 / H)) as L2.
  assert (P : 0 < Qmin (120 / W) (60 / H)).
  { destruct (Q.min_dec (120 / W) (60 / H)) as [E | E]; rewrite E; assumption. }
  set (s := Qmin (120 / W) (60 / H)) in *. clearbody s.
  set (a := 120 / W) in *. set (b := 60 / H) in *. clearbody a b.
  split; [exact P |]. split; nra.
Qed.

(** Every target of the image grid lies inside the box to which [g2p]
    clamps the particles of the simulator's 128 x 64 x 64 grid, four cells
    or more from the x walls and in the middle plane in z: the grid mode
    never pulls a particle toward a point it cannot reach. *)
Theorem image_targets_in_box (u : Uniforms) (gridWidth gridHeight i : Z) :
  gridSize u = simulatorGrid ->
  (1 <= gridWidth)%Z -> (1 <= gridHeight)%Z -> (0 <= i)%Z ->
  (ImageGrid.gridYOf gridWidth i < gridHeight)%Z ->
  exists t,
    ImageGrid.targetOf gridWidth gridHeight i = Some t /\
    inGrid u t /\
    4 <= vx t /\ vx t < 124 /\ 2 <= vy t /\ vy t < 62 /\ vz t == 32.
Proof.
  intros Hu Hw Hh Hi Hy.
  exists (ImageGrid.targetAt gridWidth gridHeight i).
  split.
  { unfold ImageGrid.targetOf.
    destruct (Z.geb_spec (ImageGrid.gridYOf gridWidth i) gridHeight); [lia | reflexivity]. }
  destruct (equalSpacing_bounds gridWidth gridHeight Hw Hh) as [S0 [SW SH]].
  assert (Gx : (0 <= ImageGrid.gridXOf gridWidth i <= gridWidth - 1)%Z).
  { unfold ImageGrid.gridXOf. pose proof (Z.rem_bound_pos i gridWidth Hi ltac:(lia)). lia. }
  assert (Gy : (0 <= ImageGrid.gridYOf gridWidth i <= gridHeight - 1)%Z).
  { split; [| lia]. rewrite gridYOf_div by lia. apply Z.div_pos; lia. }
  assert (Qx : 0 <= inject_Z (ImageGrid.gridXOf gridWidth i) /\
               inject_Z (ImageGrid.gridXOf gridWidth i) <= inject_Z gridWidth - 1).
  { split.
    - change 0 with (inject_Z 0). rewrite <- Zle_Qle. lia.
    - rewrite <- inject_Z_pred, <- Zle_Qle. lia. }
  assert (Qy : 0 <= inject_Z (ImageGrid.gridYOf gridWidth i) /\
               inject_Z (ImageGrid.gridYOf gridWidth i) <= inject_Z gridHeight - 1).
  { split.
    - change 0 with (inject_Z 0). rewrite <- Zle_Qle. lia.
    - rewrite <- inject_Z_pred, <- Zle_Qle. lia. }
  destruct Qx as [Qx0 Qx1]. destruct Qy as [Qy0 Qy1].
  assert (X : 4 <= vx (ImageGrid.targetAt gridWidth gridHeight i) /\
              vx (ImageGrid.targetAt gridWidth gridHeight i) < 124 /\
              2 <= vy (ImageGrid.targetAt gridWidth gridHeight i) /\
              vy (ImageGrid.targetAt gridWidth gridHeight i) < 62 /\
              vz (ImageGrid.targetAt gridWidth gridHeight i) == 32).
  { unfold ImageGrid.targetAt, ImageGrid.gridStartX, ImageGrid.gridStartY, ImageGrid.zPos.
    cbn [vx vy vz].
    set (s := ImageGrid.equalSpacing gridWidth gridHeight) in *.
    set (gx := inject_Z (ImageGrid.gridXOf gridWidth i)) in *.
    set (gy := inject_Z (ImageGrid.gridYOf gridWidth i)) in *.
    set (W := inject_Z gridWidth) in *. set (H := inject_Z gridHeight) in *.
    clearbody s gx gy W H.
    assert (E1 : (128 - W * s) / 2 == 64 - W * s * 0.5) by field.
    assert (E2 : (64 - H * s) / 2 == 32 - H * s * 0.5) by field.
    rewrite E1, E2.
    assert (P1 : 0 <= gx * s) by nra.
    assert (P2 : gx * s <= (W - 1) * s) by nra.
    assert (P3 : 0 <= gy * s) by nra.
    assert (P4 : gy * s <= (H - 1) * s) by nra.
    repeat split; try nra. }
  destruct X as [X1 [X2 [Y1 [Y2 Z1]]]].
  split; [| repeat split; assumption].
  unfold inGrid. rewrite Hu. cbn [simulatorGrid ix iy iz].
  change (inject_Z (128 - 2)) with 126. change (inject_Z (64 - 2)) with 62.
  repeat split; lra.
Qed.

Lemma image_targets_in_box_witness :
  exists t,
    ImageGrid.targetOf 4 3 11 = Some t /\
    inGrid exampleUniforms t /\
    4 <= vx t /\ vx t < 124 /\ 2 <= vy t /\ vy t < 62 /\ vz t == 32.
Proof.
  apply (image_targets_in_box exampleUniforms 4 3 11); try reflexivity; lia.
Defined.

Lemma normalized_range (c n : Z) :
  (0 <= c <= n - 1)%Z -> 0 <= ImageGrid.normalized c n /\ ImageGrid.normalized c n <= 1.
Proof.
  intros H. unfold ImageGrid.normalized. destruct (Z.gtb_spec n 1) as [G | G]; [| split; lra].
  assert (D : 0 < inject_Z (n - 1)).
  { change 0 with (inject_Z 0). rewrite <- Zlt_Qlt. lia. }
  split.
  - apply Qle_shift_div_l; [exact D |]. rewrite Qmult_0_l.
    change 0 with (inject_Z 0). rewrite <- Zle_Qle. lia.
  - apply Qle_shift_div_r; [exact D |]. rewrite Qmult_1_l. rewrite <- Zle_Qle. lia.
Qed.

Lemma imgCoord_range (c n size : Z) :
  (0 <= c <= n - 1)%Z -> (1 <= size)%Z -> (0 <= ImageGrid.imgCoord c n size <= size - 1)%Z.
Proof.
  intros Hc Hs. destruct (normalized_range c n Hc) as [N0 N1]. unfold ImageGrid.imgCoord.
  set (nz := ImageGrid.normalized c n) in *. clearbody nz.
  assert (S0 : 0 <= inject_Z (size - 1)).
  { change 0 with (inject_Z 0). rewrite <- Zle_Qle. lia. }
  assert (V0 : 0 <= (1 - nz) * inject_Z (size - 1)).
  { set (s := inject_Z (size - 1)) in *. clearbody s. nra. }
  assert (V1 : (1 - nz) * inject_Z (size - 1) <= inject_Z (size - 1)).
  { set (s := inject_Z (size - 1)) in *. clearbody s. nra. }
  pose proof (Qfloor_resp_le _ _ V0) as F0. pose proof (Qfloor_resp_le _ _ V1) as F1.
  rewrite Qfloor_Z in F1. change (Qfloor 0) with 0%Z in F0. lia.
Qed.

(** The pixel that colours a particle is always a pixel of the image: the
    offsets [pixelIndex .. pixelIndex + 3] read from the RGBA data lie inside
    its [4 * width * height] entries.  The sampling is mirrored: the first
    grid column reads the last image column, and the last grid column the
    first. *)
Theorem pixel_in_bounds (gridWidth gridHeight imgWidth imgHeight i : Z) :
  (1 <= imgWidth)%Z -> (1 <= imgHeight)%Z ->
  (1 <= gridWidth)%Z -> (1 <= gridHeight)%Z -> (0 <= i)%Z ->
  (ImageGrid.gridYOf gridWidth i < gridHeight)%Z ->
  (0 <= ImageGrid.pixelIndexOf gridWidth gridHeight imgWidth imgHeight i)%Z /\
  (ImageGrid.pixelIndexOf gridWidth gridHeight imgWidth imgHeight i + 3
   < 4 * (imgWidth * imgHeight))%Z /\
  ImageGrid.imgCoord 0 gridWidth imgWidth = (imgWidth - 1)%Z /\
  ((1 < gridWidth)%Z -> ImageGrid.imgCoord (gridWidth - 1) gridWidth imgWidth = 0%Z).
Proof.
  intros HW HH Hw Hh Hi Hy.
  assert (Gx : (0 <= ImageGrid.gridXOf gridWidth i <= gridWidth - 1)%Z).
  { unfold ImageGrid.gridXOf. pose proof (Z.rem_bound_pos i gridWidth Hi ltac:(lia)). lia. }
  assert (Gy : (0 <= ImageGrid.gridYOf gridWidth i <= gridHeight - 1)%Z).
  { split; [| lia]. rewrite gridYOf_div by lia. apply Z.div_pos; lia. }
  pose proof (imgCoord_range _ gridWidth imgWidth Gx HW) as Ix.
  pose proof (imgCoord_range _ gridHeight imgHeight Gy HH) as Iy.
  unfold ImageGrid.pixelIndexOf.
  set (x := ImageGrid.imgCoord (ImageGrid.gridXOf gridWidth i) gridWidth imgWidth) in *.
  set (y := ImageGrid.imgCoord (ImageGrid.gridYOf gridWidth i) gridHeight imgHeight) in *.
  clearbody x y.
  split; [nia |]. split; [nia |]. split.
  - unfold ImageGrid.imgCoord.
    assert (E : (1 - ImageGrid.normalized 0 gridWidth) * inject_Z (imgWidth - 1)
                == inject_Z (imgWidth - 1)).
    { unfold ImageGrid.normalized. destruct (gridWidth >? 1)%Z; [| ring].
      unfold Qdiv. change (inject_Z 0) with 0. ring. }
    rewrite (Qfloor_comp _ _ E). apply Qfloor_Z.
  - intros G. unfold ImageGrid.imgCoord.
    assert (E : (1 - ImageGrid.normalized (gridWidth - 1) gridWidth) * inject_Z (imgWidth - 1)
                == inject_Z 0).
    { unfold ImageGrid.normalized. destruct (Z.gtb_spec gridWidth 1) as [_ | G']; [| lia].
      assert (D : 0 < inject_Z (gridWidth - 1)).
      { change 0 with (inject_Z 0). rewrite <- Zlt_Qlt. lia. }
      change (inject_Z 0) with 0. field. lra. }
    rewrite (Qfloor_comp _ _ E). apply Qfloor_Z.
Qed.

Lemma pixel_in_bounds_witness :
  (0 <= ImageGrid.pixelIndexOf 4 3 640 480 11)%Z /\
  (ImageGrid.pixelIndexOf 4 3 640 480 11 + 3 < 4 * (640 * 480))%Z /\
  ImageGrid.imgCoord 0 4 640 = (640 - 1)%Z /\
  ((1 < 4)%Z -> ImageGrid.imgCoord (4 - 1) 4 640 = 0%Z).
Proof. apply (pixel_in_bounds 4 3 640 480 11); try reflexivity; lia. Defined.

(** ** The point-in-polygon test *)

Lemma Qltb_compat_r (a b b' : Q) : b == b' -> Qltb a b = Qltb a b'.
Proof.
  intros H. unfold Qltb. f_equal. apply Qle_bool_compat; [exact H | reflexivity].
Qed.

Lemma toggle_bit (inside : Z) :
  (inside = 0 \/ inside = 1)%Z -> Z.rem (iadd inside 1) 2 = (1 - inside)%Z.
Proof. intros [-> | ->]; reflexivity. Qed.

(** An edge that crosses the ray is not horizontal: the division of the
    crossing test has a non-zero divisor. *)
Lemma crossing_divisor (pv : Z -> Polygon.vec2) (p : Polygon.vec2) (i j : Z) :
  xorb (Polygon.above pv p i) (Polygon.above pv p j) = true ->
  ~ Polygon.py (Polygon.vertexAt pv j) - Polygon.py (Polygon.vertexAt pv i) == 0.
Proof.
  unfold Polygon.above. intros X E.
  assert (E' : Polygon.py (Polygon.vertexAt pv i) == Polygon.py (Polygon.vertexAt pv j)) by lra.
  rewrite (Qltb_compat_r _ _ _ E') in X. rewrite xorb_nilpotent in X. discriminate.
Qed.

Lemma crossingStep_total (pv : Z -> Polygon.vec2) (n : Z) (p : Polygon.vec2) (inside i : Z) :
  (inside = 0 \/ inside = 1)%Z ->
  exists r, Polygon.crossingStep pv n p inside i = Some r /\ (r = 0 \/ r = 1)%Z.
Proof.
  intros H. unfold Polygon.crossingStep.
  destruct (xorb _ _) eqn:X; [| exists inside; split; [reflexivity | exact H]].
  rewrite (fdiv_defined _ _ (crossing_divisor pv p i _ X)).
  eexists. split; [reflexivity |].
  destruct (Qltb _ _); [| exact H]. rewrite (toggle_bit _ H). lia.
Qed.

Lemma crossingLoop_total (pv : Z -> Polygon.vec2) (n : Z) (p : Polygon.vec2) (k : nat) :
  forall i inside, (inside = 0 \/ inside = 1)%Z ->
  exists r, Polygon.crossingLoop pv n p k i inside = Some r /\ (r = 0 \/ r = 1)%Z.
Proof.
  induction k as [| k IH]; intros i inside H.
  - exists inside. split; [reflexivity | exact H].
  - cbn [Polygon.crossingLoop].
    destruct (crossingStep_total pv n p inside i H) as [r [E Hr]]. rewrite E.
    apply IH, Hr.
Qed.

(** The point-in-polygon test always has a result, 0 or 1, for any
    vertices, vertex count and point: the only division of the loop is
    reached for edges that are not horizontal. *)
Theorem insideTest_total (polygonVertices : Z -> Polygon.vec2) (vertexCount : Z)
  (p : Polygon.vec2) :
  exists inside,
    Polygon.insideTest polygonVertices vertexCount p = Some inside /\
    (inside = 0 \/ inside = 1)%Z.
Proof. apply crossingLoop_total. left. reflexivity. Qed.

Section PolygonBox.

Variable pv : Z -> Polygon.vec2.
Variable n : Z.
Variable p : Polygon.vec2.

Hypothesis count_range : (1 <= n <= 16)%Z.

Lemma vertexAt_in_range (i : Z) : (0 <= i <= 15)%Z -> Polygon.vertexAt pv i = pv i.
Proof.
  intros H. unfold Polygon.vertexAt.
  destruct (Z.leb_spec 0 i); [| lia].
  destruct (Z.leb_spec i 14); cbn [andb]; [reflexivity |].
  replace i with 15%Z by lia. reflexivity.
Qed.

Lemma nextIndex_spec (i : Z) :
  (0 <= i < n)%Z ->
  Polygon.nextIndex n i = (if (i =? n - 1)%Z then 0 else i + 1)%Z /\
  (0 <= Polygon.nextIndex n i < n)%Z.
Proof.
  intros H. unfold Polygon.nextIndex, isub, iadd.
  rewrite (wrap32_id (n - 1)) by (unfold Tsl.INT32_MIN, Tsl.INT32_MAX; lia).
  rewrite (wrap32_id (i + 1)) by (unfold Tsl.INT32_MIN, Tsl.INT32_MAX; lia).
  split; [reflexivity |]. destruct (Z.eqb_spec i (n - 1)); lia.
Qed.

(** The parameter of the crossing point along a crossing edge lies in
    [[0, 1]]. *)
Lemma crossing_param (i j : Z) :
  xorb (Polygon.above pv p i) (Polygon.above pv p j) = true ->
  exists t,
    Tsl.fdiv (Polygon.py p - Polygon.py (Polygon.vertexAt pv i))
             (Polygon.py (Polygon.vertexAt pv j) - Polygon.py (Polygon.vertexAt pv i))
    = Some t /\ 0 <= t /\ t <= 1.
Proof.
  intros X. pose proof (crossing_divisor pv p i j X) as D.
  rewrite (fdiv_defined _ _ D). eexists. split; [reflexivity |].
  unfold Polygon.above in X.
  set (y0 := Polygon.py (Polygon.vertexAt pv i)) in *.
  set (y1 := Polygon.py (Polygon.vertexAt pv j)) in *.
  set (y := Polygon.py p) in *.
  assert (T : (y - y0) / (y1 - y0) * (y1 - y0) == y - y0) by (field; exact D).
  set (t := (y - y0) / (y1 - y0)) in *. clearbody t.
  assert (B : forall d m : Q, t * d == m -> (d <= m /\ m < 0) \/ (0 <= m /\ m < d) ->
              0 <= t /\ t <= 1).
  { intros d m E [[H1 H2] | [H1 H2]].
    - split.
      + destruct (Qlt_le_dec t 0) as [L | L]; [| exact L]. exfalso.
        assert (P : 0 < (- t) * (- d)) by (apply Qmult_lt_0_compat; lra).
        assert (R : (- t) * (- d) == m) by (rewrite <- E; ring). lra.
      + destruct (Qlt_le_dec 1 t) as [L | L]; [| exact L]. exfalso.
        assert (P : 0 < (t - 1) * (- d)) by (apply Qmult_lt_0_compat; lra).
        assert (R : (t - 1) * (- d) == d - m) by (rewrite <- E; ring). lra.
    - split.
      + destruct (Qlt_le_dec t 0) as [L | L]; [| exact L]. exfalso.
        assert (P : 0 < (- t) * d) by (apply Qmult_lt_0_compat; lra).
        assert (R : (- t) * d == - m) by (rewrite <- E; ring). lra.
      + destruct (Qlt_le_dec 1 t) as [L | L]; [| exact L]. exfalso.
        assert (P : 0 < (t - 1) * d) by (apply Qmult_lt_0_compat; lra).
        assert (R : (t - 1) * d == m - d) by (rewrite <- E; ring). lra. }
  apply (B (y1 - y0) (y - y0) T).
  destruct (Qltb y y0) eqn:A0; destruct (Qltb y y1) eqn:A1; try discriminate.
  - apply Qltb_lt in A0.
    assert (N1 : y1 <= y).
    { destruct (Qlt_le_dec y y1) as [L | L]; [| exact L]. apply Qltb_lt in L. congruence. }
    left. split; lra.
  - apply Qltb_lt in A1.
    assert (N0 : y0 <= y).
    { destruct (Qlt_le_dec y y0) as [L | L]; [| exact L]. apply Qltb_lt in L. congruence. }
    right. split; lra.
Qed.

Lemma crossingLoop_constant (k : nat) : forall s inside,
  (forall i, (s <= i < s + Z.of_nat k)%Z -> Polygon.crossingStep pv n p inside i = Some inside) ->
  Polygon.crossingLoop pv n p k s inside = Some inside.
Proof.
  induction k as [| k IH]; intros s inside H; [reflexivity |].
  cbn [Polygon.crossingLoop]. rewrite H by lia. apply IH. intros i Hi. apply H. lia.
Qed.

(** No vertex is above the ray, or all are: no edge crosses it. *)
Lemma no_crossing (inside i : Z) :
  Polygon.above pv p i = Polygon.above pv p (Polygon.nextIndex n i) ->
  Polygon.crossingStep pv n p inside i = Some inside.
Proof.
  intros E. unfold Polygon.crossingStep. rewrite E, xorb_nilpotent. reflexivity.
Qed.

(** Every vertex is at or left of the point: no crossing is to its right. *)
Lemma crossing_left (inside i : Z) :
  (0 <= i < n)%Z ->
  (forall k, (0 <= k < n)%Z -> Polygon.px (pv k) <= Polygon.px p) ->
  Polygon.crossingStep pv n p inside i = Some inside.
Proof.
  intros Hi Hx. destruct (nextIndex_spec i Hi) as [_ Hj].
  unfold Polygon.crossingStep.
  destruct (xorb _ _) eqn:X; [| reflexivity].
  destruct (crossing_param i _ X) as [t [E [T0 T1]]]. rewrite E.
  pose proof (Hx i Hi) as X0. pose proof (Hx _ Hj) as X1.
  rewrite <- (vertexAt_in_range i) in X0 by lia.
  rewrite <- (vertexAt_in_range (Polygon.nextIndex n i)) in X1 by lia.
  set (x0 := Polygon.px (Polygon.vertexAt pv i)) in *.
  set (x1 := Polygon.px (Polygon.vertexAt pv (Polygon.nextIndex n i))) in *.
  rewrite Qltb_false; [reflexivity |]. nra.
Qed.

(** Every vertex is right of the point: every crossing toggles. *)
Lemma crossing_right (inside i : Z) :
  (0 <= i < n)%Z -> (inside = 0 \/ inside = 1)%Z ->
  (forall k, (0 <= k < n)%Z -> Polygon.px p < Polygon.px (pv k)) ->
  Polygon.crossingStep pv n p inside i
  = Some (if xorb (Polygon.above pv p i) (Polygon.above pv p (Polygon.nextIndex n i))
          then (1 - inside)%Z else inside).
Proof.
  intros Hi Hin Hx. destruct (nextIndex_spec i Hi) as [_ Hj].
  unfold Polygon.crossingStep.
  destruct (xorb _ _) eqn:X; [| reflexivity].
  destruct (crossing_param i _ X) as [t [E [T0 T1]]]. rewrite E.
  pose proof (Hx i Hi) as X0. pose proof (Hx _ Hj) as X1.
  rewrite <- (vertexAt_in_range i) in X0 by lia.
  rewrite <- (vertexAt_in_range (Polygon.nextIndex n i)) in X1 by lia.
  set (x0 := Polygon.px (Polygon.vertexAt pv i)) in *.
  set (x1 := Polygon.px (Polygon.vertexAt pv (Polygon.nextIndex n i))) in *.
  assert (L : Qltb (Polygon.px p) (x0 + (x1 - x0) * t) = true).
  { apply Qltb_lt. set (xp := Polygon.px p) in *.
    assert (P1 : 0 <= (1 - t) * (x0 - xp)) by (apply Qmult_le_0_compat; lra).
    assert (P2 : 0 <= t * (x1 - xp)) by (apply Qmult_le_0_compat; lra).
    assert (EQ : x0 + (x1 - x0) * t - xp == (1 - t) * (x0 - xp) + t * (x1 - xp)) by ring.
    destruct (Qlt_le_dec t 0.5) as [T | T].
    - assert (P3 : 0.5 * (x0 - xp) <= (1 - t) * (x0 - xp)) by (apply Qmult_le_compat_r; lra).
      set (a := (1 - t) * (x0 - xp)) in *. set (b := t * (x1 - xp)) in *.
      set (c := (x1 - x0) * t) in *. clearbody a b c. lra.
    - assert (P3 : 0.5 * (x1 - xp) <= t * (x1 - xp)) by (apply Qmult_le_compat_r; lra).
      set (a := (1 - t) * (x0 - xp)) in *. set (b := t * (x1 - xp)) in *.
      set (c := (x1 - x0) * t) in *. clearbody a b c. lra. }
  rewrite L, (toggle_bit _ Hin). reflexivity.
Qed.

(** Along the closed polygon the ray is crossed an even number of times. *)
Lemma crossing_parity (k : nat) : forall s,
  (forall i, (0 <= i < n)%Z -> Polygon.px p < Polygon.px (pv i)) ->
  (0 <= s)%Z -> (s + Z.of_nat k = n)%Z -> (1 <= k)%nat ->
  Polygon.crossingLoop pv n p k s
    (Polygon.bit (xorb (Polygon.above pv p 0) (Polygon.above pv p s)))
  = Some 0%Z.
Proof.
  induction k as [| k IH]; intros s Hx Hs Hk H1; [lia |].
  cbn [Polygon.crossingLoop].
  assert (Hi : (0 <= s < n)%Z) by lia.
  assert (Hb : forall b, (Polygon.bit b = 0 \/ Polygon.bit b = 1)%Z)
    by (intros []; [right | left]; reflexivity).
  rewrite (crossing_right _ s Hi (Hb _) Hx).
  destruct (nextIndex_spec s Hi) as [Ej _]. rewrite Ej.
  destruct (Z.eqb_spec s (n - 1)) as [Es | Ns].
  - assert (k = 0%nat) by lia. subst k. cbn [Polygon.crossingLoop]. f_equal.
    destruct (Polygon.above pv p 0), (Polygon.above pv p s); reflexivity.
  - replace (if xorb (Polygon.above pv p s) (Polygon.above pv p (s + 1))
             then (1 - Polygon.bit (xorb (Polygon.above pv p 0) (Polygon.above pv p s)))%Z
             else Polygon.bit (xorb (Polygon.above pv p 0) (Polygon.above pv p s)))
      with (Polygon.bit (xorb (Polygon.above pv p 0) (Polygon.above pv p (s + 1))))
      by (destruct (Polygon.above pv p 0), (Polygon.above pv p s),
                   (Polygon.above pv p (s + 1)); reflexivity).
    apply IH; [exact Hx | lia | lia | lia].
Qed.

End PolygonBox.

(** A point outside the bounding box of the polygon is classified as
    outside: whether it lies above or below all the vertices in use (no edge
    crosses its ray), at or right of all of them (no crossing is to its
    right) or left of all of them (the ray crosses the closed polygon an even
    number of times). *)
Theorem polygon_outside_box (polygonVertices : Z -> Polygon.vec2) (vertexCount : Z)
  (p : Polygon.vec2) :
  (1 <= vertexCount <= 16)%Z ->
  (forall i, (0 <= i < vertexCount)%Z -> Polygon.py (polygonVertices i) <= Polygon.py p) \/
  (forall i, (0 <= i < vertexCount)%Z -> Polygon.py p < Polygon.py (polygonVertices i)) \/
  (forall i, (0 <= i < vertexCount)%Z -> Polygon.px (polygonVertices i) <= Polygon.px p) \/
  (forall i, (0 <= i < vertexCount)%Z -> Polygon.px p < Polygon.px (polygonVertices i)) ->
  Polygon.insideTest polygonVertices vertexCount p = Some 0%Z.
Proof.
  intros Hn H. unfold Polygon.insideTest.
  assert (A : forall b,
            (forall i, (0 <= i < vertexCount)%Z -> Polygon.above polygonVertices p i = b) ->
            Polygon.crossingLoop polygonVertices vertexCount p (Z.to_nat vertexCount) 0 0
            = Some 0%Z).
  { intros b Hb. apply crossingLoop_constant. intros i Hi. apply no_crossing.
    destruct (nextIndex_spec vertexCount Hn i ltac:(lia)) as [_ Hj].
    rewrite (Hb i) by lia. rewrite (Hb _ Hj). reflexivity. }
  destruct H as [H | [H | [H | H]]].
  - apply (A false). intros i Hi. unfold Polygon.above.
    rewrite (vertexAt_in_range polygonVertices i) by lia. apply Qltb_false, H, Hi.
  - apply (A true). intros i Hi. unfold Polygon.above.
    rewrite (vertexAt_in_range polygonVertices i) by lia. apply Qltb_lt, H, Hi.
  - apply crossingLoop_constant. intros i Hi.
    apply (crossing_left polygonVertices vertexCount p Hn); [lia | exact H].
  - pose proof (crossing_parity polygonVertices vertexCount p Hn (Z.to_nat vertexCount) 0 H)
      as P.
    rewrite xorb_nilpotent in P. apply P; lia.
Qed.

Lemma polygon_outside_box_witness :
  Polygon.insideTest
    (fun i => if (i =? 0)%Z then Polygon.mkVec2 10 10
              else if (i =? 1)%Z then Polygon.mkVec2 50 10
              else Polygon.mkVec2 30 40)
    3 (Polygon.mkVec2 5 20)
  = Some 0%Z.
Proof.
  apply (polygon_outside_box
           (fun i => if (i =? 0)%Z then Polygon.mkVec2 10 10
                     else if (i =? 1)%Z then Polygon.mkVec2 50 10
                     else Polygon.mkVec2 30 40)
           3 (Polygon.mkVec2 5 20)).
  - lia.
  - right. right. right. intros i Hi.
    destruct (i =? 0)%Z; [reflexivity |]. destruct (i =? 1)%Z; reflexivity.
Defined.

(** The test finds the points of a rectangle: for the four corners of an
    axis-parallel rectangle as polygon, every point strictly inside is
    classified as inside. *)
Theorem polygon_inside_rectangle (x0 y0 x1 y1 : Q) (p : Polygon.vec2) :
  x0 < Polygon.px p -> Polygon.px p < x1 -> y0 < Polygon.py p -> Polygon.py p < y1 ->
  Polygon.insideTest (rectangleVertices x0 y0 x1 y1) 4 p = Some 1%Z.
Proof.
  intros Hx0 Hx1 Hy0 Hy1. destruct p as [x y]. cbn [Polygon.px Polygon.py] in *.
  assert (A0 : Qltb y y0 = false) by (apply Qltb_false; lra).
  assert (A1 : Qltb y y1 = true) by (apply Qltb_lt; exact Hy1).
  assert (D1 : ~ y1 - y0 == 0) by lra.
  assert (D3 : ~ y0 - y1 == 0) by lra.
  unfold Polygon.insideTest. change (Z.to_nat 4) with 4%nat.
  cbn [Polygon.crossingLoop].
  assert (S0 : Polygon.crossingStep (rectangleVertices x0 y0 x1 y1) 4
                 (Polygon.mkVec2 x y) 0 0 = Some 0%Z).
  { unfold Polygon.crossingStep, Polygon.above.
    change (Polygon.nextIndex 4 0) with 1%Z.
    change (Polygon.vertexAt (rectangleVertices x0 y0 x1 y1) 0) with (Polygon.mkVec2 x0 y0).
    change (Polygon.vertexAt (rectangleVertices x0 y0 x1 y1) 1) with (Polygon.mkVec2 x1 y0).
    cbn [Polygon.px Polygon.py]. rewrite A0. reflexivity. }
  rewrite S0. change (0 + 1)%Z with 1%Z.
  assert (S1 : Polygon.crossingStep (rectangleVertices x0 y0 x1 y1) 4
                 (Polygon.mkVec2 x y) 0 1 = Some 1%Z).
  { unfold Polygon.crossingStep, Polygon.above.
    change (Polygon.nextIndex 4 1) with 2%Z.
    change (Polygon.vertexAt (rectangleVertices x0 y0 x1 y1) 1) with (Polygon.mkVec2 x1 y0).
    change (Polygon.vertexAt (rectangleVertices x0 y0 x1 y1) 2) with (Polygon.mkVec2 x1 y1).
    cbn [Polygon.px Polygon.py]. rewrite A0, A1. cbn [xorb].
    rewrite (fdiv_defined _ _ D1).
    assert (E : x1 + (x1 - x1) * ((y - y0) / (y1 - y0)) == x1) by ring.
    rewrite (Qltb_compat_r _ _ _ E).
    replace (Qltb x x1) with true by (symmetry; apply Qltb_lt; exact Hx1). reflexivity. }
  rewrite S1. change (1 + 1)%Z with 2%Z.
  assert (S2 : Polygon.crossingStep (rectangleVertices x0 y0 x1 y1) 4
                 (Polygon.mkVec2 x y) 1 2 = Some 1%Z).
  { unfold Polygon.crossingStep, Polygon.above.
    change (Polygon.nextIndex 4 2) with 3%Z.
    change (Polygon.vertexAt (rectangleVertices x0 y0 x1 y1) 2) with (Polygon.mkVec2 x1 y1).
    change (Polygon.vertexAt (rectangleVertices x0 y0 x1 y1) 3) with (Polygon.mkVec2 x0 y1).
    cbn [Polygon.px Polygon.py]. rewrite A1. reflexivity. }
  rewrite S2. change (2 + 1)%Z with 3%Z.
  assert (S3 : Polygon.crossingStep (rectangleVertices x0 y0 x1 y1) 4
                 (Polygon.mkVec2 x y) 1 3 = Some 1%Z).
  { unfold Polygon.crossingStep, Polygon.above.
    change (Polygon.nextIndex 4 3) with 0%Z.
    change (Polygon.vertexAt (rectangleVertices x0 y0 x1 y1) 3) with (Polygon.mkVec2 x0 y1).
    change (Polygon.vertexAt (rectangleVertices x0 y0 x1 y1) 0) with (Polygon.mkVec2 x0 y0).
    cbn [Polygon.px Polygon.py]. rewrite A0, A1. cbn [xorb].
    rewrite (fdiv_defined _ _ D3).
    assert (E : x0 + (x0 - x0) * ((y - y1) / (y0 - y1)) == x0) by ring.
    rewrite (Qltb_compat_r _ _ _ E).
    rewrite (Qltb_false x x0) by lra. reflexivity. }
  rewrite S3. reflexivity.
Qed.

Lemma polygon_inside_rectangle_witness :
  Polygon.insideTest (rectangleVertices 4 2 124 62) 4 (Polygon.mkVec2 64 32) = Some 1%Z.
Proof.
  apply (polygon_inside_rectangle 4 2 124 62 (Polygon.mkVec2 64 32)); reflexivity.
Defined.

(** ** Nearest-element searches *)

Section NearestSearch.

Import Sphere Nearest.
Local Open Scope R_scope.

Lemma loopRange_In (stop i : Z) : In i (loopRange stop) <-> (0 <= i < stop)%Z.
Proof. apply activeParticles_In. Qed.

(** A loop that keeps the smallest distance seen so far, and what came with
    it. *)
Lemma argmin_fold {I B : Type} (dist : I -> R) (val : I -> B) (l : list I) :
  forall acc : R * B,
    let r := fold_left (fun acc i => if Rlt_dec (dist i) (fst acc) then (dist i, val i) else acc)
                       l acc in
    fst r <= fst acc /\
    (forall i, In i l -> fst r <= dist i) /\
    (r = acc \/ exists i, In i l /\ r = (dist i, val i) /\ dist i < fst acc).
Proof.
  induction l as [| a l IH]; intros acc; cbn zeta.
  - cbn [fold_left]. split; [lra |]. split; [intros i [] | left; reflexivity].
  - cbn [fold_left]. destruct (Rlt_dec (dist a) (fst acc)) as [L | L].
    + destruct (IH (dist a, val a)) as [H1 [H2 H3]]. cbn [fst] in H1, H3.
      split; [lra |]. split.
      * intros i [<- | Hi]; [exact H1 | apply H2, Hi].
      * right. destruct H3 as [-> | [i [Hi [E Hd]]]].
        -- exists a. split; [left; reflexivity | split; [reflexivity | exact L]].
        -- exists i. split; [right; exact Hi | split; [exact E | lra]].
    + destruct (IH acc) as [H1 [H2 H3]].
      split; [exact H1 |]. split.
      * intros i [<- | Hi]; [lra | apply H2, Hi].
      * destruct H3 as [-> | [i [Hi [E Hd]]]]; [left; reflexivity |].
        right. exists i. split; [right; exact Hi | split; [exact E | exact Hd]].
Qed.

Lemma length2_sq (a : vec2R) : length2 a * length2 a = qx a * qx a + qy a * qy a.
Proof. unfold length2. apply sqrt_sqrt. nra. Qed.

Lemma clampR_cases (k : R) :
  (k <= 0 /\ clampR k 0 1 = 0) \/ (0 <= k <= 1 /\ clampR k 0 1 = k) \/
  (1 <= k /\ clampR k 0 1 = 1).
Proof.
  unfold clampR, Rmin, Rmax.
  destruct (Rle_dec k 0); destruct (Rle_dec 0 1); destruct (Rle_dec k 1);
    try destruct (Rle_dec 0 1); try lra;
    first [left; split; lra | right; left; split; lra | right; right; split; lra].
Qed.

(** The clamped projection is the point of the segment closest to [p]. *)
Lemma closestOnEdge_optimal (v0 v1 p : vec2R) (s : R) :
  0.0001 <= length2 (sub2 v1 v0) * length2 (sub2 v1 v0) -> 0 <= s <= 1 ->
  length2 (sub2 p (closestOnEdge v0 v1 p))
  <= length2 (sub2 p (add2 v0 (scale2 s (sub2 v1 v0)))).
Proof.
  intros Hd Hs. unfold closestOnEdge.
  destruct (Rlt_dec _ 0.0001) as [L | _]; [lra |].
  rewrite length2_sq in Hd |- *.
  unfold length2, sub2, add2, scale2, dot2 in *. cbn [qx qy] in *.
  set (ex := qx v1 - qx v0) in *. set (ey := qy v1 - qy v0) in *.
  set (wx := qx p - qx v0). set (wy := qy p - qy v0).
  set (L2 := ex * ex + ey * ey) in *.
  set (k := (wx * ex + wy * ey) / L2).
  assert (K : k * L2 = wx * ex + wy * ey) by (unfold k; field; lra).
  set (t := clampR k 0 1).
  apply sqrt_le_1_alt.
  assert (D : (qx p - (qx v0 + s * ex)) * (qx p - (qx v0 + s * ex))
              + (qy p - (qy v0 + s * ey)) * (qy p - (qy v0 + s * ey))
              - ((qx p - (qx v0 + t * ex)) * (qx p - (qx v0 + t * ex))
                 + (qy p - (qy v0 + t * ey)) * (qy p - (qy v0 + t * ey)))
              = (s - t) * (L2 * (s + t) - 2 * (k * L2))).
  { rewrite K. unfold L2, wx, wy. ring. }
  assert (P : 0 <= (s - t) * (L2 * (s + t) - 2 * (k * L2))).
  { destruct (clampR_cases k) as [[Hk E] | [[Hk E] | [Hk E]]]; fold t in E; rewrite E.
    - replace ((s - 0) * (L2 * (s + 0) - 2 * (k * L2))) with (s * (L2 * s + 2 * ((- k) * L2)))
        by ring.
      assert (0 <= (- k) * L2) by (apply Rmult_le_pos; lra).
      assert (0 <= L2 * s) by (apply Rmult_le_pos; lra).
      apply Rmult_le_pos; lra.
    - replace ((s - k) * (L2 * (s + k) - 2 * (k * L2))) with (L2 * ((s - k) * (s - k))) by ring.
      apply Rmult_le_pos; [lra | exact (Rle_0_sqr (s - k))].
    - replace ((s - 1) * (L2 * (s + 1) - 2 * (k * L2)))
        with ((1 - s) * (L2 * (1 - s) + 2 * ((k - 1) * L2))) by ring.
      assert (0 <= (k - 1) * L2) by (apply Rmult_le_pos; lra).
      assert (0 <= L2 * (1 - s)) by (apply Rmult_le_pos; lra).
      apply Rmult_le_pos; lra. }
  lra.
Qed.

Lemma closestOnEdge_on_edge (v0 v1 p : vec2R) :
  exists s, 0 <= s <= 1 /\ closestOnEdge v0 v1 p = add2 v0 (scale2 s (sub2 v1 v0)).
Proof.
  unfold closestOnEdge. destruct (Rlt_dec _ 0.0001).
  - exists 0. split; [lra | reflexivity].
  - eexists. split; [| reflexivity].
    destruct (clampR_cases (dot2 (sub2 p v0) (sub2 v1 v0)
                            / (length2 (sub2 v1 v0) * length2 (sub2 v1 v0))))
      as [[_ E] | [[Hk E] | [_ E]]]; rewrite E; lra.
Qed.

End NearestSearch.

(** The point toward which the polygon containment pushes a particle is
    the point of the polygon boundary nearest to it: no point of any edge is
    closer than the distance found (edges shorter than 0.01 apart), and when
    an edge lies within 9999 the point found is a point of an edge at that
    distance. *)
Theorem nearest_polygon_point (polygonVertices : Z -> Nearest.vec2R) (vertexCount : Z)
  (p : Nearest.vec2R) :
  (forall i, (0 <= i < vertexCount)%Z ->
     (0.0001 <=
      Nearest.length2 (Nearest.sub2
        (Nearest.vertexAt polygonVertices (Polygon.nextIndex vertexCount i))
        (Nearest.vertexAt polygonVertices i))
      * Nearest.length2 (Nearest.sub2
        (Nearest.vertexAt polygonVertices (Polygon.nextIndex vertexCount i))
        (Nearest.vertexAt polygonVertices i)))%R) ->
  (forall i s, (0 <= i < vertexCount)%Z -> (0 <= s <= 1)%R ->
     (fst (Nearest.nearestOnPolygon polygonVertices vertexCount p)
      <= Nearest.length2
           (Nearest.sub2 p (Nearest.edgePoint polygonVertices vertexCount i s)))%R) /\
  ((fst (Nearest.nearestOnPolygon polygonVertices vertexCount p) < 9999)%R ->
   exists i s, (0 <= i < vertexCount)%Z /\ (0 <= s <= 1)%R /\
     snd (Nearest.nearestOnPolygon polygonVertices vertexCount p)
     = Nearest.edgePoint polygonVertices vertexCount i s /\
     fst (Nearest.nearestOnPolygon polygonVertices vertexCount p)
     = Nearest.length2
         (Nearest.sub2 p (snd (Nearest.nearestOnPolygon polygonVertices vertexCount p)))).
Proof.
  intros Hd. unfold Nearest.nearestOnPolygon.
  pose proof (argmin_fold
                (fun i => Nearest.length2 (Nearest.sub2 p
                   (Nearest.closestOnEdge (Nearest.vertexAt polygonVertices i)
                      (Nearest.vertexAt polygonVertices (Polygon.nextIndex vertexCount i)) p)))
                (fun i => Nearest.closestOnEdge (Nearest.vertexAt polygonVertices i)
                      (Nearest.vertexAt polygonVertices (Polygon.nextIndex vertexCount i)) p)
                (loopRange vertexCount) (9999%R, Nearest.mkVec2R 0 0)) as A.
  cbv zeta in A.
  change (fun (acc : R * Nearest.vec2R) (i : Z) => _)
    with (Nearest.nearestStep polygonVertices vertexCount p) in A.
  destruct A as [A1 [A2 A3]]. cbn [fst] in A1, A3.
  set (r := fold_left (Nearest.nearestStep polygonVertices vertexCount p)
                      (loopRange vertexCount) (9999%R, Nearest.mkVec2R 0 0)) in *.
  split.
  - intros i s Hi Hs. eapply Rle_trans; [apply A2, loopRange_In, Hi |].
    apply closestOnEdge_optimal; [apply Hd, Hi | exact Hs].
  - intros L. destruct A3 as [E | [i [Hi [E _]]]].
    + rewrite E in L. cbn [fst] in L. exfalso. apply (Rlt_irrefl _ L).
    + apply loopRange_In in Hi.
      destruct (closestOnEdge_on_edge (Nearest.vertexAt polygonVertices i)
                  (Nearest.vertexAt polygonVertices (Polygon.nextIndex vertexCount i)) p)
        as [s [Hs Es]].
      exists i, s. rewrite E. cbn [fst snd].
      split; [exact Hi | split; [exact Hs | split; [exact Es | reflexivity]]].
Qed.

Lemma nearest_polygon_point_witness :
  (forall i s, (0 <= i < 3)%Z -> (0 <= s <= 1)%R ->
     (fst (Nearest.nearestOnPolygon
             Nearest.exampleTriangle 3 (Nearest.mkVec2R 20 20))
      <= Nearest.length2
           (Nearest.sub2 (Nearest.mkVec2R 20 20)
              (Nearest.edgePoint
                 Nearest.exampleTriangle 3 i s)))%R) /\
  ((fst (Nearest.nearestOnPolygon
           Nearest.exampleTriangle 3 (Nearest.mkVec2R 20 20)) < 9999)%R ->
   exists i s, (0 <= i < 3)%Z /\ (0 <= s <= 1)%R /\
     snd (Nearest.nearestOnPolygon
            Nearest.exampleTriangle 3 (Nearest.mkVec2R 20 20))
     = Nearest.edgePoint
         Nearest.exampleTriangle 3 i s /\
     fst (Nearest.nearestOnPolygon
            Nearest.exampleTriangle 3 (Nearest.mkVec2R 20 20))
     = Nearest.length2
         (Nearest.sub2 (Nearest.mkVec2R 20 20)
            (snd (Nearest.nearestOnPolygon
                    Nearest.exampleTriangle 3 (Nearest.mkVec2R 20 20))))).
Proof.
  apply (nearest_polygon_point
           Nearest.exampleTriangle 3 (Nearest.mkVec2R 20 20)).
  intros i Hi. rewrite length2_sq.
  assert (C : i = 0%Z \/ i = 1%Z \/ i = 2%Z) by lia.
  destruct C as [-> | [-> | ->]]; cbn; lra.
Defined.

Section ColourSearch.

Import Sphere Nearest.
Local Open Scope R_scope.

Lemma selectTen_in_range (uniforms : Z -> vec3R) (i : Z) :
  (0 <= i <= 9)%Z -> selectTen uniforms i = uniforms i.
Proof.
  intros H. unfold selectTen.
  destruct (Z.leb_spec 0 i); [| lia].
  destruct (Z.leb_spec i 8); cbn [andb]; [reflexivity |].
  replace i with 9%Z by lia. reflexivity.
Qed.

Lemma length_zero (a : vec3R) : length a <= 0 -> rx a = 0 /\ ry a = 0 /\ rz a = 0.
Proof.
  intros H. unfold length in H.
  assert (S : 0 <= rx a * rx a + ry a * ry a + rz a * rz a) by nra.
  pose proof (sqrt_pos (rx a * rx a + ry a * ry a + rz a * rz a)) as P.
  assert (E : sqrt (rx a * rx a + ry a * ry a + rz a * rz a) = 0) by lra.
  apply sqrt_eq_0 in E; [| exact S]. repeat split; nra.
Qed.

(** What the loop over the ten unique colours leaves: the first index of
    a colour at minimal distance, if any colour is within 999. *)
Lemma closestColorIndex_argmin (paletteColors : Z -> vec3R) (particleColor : vec3R) (k : Z) :
  (0 <= k <= 9)%Z -> length (sub particleColor (paletteColors k)) < 999 ->
  (0 <= closestColorIndex paletteColors particleColor <= 9)%Z /\
  forall j, (0 <= j <= 9)%Z ->
    length (sub particleColor
              (paletteColors (closestColorIndex paletteColors particleColor)))
    <= length (sub particleColor (paletteColors j)).
Proof.
  intros Hk Hd. unfold closestColorIndex.
  pose proof (argmin_fold
                (fun i => length (sub particleColor (selectTen paletteColors i)))
                (fun i : Z => i) (loopRange 10) (999, 0%Z)) as A.
  cbv zeta in A.
  change (fun (acc : R * Z) (i : Z) => _) with (closestStep paletteColors particleColor) in A.
  destruct A as [_ [A2 A3]].
  set (r := fold_left (closestStep paletteColors particleColor) (loopRange 10) (999, 0%Z)) in *.
  assert (R9 : forall j, (0 <= j <= 9)%Z ->
            fst r <= length (sub particleColor (paletteColors j))).
  { intros j Hj. rewrite <- (selectTen_in_range paletteColors j Hj).
    apply A2, loopRange_In. lia. }
  destruct A3 as [E | [i [Hi [E _]]]].
  - pose proof (R9 k Hk) as B. rewrite E in B. cbn [fst] in B. lra.
  - apply loopRange_In in Hi. rewrite E in R9 |- *. cbn [fst snd] in R9 |- *.
    split; [lia |]. intros j Hj.
    rewrite <- (selectTen_in_range paletteColors i) by lia. apply R9, Hj.
Qed.

End ColourSearch.

(** A particle that carries one of the ten palette colours, these being
    pairwise different, is attracted to the sphere of exactly that colour:
    the kernel selects the sphere position stored under the same index. *)
Theorem particle_joins_own_sphere (colorSpherePositions paletteColors : Z -> Sphere.vec3R)
  (k : Z) :
  (0 <= k <= 9)%Z ->
  (forall i j, (0 <= i <= 9)%Z -> (0 <= j <= 9)%Z ->
     paletteColors i = paletteColors j -> i = j) ->
  Nearest.closestColorIndex paletteColors (paletteColors k) = k /\
  Nearest.targetSphere colorSpherePositions paletteColors (paletteColors k)
  = colorSpherePositions k.
Proof.
  intros Hk Hinj.
  assert (Z0 : Sphere.length (Sphere.sub (paletteColors k) (paletteColors k)) = 0%R).
  { unfold Sphere.length, Sphere.sub. cbn [Sphere.rx Sphere.ry Sphere.rz].
    replace ((Sphere.rx (paletteColors k) - Sphere.rx (paletteColors k))
             * (Sphere.rx (paletteColors k) - Sphere.rx (paletteColors k))
             + (Sphere.ry (paletteColors k) - Sphere.ry (paletteColors k))
               * (Sphere.ry (paletteColors k) - Sphere.ry (paletteColors k))
             + (Sphere.rz (paletteColors k) - Sphere.rz (paletteColors k))
               * (Sphere.rz (paletteColors k) - Sphere.rz (paletteColors k)))%R
      with 0%R by ring.
    apply sqrt_0. }
  destruct (closestColorIndex_argmin paletteColors (paletteColors k) k Hk) as [Hc Hm].
  { rewrite Z0. lra. }
  set (c := Nearest.closestColorIndex paletteColors (paletteColors k)) in *.
  assert (E : c = k).
  { apply Hinj; [exact Hc | exact Hk |].
    pose proof (Hm k Hk) as B. rewrite Z0 in B.
    destruct (length_zero _ B) as [Ex [Ey Ez]]. cbn [Sphere.sub Sphere.rx Sphere.ry Sphere.rz] in *.
    destruct (paletteColors c) as [cx cy cz], (paletteColors k) as [kx ky kz].
    cbn [Sphere.rx Sphere.ry Sphere.rz] in *. f_equal; lra. }
  split; [exact E |].
  unfold Nearest.targetSphere. fold c. rewrite E. apply selectTen_in_range, Hk.
Qed.

Lemma particle_joins_own_sphere_witness :
  Nearest.closestColorIndex Nearest.rampPalette
    (Nearest.rampPalette 7%Z) = 7%Z /\
  Nearest.targetSphere (fun i => Sphere.mkVec3R 64 32 (IZR i))
    Nearest.rampPalette (Nearest.rampPalette 7%Z)
  = (fun i => Sphere.mkVec3R 64 32 (IZR i)) 7%Z.
Proof.
  apply (particle_joins_own_sphere (fun i => Sphere.mkVec3R 64 32 (IZR i))
           Nearest.rampPalette 7).
  - lia.
  - intros i j _ _ H. unfold Nearest.rampPalette in H. injection H as H. apply eq_IZR, H.
Defined.

(** *** Recolouring on the host *)

Section RecolorSearch.

Import Sphere Recolor.
Local Open Scope R_scope.

Lemma findLoop_spec (targetColor : vec3R) (l : list vec3R) : forall (m : R) (best : vec3R),
  m = distance targetColor best ->
  (findLoop targetColor l (Some m) best = best \/
   In (findLoop targetColor l (Some m) best) l) /\
  distance targetColor (findLoop targetColor l (Some m) best) <= m /\
  forall c, In c l ->
    distance targetColor (findLoop targetColor l (Some m) best) <= distance targetColor c.
Proof.
  induction l as [| a l IH]; intros m best Hm.
  - cbn [findLoop]. split; [left; reflexivity |]. split; [lra | intros c []].
  - cbn [findLoop below]. destruct (Rlt_dec (distance targetColor a) m) as [L | L].
    + destruct (IH (distance targetColor a) a eq_refl) as [H1 [H2 H3]].
      split; [right; destruct H1 as [-> | H1]; [left; reflexivity | right; exact H1] |].
      split; [lra |]. intros c [<- | Hc]; [exact H2 | apply H3, Hc].
    + destruct (IH m best Hm) as [H1 [H2 H3]].
      split; [destruct H1 as [H1 | H1]; [left; exact H1 | right; right; exact H1] |].
      split; [exact H2 |]. intros c [<- | Hc]; [lra | apply H3, Hc].
Qed.

End RecolorSearch.

(** [findMostSimilarPaletteColor] returns, for a non-empty palette, a colour
    of the palette that is as close to the target colour as any colour of the
    palette. *)
Theorem findMostSimilarPaletteColor_closest (paletteRGB : list Sphere.vec3R)
  (targetColor : Sphere.vec3R) :
  paletteRGB <> [] ->
  exists mostSimilar,
    Recolor.findMostSimilarPaletteColor paletteRGB targetColor = Some mostSimilar /\
    In mostSimilar paletteRGB /\
    forall paletteColor, In paletteColor paletteRGB ->
      (Recolor.distance targetColor mostSimilar
       <= Recolor.distance targetColor paletteColor)%R.
Proof.
  intros Hne. destruct paletteRGB as [| first rest]; [contradiction |].
  unfold Recolor.findMostSimilarPaletteColor. eexists. split; [reflexivity |].
  cbn [Recolor.findLoop Recolor.below].
  destruct (findLoop_spec targetColor rest (Recolor.distance targetColor first) first eq_refl)
    as [H1 [H2 H3]].
  split.
  - destruct H1 as [-> | H1]; [left; reflexivity | right; exact H1].
  - intros c [<- | Hc]; [exact H2 | apply H3, Hc].
Qed.

Lemma findMostSimilarPaletteColor_closest_witness :
  exists mostSimilar,
    Recolor.findMostSimilarPaletteColor
      [Sphere.mkVec3R 1 0 0; Sphere.mkVec3R 0 1 0] (Sphere.mkVec3R 0 0 0) = Some mostSimilar /\
    In mostSimilar [Sphere.mkVec3R 1 0 0; Sphere.mkVec3R 0 1 0] /\
    forall paletteColor, In paletteColor [Sphere.mkVec3R 1 0 0; Sphere.mkVec3R 0 1 0] ->
      (Recolor.distance (Sphere.mkVec3R 0 0 0) mostSimilar
       <= Recolor.distance (Sphere.mkVec3R 0 0 0) paletteColor)%R.
Proof.
  apply (findMostSimilarPaletteColor_closest
           [Sphere.mkVec3R 1 0 0; Sphere.mkVec3R 0 1 0] (Sphere.mkVec3R 0 0 0)).
  discriminate.
Defined.

(** ** Mass after encoding, and the positions over a run *)

Lemma Qsum_map_succ {A : Type} (f : A -> Q) (l : list A) :
  Qsum (List.map (fun x => f x + 1) l) == Qsum (List.map f l) + inject_Z (Z.of_nat (length l)).
Proof.
  induction l as [| a l IH]; [reflexivity |].
  cbn [List.map Qsum fold_right length]. fold (Qsum (List.map (fun x => f x + 1) l)).
  fold (Qsum (List.map f l)). rewrite IH, Nat2Z.inj_succ. unfold Z.succ.
  rewrite inject_Z_plus. change (inject_Z 1) with 1. ring.
Qed.

(** In fixed point a particle still scatters almost exactly its mass: the
    27 encoded mass contributions of a particle add up to at most [10^7],
    the encoding of 1, and to no less than [10^7 - 27]; truncation loses
    less than 3 millionths of the mass of a particle per step. *)
Theorem p2g1_encoded_mass (u : Uniforms) (p : Particle) :
  (10000000 - 27
   <= Zsum (List.map (fun c => encodeFixedPoint (massContrib c)) (p2g1Contributions u p))
   <= 10000000)%Z.
Proof.
  assert (W : forall c, In c (p2g1Contributions u p) ->
            inject_Z (encodeFixedPoint (massContrib c)) <= massContrib c * fixedPointMultiplier /\
            massContrib c * fixedPointMultiplier
            <= inject_Z (encodeFixedPoint (massContrib c)) + 1).
  { intros c Hc. destruct (contribution_mass_nonneg u p c Hc) as [H0 [H1 _]].
    destruct (encode_weight _ H0 H1) as [E1 E2]. split; [exact E1 | lra]. }
  assert (S : Qsum (List.map (fun c => massContrib c * fixedPointMultiplier)
                             (p2g1Contributions u p)) == 10000000).
  { rewrite Qsum_map_scale, (stencil_weights_sum u p). reflexivity. }
  split.
  - assert (L : 10000000
                <= inject_Z (Zsum (List.map (fun c => encodeFixedPoint (massContrib c))
                                            (p2g1Contributions u p))) + 27).
    { rewrite <- S, inject_Zsum.
      eapply Qle_trans.
      - apply (Qsum_le _ (fun c => inject_Z (encodeFixedPoint (massContrib c)) + 1)).
        intros c Hc. apply (W c Hc).
      - rewrite Qsum_map_succ. unfold p2g1Contributions. rewrite length_map, stencil_length.
        change (inject_Z (Z.of_nat 27)) with 27. lra. }
    change 10000000 with (inject_Z 10000000) in L. change 27 with (inject_Z 27) in L.
    rewrite <- inject_Z_plus, <- Zle_Qle in L. lia.
  - rewrite Zle_Qle, inject_Zsum. change (inject_Z 10000000) with 10000000. rewrite <- S.
    apply Qsum_le. intros c Hc. apply (W c Hc).
Qed.

Lemma axisPosition_range (r size : Q) :
  0 <= r -> r < 1 -> 20 <= size ->
  2 <= Init.axisPosition r size /\ Init.axisPosition r size <= size - 2.
Proof.
  intros H0 H1 Hs. unfold Init.axisPosition.
  assert (E : ((r * 2 - 1) * 0.8 + 1) / 2 * size == (0.1 + 0.8 * r) * size) by field.
  rewrite E. split; nra.
Qed.

Lemma initial_inGrid (u : Uniforms) (r : vec3) :
  (20 <= ix (gridSize u))%Z -> (20 <= iy (gridSize u))%Z -> (20 <= iz (gridSize u))%Z ->
  0 <= vx r -> vx r < 1 -> 0 <= vy r -> vy r < 1 -> 0 <= vz r -> vz r < 1 ->
  inGrid u (Init.initialPosition u r).
Proof.
  intros Hx Hy Hz X0 X1 Y0 Y1 Z0 Z1.
  assert (S : forall size, (20 <= size)%Z ->
            20 <= Tsl.float size /\ inject_Z (size - 2) == Tsl.float size - 2).
  { intros size H. unfold Tsl.float. split.
    - change 20 with (inject_Z 20). rewrite <- Zle_Qle. exact H.
    - unfold Z.sub, Qminus. rewrite inject_Z_plus, inject_Z_opp. reflexivity. }
  destruct (S _ Hx) as [Sx Ex]. destruct (S _ Hy) as [Sy Ey]. destruct (S _ Hz) as [Sz Ez].
  unfold inGrid, Init.initialPosition. cbn [vx vy vz]. rewrite Ex, Ey, Ez.
  split; [| split]; apply axisPosition_range; assumption.
Qed.

(** Over a whole run a particle never leaves the box: starting from an
    initial position, and whatever matrices and velocities the gather kernel
    accumulates step after step, every position written back is inside
    [[2, gridSize - 2]], and every stencil cell the transfers of the next step
    address for it is a cell of the grid.  The scatter passes therefore run
    under the conditions of their theorems in every step. *)
Theorem positions_stay_in_grid (u : Uniforms) (B : nat -> mat3) (vel : nat -> vec3)
  (p : Particle) (r : vec3) (n : nat) (g : ivec3) :
  (cellCount u <= Tsl.INT32_MAX)%Z ->
  (20 <= ix (gridSize u))%Z -> (20 <= iy (gridSize u))%Z -> (20 <= iz (gridSize u))%Z ->
  0 <= vx r -> vx r < 1 -> 0 <= vy r -> vy r < 1 -> 0 <= vz r -> vz r < 1 ->
  position p = Init.initialPosition u r ->
  In g stencil ->
  inGrid u (position (particleAfter u B vel n p)) /\
  (0 <= getCellPtr u (cellXOf (position (particleAfter u B vel n p)) g) < cellCount u)%Z.
Proof.
  intros Hf Hx Hy Hz X0 X1 Y0 Y1 Z0 Z1 Hp Hg.
  assert (I : inGrid u (position (particleAfter u B vel n p))).
  { destruct n as [| n].
    - cbn [particleAfter]. rewrite Hp.
      apply (initial_inGrid u r); assumption.
    - cbn [particleAfter writeBack position].
      destruct (inGrid_sizes u (Init.initialPosition u r) Hf
                  (initial_inGrid u r Hx Hy Hz X0 X1 Y0 Y1 Z0 Z1)) as [Sx [Sy Sz]].
      apply integratePosition_inGrid; lia. }
  split; [exact I |]. apply (stencil_in_grid u Hf _ g I Hg).
Qed.

Lemma positions_stay_in_grid_witness :
  inGrid exampleUniforms
    (position (particleAfter exampleUniforms (fun _ => Vec.mzero)
                 (fun k => mkVec3 (inject_Z (Z.of_nat k) * 1000) (-1000) 0) 3
                 (mkParticle (Init.initialPosition exampleUniforms (mkVec3 0 0.5 0.99)) 1
                    (Vec.splat 0) 1 Vec.mzero (Vec.splat 0) (Vec.splat 1)))) /\
  (0 <= getCellPtr exampleUniforms
          (cellXOf (position
                      (particleAfter exampleUniforms (fun _ => Vec.mzero)
                         (fun k => mkVec3 (inject_Z (Z.of_nat k) * 1000) (-1000) 0) 3
                         (mkParticle (Init.initialPosition exampleUniforms (mkVec3 0 0.5 0.99))
                            1 (Vec.splat 0) 1 Vec.mzero (Vec.splat 0) (Vec.splat 1))))
                   (mkIvec3 2 2 2))
     < cellCount exampleUniforms)%Z.
Proof.
  apply (positions_stay_in_grid exampleUniforms (fun _ => Vec.mzero)
           (fun k => mkVec3 (inject_Z (Z.of_nat k) * 1000) (-1000) 0)
           (mkParticle (Init.initialPosition exampleUniforms (mkVec3 0 0.5 0.99)) 1
              (Vec.splat 0) 1 Vec.mzero (Vec.splat 0) (Vec.splat 1))
           (mkVec3 0 0.5 0.99) 3 (mkIvec3 2 2 2));
    try exact example_fits; try reflexivity;
    try (vm_compute; first [discriminate | reflexivity]).
  unfold stencil. simpl. auto 40.
Defined.

(** ** Grid mode: the kernel's targets and the host's *)

Section GridTargets.

Variables w h : Z.
Variable rho : Q.

Hypothesis width_range : (1 <= w <= Tsl.INT32_MAX)%Z.
Hypothesis height_range : (1 <= h)%Z.
Hypothesis rho_range : 0 <= rho /\ rho <= 0.5.

Let g := GridMode.uniformsOf w h rho.
Let s := ImageGrid.equalSpacing w h.

Lemma kernel_gridX (i : Z) :
  (0 <= i <= Tsl.INT32_MAX)%Z ->
  GridMode.gridXOf g i = ImageGrid.gridXOf w i /\ GridMode.gridYOf g i = ImageGrid.gridYOf w i /\
  (i = w * GridMode.gridYOf g i + GridMode.gridXOf g i)%Z.
Proof.
  intros Hi. unfold GridMode.gridXOf, GridMode.gridYOf, g, GridMode.uniformsOf.
  cbn [GridMode.gridWidth].
  rewrite (wrap32_id i) by (unfold Tsl.INT32_MIN, Tsl.INT32_MAX in *; lia).
  rewrite (wrap32_id w) by (unfold Tsl.INT32_MIN, Tsl.INT32_MAX in *; lia).
  split; [reflexivity |]. split.
  - rewrite gridYOf_div by lia. apply Z.quot_div_nonneg; lia.
  - apply Z.quot_rem'.
Qed.

Lemma random_range (x : Q) : -1 <= Tsl.fract x * 2 - 1 /\ Tsl.fract x * 2 - 1 < 1.
Proof. destruct (fract_range x). split; lra. Qed.

Lemma spacing_pos : 0 < s.
Proof. apply (equalSpacing_bounds w h); lia. Qed.

(** The jitter of a target stays below [rho] times the spacing. *)
Lemma offset_range (i : Z) :
  - (rho * s) <= GridMode.offsetX g i /\ GridMode.offsetX g i <= rho * s /\
  - (rho * s) <= GridMode.offsetY g i /\ GridMode.offsetY g i <= rho * s /\
  (0 < rho -> GridMode.offsetX g i < rho * s /\ GridMode.offsetY g i < rho * s).
Proof.
  unfold GridMode.offsetX, GridMode.offsetY, GridMode.randomX, GridMode.randomY.
  change (GridMode.gridSpacingX g) with s. change (GridMode.gridSpacingY g) with s.
  change (GridMode.gridRandomOffset g) with rho.
  destruct (random_range (GridMode.hash g i)) as [X0 X1].
  destruct (random_range (GridMode.hash g i * 43758.5453)) as [Y0 Y1].
  set (rx := Tsl.fract (GridMode.hash g i) * 2 - 1) in *.
  set (ry := Tsl.fract (GridMode.hash g i * 43758.5453) * 2 - 1) in *.
  clearbody rx ry. pose proof spacing_pos as S. destruct rho_range as [R0 R1].
  assert (P : 0 <= rho * s) by (apply Qmult_le_0_compat; lra).
  assert (Ex : rx * s * rho == rx * (rho * s)) by ring.
  assert (Ey : ry * s * rho == ry * (rho * s)) by ring.
  rewrite Ex, Ey. set (k := rho * s) in *.
  assert (Kp : 0 < rho -> 0 < k) by (intros Hr; unfold k; apply Qmult_lt_0_compat; lra).
  clearbody k.
  assert (A1 : 0 <= (rx + 1) * k) by (apply Qmult_le_0_compat; lra).
  assert (A2 : 0 <= (1 - rx) * k) by (apply Qmult_le_0_compat; lra).
  assert (B1 : 0 <= (ry + 1) * k) by (apply Qmult_le_0_compat; lra).
  assert (B2 : 0 <= (1 - ry) * k) by (apply Qmult_le_0_compat; lra).
  assert (E1 : (rx + 1) * k == rx * k + k) by ring.
  assert (E2 : (1 - rx) * k == k - rx * k) by ring.
  assert (E3 : (ry + 1) * k == ry * k + k) by ring.
  assert (E4 : (1 - ry) * k == k - ry * k) by ring.
  split; [lra |]. split; [lra |]. split; [lra |]. split; [lra |].
  intros Hr. specialize (Kp Hr).
  assert (C1 : 0 < (1 - rx) * k) by (apply Qmult_lt_0_compat; lra).
  assert (C2 : 0 < (1 - ry) * k) by (apply Qmult_lt_0_compat; lra).
  split; lra.
Qed.

Lemma axis_targets_apart (a olo ohi : Q) (klo khi : Z) :
  (klo < khi)%Z ->
  - (rho * s) <= ohi -> olo <= rho * s -> (0 < rho -> olo < rho * s) ->
  ~ a + inject_Z klo * s + olo == a + inject_Z khi * s + ohi.
Proof.
  intros K Ha Hb Hs E. rename klo into ka, khi into kb. pose proof spacing_pos as S. destruct rho_range as [R0 R1].
  assert (L : inject_Z ka + 1 <= inject_Z kb).
  { change 1 with (inject_Z 1). rewrite <- inject_Z_plus, <- Zle_Qle. lia. }
  assert (M : (inject_Z ka + 1) * s <= inject_Z kb * s) by (apply Qmult_le_compat_r; lra).
  assert (EM : (inject_Z ka + 1) * s == inject_Z ka * s + s) by ring.
  assert (P : rho * s <= 0.5 * s) by (apply Qmult_le_compat_r; lra).
  set (x := inject_Z ka * s) in *. set (y := inject_Z kb * s) in *.
  set (k := rho * s) in *. clearbody x y.
  destruct (Qlt_le_dec 0 rho) as [Hr | Hr].
  - specialize (Hs Hr). lra.
  - assert (Z0 : k == 0) by (unfold k; assert (rho == 0) by lra; nra).
    lra.
Qed.

End GridTargets.

(** In grid mode the kernel computes for each particle the lattice point
    that the host computed for it in [loadImageAndSetupGrid], moved by a
    jitter of at most [gridRandomOffset] times the spacing on each axis; with
    a [gridRandomOffset] of at most one half (it is 0.5) the targets of two
    different particles are different points. *)
Theorem grid_targets_distinct (gridWidth gridHeight : Z) (gridRandomOffset : Q) (i j : Z) :
  (1 <= gridWidth <= Tsl.INT32_MAX)%Z -> (1 <= gridHeight)%Z ->
  0 <= gridRandomOffset -> gridRandomOffset <= 0.5 ->
  (0 <= i <= Tsl.INT32_MAX)%Z -> (0 <= j <= Tsl.INT32_MAX)%Z -> i <> j ->
  Qabs (GridMode.targetX (GridMode.uniformsOf gridWidth gridHeight gridRandomOffset) i
        - vx (ImageGrid.targetAt gridWidth gridHeight i))
  <= gridRandomOffset * ImageGrid.equalSpacing gridWidth gridHeight /\
  Qabs (GridMode.targetY (GridMode.uniformsOf gridWidth gridHeight gridRandomOffset) i
        - vy (ImageGrid.targetAt gridWidth gridHeight i))
  <= gridRandomOffset * ImageGrid.equalSpacing gridWidth gridHeight /\
  Qeq_bool (GridMode.targetX (GridMode.uniformsOf gridWidth gridHeight gridRandomOffset) i)
           (GridMode.targetX (GridMode.uniformsOf gridWidth gridHeight gridRandomOffset) j)
  && Qeq_bool (GridMode.targetY (GridMode.uniformsOf gridWidth gridHeight gridRandomOffset) i)
              (GridMode.targetY (GridMode.uniformsOf gridWidth gridHeight gridRandomOffset) j)
  = false.
Proof.
  intros Hw Hh R0 R1 Hi Hj Hne.
  assert (Hr : 0 <= gridRandomOffset /\ gridRandomOffset <= 0.5) by (split; assumption).
  set (g := GridMode.uniformsOf gridWidth gridHeight gridRandomOffset).
  destruct (kernel_gridX gridWidth gridHeight gridRandomOffset Hw i Hi) as [Xi [Yi Di]].
  destruct (kernel_gridX gridWidth gridHeight gridRandomOffset Hw j Hj) as [Xj [Yj Dj]].
  destruct (offset_range gridWidth gridHeight gridRandomOffset Hw Hh Hr i)
    as [I1 [I2 [I3 [I4 I5]]]].
  destruct (offset_range gridWidth gridHeight gridRandomOffset Hw Hh Hr j)
    as [J1 [J2 [J3 [J4 J5]]]].
  fold g in Xi, Yi, Di, Xj, Yj, Dj, I1, I2, I3, I4, I5, J1, J2, J3, J4, J5.
  split; [| split].
  - unfold GridMode.targetX, ImageGrid.targetAt. cbn [vx].
    change (GridMode.gridStartX g) with (ImageGrid.gridStartX gridWidth gridHeight).
    change (GridMode.gridSpacingX g) with (ImageGrid.equalSpacing gridWidth gridHeight).
    rewrite Xi. unfold Tsl.float. apply Qabs_Qle_condition.
    set (o := GridMode.offsetX g i) in *. split; lra.
  - unfold GridMode.targetY, ImageGrid.targetAt. cbn [vy].
    change (GridMode.gridStartY g) with (ImageGrid.gridStartY gridWidth gridHeight).
    change (GridMode.gridSpacingY g) with (ImageGrid.equalSpacing gridWidth gridHeight).
    rewrite Yi. unfold Tsl.float. apply Qabs_Qle_condition.
    set (o := GridMode.offsetY g i) in *. split; lra.
  - apply andb_false_iff.
    assert (A : forall a oa ob ka kb, ka <> kb ->
              - (gridRandomOffset * ImageGrid.equalSpacing gridWidth gridHeight) <= oa ->
              oa <= gridRandomOffset * ImageGrid.equalSpacing gridWidth gridHeight ->
              (0 < gridRandomOffset ->
               oa < gridRandomOffset * ImageGrid.equalSpacing gridWidth gridHeight) ->
              - (gridRandomOffset * ImageGrid.equalSpacing gridWidth gridHeight) <= ob ->
              ob <= gridRandomOffset * ImageGrid.equalSpacing gridWidth gridHeight ->
              (0 < gridRandomOffset ->
               ob < gridRandomOffset * ImageGrid.equalSpacing gridWidth gridHeight) ->
              Qeq_bool (a + inject_Z ka * ImageGrid.equalSpacing gridWidth gridHeight + oa)
                       (a + inject_Z kb * ImageGrid.equalSpacing gridWidth gridHeight + ob)
              = false).
    { intros a oa ob ka kb Hk A1 A2 A3 B1 B2 B3. apply Qeq_bool_false.
      destruct (Z.lt_total ka kb) as [L | [E | L]]; [| contradiction |].
      - apply (axis_targets_apart gridWidth gridHeight gridRandomOffset Hw Hh Hr
                 a oa ob ka kb L B1 A2 A3).
      - intros E. symmetry in E. revert E.
        apply (axis_targets_apart gridWidth gridHeight gridRandomOffset Hw Hh Hr
                 a ob oa kb ka L A1 B2 B3). }
    destruct (Z.eq_dec (GridMode.gridXOf g i) (GridMode.gridXOf g j)) as [Ex | Nx].
    + right. assert (Ny : GridMode.gridYOf g i <> GridMode.gridYOf g j).
      { intros Ey. apply Hne. rewrite Di, Dj, Ex, Ey. reflexivity. }
      unfold GridMode.targetY.
      change (GridMode.gridStartY g) with (ImageGrid.gridStartY gridWidth gridHeight).
      change (GridMode.gridSpacingY g) with (ImageGrid.equalSpacing gridWidth gridHeight).
      unfold Tsl.float.
      apply A; [exact Ny | exact I3 | exact I4 | intros P; apply I5, P
               | exact J3 | exact J4 | intros P; apply J5, P].
    + left. unfold GridMode.targetX.
      change (GridMode.gridStartX g) with (ImageGrid.gridStartX gridWidth gridHeight).
      change (GridMode.gridSpacingX g) with (ImageGrid.equalSpacing gridWidth gridHeight).
      unfold Tsl.float.
      apply A; [exact Nx | exact I1 | exact I2 | intros P; apply I5, P
               | exact J1 | exact J2 | intros P; apply J5, P].
Qed.

Lemma grid_targets_distinct_witness :
  Qabs (GridMode.targetX (GridMode.uniformsOf 13 12 0.5) 5
        - vx (ImageGrid.targetAt 13 12 5))
  <= 0.5 * ImageGrid.equalSpacing 13 12 /\
  Qabs (GridMode.targetY (GridMode.uniformsOf 13 12 0.5) 5
        - vy (ImageGrid.targetAt 13 12 5))
  <= 0.5 * ImageGrid.equalSpacing 13 12 /\
  Qeq_bool (GridMode.targetX (GridMode.uniformsOf 13 12 0.5) 5)
           (GridMode.targetX (GridMode.uniformsOf 13 12 0.5) 18)
  && Qeq_bool (GridMode.targetY (GridMode.uniformsOf 13 12 0.5) 5)
              (GridMode.targetY (GridMode.uniformsOf 13 12 0.5) 18)
  = false.
Proof.
  apply (grid_targets_distinct 13 12 0.5 5 18);
    try (unfold Tsl.INT32_MAX; lia); discriminate.
Defined.
